(** * SyncEngineService: the sync queue, its drain loop and failure recovery

    A shallow embedding of
    [src/modules/shared/sync/sync-engine/sync-engine.service.ts].

    The engine is asynchronous JavaScript: every method returns an
    AngularJS [$q] promise.  A promise-returning method is embedded as a
    function from the engine state to a settled result (fulfilled with a
    value or rejected with an error), the engine state afterwards and the
    list of calls it made on its collaborators, in the order in which it
    made them.  [.then] is [then_], [.catch] is [catch_], [.finally] is
    [finally_].

    Each engine operation is followed from its call to its settlement:
    the continuations of two different operations are not interleaved,
    except in the part on drains that overlap, where a drain is followed
    step by step.  Diagnostics ([logSvc]) change nothing the engine reads
    back and are left out. *)

From Stdlib Require Import List String Bool Arith Lia.
From stdpp Require Import base option gmap list.
Import ListNotations.

Set Implicit Arguments.
Set Warnings "-register-all".
Set Default Proof Using "Type".
Local Open Scope string_scope.

(** ** Data model *)

(** Modelled from the spec: the enum [SyncType] is declared in
    [sync.enum.ts], which is not part of the sources at hand.  The spec
    gives [type ∈ {Local, Remote, Cancel, ...}]; the members it leaves
    open are [OtherSyncType]. *)
Inductive SyncType : Type :=
| Local
| Remote
| Cancel
| OtherSyncType (tag : nat).

(** Modelled from the spec: [MessageCommand] is declared in
    [global-shared.enum.ts]; the engine only compares a command with
    [RestoreBookmarks]. *)
Inductive MessageCommand : Type :=
| RestoreBookmarks
| OtherCommand (tag : nat).

(** Modelled from the spec: the exception classes live in
    [exception/exception.ts].  The engine names the classes below; §7 of
    the spec lists the error kinds as a flat set, so the classes are taken
    as direct, pairwise unrelated subclasses of [Exceptions.Exception]. *)
Inductive ExceptionClass : Type :=
| BookmarkMappingNotFoundException
| BookmarkNotFoundException
| ContainerChangedException
| DataOutOfSyncException
| FailedCreateNativeBookmarksException
| FailedGetNativeBookmarksException
| FailedRemoveNativeBookmarksException
| MissingClientDataException
| NativeBookmarkNotFoundException
| NetworkOfflineException
| NoDataFoundException
| SyncDisabledException
| SyncFailedException
| SyncRemovedException
| SyncUncommittedException
| TooManyRequestsException
| OtherException (tag : nat).

(** A thrown value: an instance of a subclass of [Exceptions.Exception],
    built as [new C(null, innerError)], or any other value ([TypeError],
    a rejected [undefined], ...). *)
Inductive Error : Type :=
| Exception (c : ExceptionClass) (innerError : option Error)
| NativeError (message : string).

(** [err instanceof Exceptions.Exception] *)
Definition instanceof_Exception (err : Error) : bool :=
  match err with
  | Exception _ _ => true
  | NativeError _ => false
  end.

Definition instanceof_NetworkOfflineException (err : Error) : bool :=
  match err with
  | Exception NetworkOfflineException _ => true
  | _ => false
  end.

Definition instanceof_NoDataFoundException (err : Error) : bool :=
  match err with
  | Exception NoDataFoundException _ => true
  | _ => false
  end.

Definition SyncType_eqb (a b : SyncType) : bool :=
  match a, b with
  | Local, Local | Remote, Remote | Cancel, Cancel => true
  | OtherSyncType m, OtherSyncType n => Nat.eqb m n
  | _, _ => false
  end.

(** [command === MessageCommand.RestoreBookmarks]; an absent command is
    not [RestoreBookmarks]. *)
Definition is_RestoreBookmarks (command : option MessageCommand) : bool :=
  match command with
  | Some RestoreBookmarks => true
  | _ => false
  end.

(** The [Sync] interface.  [deferred] is a reference to the [$q] deferred
    created by [queueSync]; the deferred objects themselves live in the
    engine state below, keyed by that reference. *)
Record Sync : Type := mkSync {
  uniqueId : option string;
  type : SyncType;
  command : option MessageCommand;
  deferred : nat
}.

(** [SyncProcessBookmarksData] *)
Record SyncProcessBookmarksData : Type := mkData {
  encryptedBookmarks : string
}.

(** What a provider's [processSync] is fulfilled with.  [updateRemote] is
    [None] when the provider leaves it [undefined]. *)
Record SyncProcessResult : Type := mkResult {
  data : SyncProcessBookmarksData;
  updateRemote : option bool
}.

(** [provider.constructor], which [processSyncQueue] switches on. *)
Inductive ProviderClass : Type :=
| BookmarkSyncProviderService
| OtherProviderClass (tag : nat).

Record SyncProvider : Type := mkProvider {
  constructor : ProviderClass;
  instance : nat
}.

Definition is_BookmarkSyncProviderService (p : SyncProvider) : bool :=
  match constructor p with
  | BookmarkSyncProviderService => true
  | OtherProviderClass _ => false
  end.

(** *** The persistent store *)

Inductive StoreKey : Type := LastUpdated | Password | SyncEnabled | SyncVersion.

Inductive StoreValue : Type :=
| VBool (b : bool)
| VString (s : string).

Record Store : Type := mkStore {
  lastUpdated : option StoreValue;
  password : option StoreValue;
  syncEnabled : option StoreValue;
  syncVersion : option StoreValue
}.

Definition Store_get (k : StoreKey) (st : Store) : option StoreValue :=
  match k with
  | LastUpdated => lastUpdated st
  | Password => password st
  | SyncEnabled => syncEnabled st
  | SyncVersion => syncVersion st
  end.

Definition Store_put (k : StoreKey) (v : option StoreValue) (st : Store) : Store :=
  match k with
  | LastUpdated => mkStore v (password st) (syncEnabled st) (syncVersion st)
  | Password => mkStore (lastUpdated st) v (syncEnabled st) (syncVersion st)
  | SyncEnabled => mkStore (lastUpdated st) (password st) v (syncVersion st)
  | SyncVersion => mkStore (lastUpdated st) (password st) (syncEnabled st) v
  end.

(** JavaScript truthiness of a value read from the store: [undefined],
    [false] and the empty string are falsy. *)
Definition truthy (v : option StoreValue) : bool :=
  match v with
  | Some (VBool b) => b
  | Some (VString s) => negb (String.eqb s "")
  | None => false
  end.

(** *** Deferreds *)

(** A [$q] deferred settles once; later [resolve] and [reject] calls on
    it are ignored. *)
Inductive Settlement : Type :=
| Pending
| Resolved
| RejectedWith (err : Error).

Definition settle (d : nat) (x : Settlement) (ds : gmap nat Settlement)
  : gmap nat Settlement :=
  match ds !! d with
  | Some Pending => <[d := x]> ds
  | _ => ds
  end.

(** *** Engine state *)

Record Engine : Type := mkEngine {
  store : Store;
  syncQueue : list Sync;
  currentSync : option Sync;
  deferreds : gmap nat Settlement;
  nextDeferred : nat
}.

Definition with_store (st : Store) (s : Engine) : Engine :=
  mkEngine st (syncQueue s) (currentSync s) (deferreds s) (nextDeferred s).
Definition with_syncQueue (q : list Sync) (s : Engine) : Engine :=
  mkEngine (store s) q (currentSync s) (deferreds s) (nextDeferred s).
Definition with_currentSync (c : option Sync) (s : Engine) : Engine :=
  mkEngine (store s) (syncQueue s) c (deferreds s) (nextDeferred s).
Definition with_deferreds (ds : gmap nat Settlement) (s : Engine) : Engine :=
  mkEngine (store s) (syncQueue s) (currentSync s) ds (nextDeferred s).

(** [storeSvc.get(SyncEnabled)] read as a condition. *)
Definition enabled (s : Engine) : bool := truthy (Store_get SyncEnabled (store s)).

(** *** Calls on collaborators *)

Inductive Event : Type :=
| StoreSet (k : StoreKey) (v : StoreValue)
| StoreRemove (k : StoreKey)
| AutomaticUpdatesStart
| AutomaticUpdatesStop
| InterfaceRefresh (syncEnabled : option StoreValue) (syncType : option SyncType)
| RefreshLocalSyncData
| ProviderEnable (p : SyncProvider)
| ProviderDisable (p : SyncProvider)
| ProviderProcessSync (p : SyncProvider) (sync : Sync)
| ProviderHandleUpdateRemoteFailed (p : SyncProvider) (err : Error)
    (lastResult : option SyncProcessBookmarksData) (sync : option Sync)
| UpdateBookmarks (encryptedBookmarks : string)
| ExceptionHandler (err : Error)
| DeferredResolve (d : nat)
| DeferredReject (d : nat) (err : Error).

(** ** Promises *)

Inductive Settled (A : Type) : Type :=
| Fulfilled (a : A)
| Rejected (err : Error).
Arguments Fulfilled {A} a.
Arguments Rejected {A} err.

Record Run (A : Type) : Type := mkRun {
  outcome : Settled A;
  after : Engine;
  emitted : list Event
}.
Arguments mkRun {A} outcome after emitted.

Definition Promise (A : Type) : Type := Engine -> Run A.

Definition resolve {A} (a : A) : Promise A :=
  fun s => mkRun (Fulfilled a) s [].

Definition throw {A} (err : Error) : Promise A :=
  fun s => mkRun (Rejected err) s [].

Definition then_ {A B} (p : Promise A) (k : A -> Promise B) : Promise B :=
  fun s =>
    match p s with
    | mkRun (Fulfilled a) s1 calls1 =>
        match k a s1 with
        | mkRun result s2 calls2 => mkRun result s2 (calls1 ++ calls2)
        end
    | mkRun (Rejected err) s1 calls1 => mkRun (Rejected err) s1 calls1
    end.

Definition catch_ {A} (p : Promise A) (h : Error -> Promise A) : Promise A :=
  fun s =>
    match p s with
    | mkRun (Fulfilled a) s1 calls1 => mkRun (Fulfilled a) s1 calls1
    | mkRun (Rejected err) s1 calls1 =>
        match h err s1 with
        | mkRun result s2 calls2 => mkRun result s2 (calls1 ++ calls2)
        end
    end.

(** [p.finally(f)]: [f] runs on either outcome; the outcome of [p] is
    kept unless [f] itself is rejected. *)
Definition finally_ {A} (p : Promise A) (f : Promise unit) : Promise A :=
  fun s =>
    match p s with
    | mkRun result s1 calls1 =>
        match f s1 with
        | mkRun (Fulfilled _) s2 calls2 => mkRun result s2 (calls1 ++ calls2)
        | mkRun (Rejected err) s2 calls2 => mkRun (Rejected err) s2 (calls1 ++ calls2)
        end
    end.

Declare Scope promise_scope.
Delimit Scope promise_scope with promise.
Notation "'let*' x ':=' p 'in' k" := (then_ p (fun x => k))
  (at level 10, x name, p at level 100, k at level 200) : promise_scope.
Notation "p ';;' k" := (then_ p (fun _ => k))
  (at level 100, k at level 200, right associativity) : promise_scope.
Local Open Scope promise_scope.

(** [$q.all(promises)]: every operation in the array has already been
    started, so all of them take effect; the result is the list of values,
    or the first rejection. *)
Fixpoint q_all {A} (ps : list (Promise A)) : Promise (list A) :=
  match ps with
  | [] => resolve []
  | p :: ps' =>
      fun s =>
        match p s with
        | mkRun first s1 calls1 =>
            match q_all ps' s1 with
            | mkRun others s2 calls2 =>
                mkRun (match first, others with
                       | Fulfilled a, Fulfilled l => Fulfilled (a :: l)
                       | Rejected err, _ => Rejected err
                       | Fulfilled _, Rejected err => Rejected err
                       end)
                      s2 (calls1 ++ calls2)
            end
        end
  end.

(** State access that involves no collaborator. *)
Definition get {A} (f : Engine -> A) : Promise A :=
  fun s => mkRun (Fulfilled (f s)) s [].

Definition modify (f : Engine -> Engine) : Promise unit :=
  fun s => mkRun (Fulfilled tt) (f s) [].

Definition call (ev : Event) : Promise unit :=
  fun s => mkRun (Fulfilled tt) s [ev].

(** [$q.defer()]: a new, pending deferred. *)
Definition q_defer : Promise nat :=
  fun s =>
    let d := nextDeferred s in
    mkRun (Fulfilled d)
          (mkEngine (store s) (syncQueue s) (currentSync s)
                    (<[d := Pending]> (deferreds s)) (S d))
          [].

(** Modelled from the spec: [utilitySvc.promiseWhile] is defined in
    [utility.service.ts].  Step 2 of the drain in §4.1 of the spec is a
    loop that runs while the queue is non-empty; the source calls it with
    the condition [doActionUntil] that is fulfilled with [true] when the
    loop is over.  [promiseWhile] runs [action] until [condition] is
    fulfilled with [true].  The recursion is on [fuel], a bound on the
    number of rounds. *)
Fixpoint promiseWhile {A} (fuel : nat) (condition : A -> Promise bool)
    (action : A -> Promise A) (data : A) : Promise A :=
  let* conditionIsTrue := condition data in
  if (conditionIsTrue : bool) then resolve data
  else
    match fuel with
    | O => resolve data
    | S fuel' =>
        let* data' := action data in
        promiseWhile fuel' condition action data'
    end.

(** The variables [processedBookmarksData] and [updateRemote] that the
    closures of [processSyncQueue] share. *)
Module Vars.
Record t : Type := mk {
  processedBookmarksData : option SyncProcessBookmarksData;
  updateRemote : bool
}.
End Vars.

(** ** The service *)

(** The fields of a [SyncEngineService] that describe its surroundings.

    [providers] is [this.providers], filled by the constructor.

    Modelled from the spec: the collaborators are injected services whose
    code is elsewhere.  §6 of the spec gives their contracts: store reads
    and writes, polling start and stop, the status refresh and a
    provider's [enable], [disable] and [handleUpdateRemoteFailed] are
    fulfilled; a provider's [processSync], the remote commit and the
    rebuild of the local mirror may be rejected.  What these three
    fallible calls settle with is left open: [provider_processSync],
    [apiSvc_updateBookmarks_response] (fulfilled with [lastUpdated]) and
    [platformSvc_refreshLocalSyncData_response].  [now] is
    [new Date().toISOString()], [getUniqueishId] is
    [utilitySvc.getUniqueishId()]. *)
Record SyncEngineService : Type := mkService {
  providers : list SyncProvider;
  provider_processSync : SyncProvider -> Sync -> Settled SyncProcessResult;
  apiSvc_updateBookmarks_response : string -> Settled string;
  platformSvc_refreshLocalSyncData_response : Settled unit;
  now : string;
  getUniqueishId : string
}.

(** The constructor registers one provider, the bookmark sync provider. *)
Definition BookmarkSyncProviderSvc : SyncProvider :=
  mkProvider BookmarkSyncProviderService 0.

Definition registered_providers : list SyncProvider := [BookmarkSyncProviderSvc].

Section Methods.

Variable this : SyncEngineService.

(** *** Collaborator calls *)

Definition storeSvc_get (k : StoreKey) : Promise (option StoreValue) :=
  get (fun s => Store_get k (store s)).

Definition storeSvc_set (k : StoreKey) (v : StoreValue) : Promise unit :=
  fun s => mkRun (Fulfilled tt) (with_store (Store_put k (Some v) (store s)) s)
                 [StoreSet k v].

Definition storeSvc_remove (k : StoreKey) : Promise unit :=
  fun s => mkRun (Fulfilled tt) (with_store (Store_put k None (store s)) s)
                 [StoreRemove k].

Definition platformSvc_automaticUpdates_Start : Promise unit :=
  call AutomaticUpdatesStart.

Definition platformSvc_automaticUpdates_Stop : Promise unit :=
  call AutomaticUpdatesStop.

Definition platformSvc_interface_Refresh
    (syncEnabled : option StoreValue) (syncType : option SyncType) : Promise unit :=
  call (InterfaceRefresh syncEnabled syncType).

Definition platformSvc_refreshLocalSyncData : Promise unit :=
  fun s => mkRun (platformSvc_refreshLocalSyncData_response this) s [RefreshLocalSyncData].

Definition apiSvc_updateBookmarks (encrypted : string) : Promise string :=
  fun s => mkRun (apiSvc_updateBookmarks_response this encrypted) s
                 [UpdateBookmarks encrypted].

Definition provider_enable (p : SyncProvider) : Promise unit :=
  call (ProviderEnable p).

Definition provider_disable (p : SyncProvider) : Promise unit :=
  call (ProviderDisable p).

Definition provider_processSync_call (p : SyncProvider) (sync : Sync)
  : Promise SyncProcessResult :=
  fun s => mkRun (provider_processSync this p sync) s [ProviderProcessSync p sync].

Definition provider_handleUpdateRemoteFailed (p : SyncProvider) (err : Error)
    (lastResult : option SyncProcessBookmarksData) (sync : option Sync)
  : Promise unit :=
  call (ProviderHandleUpdateRemoteFailed p err lastResult sync).

Definition exceptionHandler (err : Error) : Promise unit :=
  call (ExceptionHandler err).

(** [deferred.resolve()] and [deferred.reject(err)]. *)
Definition deferred_resolve (d : nat) : Promise unit :=
  fun s => mkRun (Fulfilled tt)
                 (with_deferreds (settle d Resolved (deferreds s)) s)
                 [DeferredResolve d].

Definition deferred_reject (d : nat) (err : Error) : Promise unit :=
  fun s => mkRun (Fulfilled tt)
                 (with_deferreds (settle d (RejectedWith err) (deferreds s)) s)
                 [DeferredReject d err].

(** *** checkIfDisableSyncOnError, checkIfRefreshSyncedDataOnError *)

Definition checkIfDisableSyncOnError (err : Error) : bool :=
  match err with
  | Exception SyncRemovedException _
  | Exception MissingClientDataException _
  | Exception NoDataFoundException _
  | Exception TooManyRequestsException _ => true
  | _ => false
  end.

Definition checkIfRefreshSyncedDataOnError (err : Error) : bool :=
  match err with
  | Exception BookmarkMappingNotFoundException _
  | Exception ContainerChangedException _
  | Exception DataOutOfSyncException _
  | Exception FailedCreateNativeBookmarksException _
  | Exception FailedGetNativeBookmarksException _
  | Exception FailedRemoveNativeBookmarksException _
  | Exception NativeBookmarkNotFoundException _
  | Exception BookmarkNotFoundException _ => true
  | _ => false
  end.

(** *** setIsSyncing *)

Definition setIsSyncing (syncType : option SyncType) : Promise unit :=
  match syncType with
  | Some t => platformSvc_interface_Refresh None (Some t)
  | None =>
      let* syncEnabled := storeSvc_get SyncEnabled in
      platformSvc_interface_Refresh syncEnabled None
  end.

(** *** disableSync *)

(** In the last callback [this.setIsSyncing()] is started but not
    returned: the argument-less [interface_Refresh()] that follows it in
    the source is called first, the refresh that [setIsSyncing] makes
    after its store read comes after it. *)
Definition disableSync : Promise unit :=
  let* syncEnabled := storeSvc_get SyncEnabled in
  if negb (truthy syncEnabled) then resolve tt
  else
    q_all [ platformSvc_automaticUpdates_Stop;
            storeSvc_remove Password;
            storeSvc_remove SyncVersion;
            storeSvc_set SyncEnabled (VBool false) ];;
    q_all (map provider_disable (providers this));;
    modify (with_syncQueue []);;
    platformSvc_interface_Refresh None None;;
    setIsSyncing None.

(** *** enableSync *)

Definition enableSync : Promise unit :=
  q_all [ storeSvc_set SyncEnabled (VBool true);
          platformSvc_automaticUpdates_Start ];;
  q_all (map provider_enable (providers this));;
  resolve tt.

(** *** getCurrentSync, getSyncQueueLength *)

Definition getCurrentSync (s : Engine) : option Sync :=
  match syncQueue s with
  | [] => currentSync s
  | _ :: _ => last (syncQueue s)
  end.

Definition getSyncQueueLength (s : Engine) : nat := length (syncQueue s).

(** *** sync_handleCancel *)

Definition sync_handleCancel : Promise unit := disableSync.


(** *** handleFailedSync *)

(** The [$q] executor and the chain it starts give the value the returned
    promise is resolved with and the binding of the variable [err] when
    the chain ends; [finally] then rejects the failed sync's deferred with
    that binding.  In the offline branch the executor resolves with a new
    [SyncUncommittedException] and returns: [err] is not reassigned.
    Called without a failed sync, the executor throws on
    [failedSync.uniqueId] (or [failedSync.type]) right after the refresh. *)
Definition handleFailedSync (failedSync : option Sync) (err : Error) : Promise Error :=
  match failedSync with
  | None =>
      platformSvc_interface_Refresh None None;;
      throw (NativeError "TypeError")
  | Some failedSync =>
      let* settled :=
        platformSvc_interface_Refresh None None;;
        if instanceof_NetworkOfflineException err
           && negb (SyncType_eqb (type failedSync) Local)
        then resolve (Exception SyncUncommittedException (Some err), err)
        else
          let err :=
            if instanceof_Exception err then err
            else Exception SyncFailedException (Some err) in
          exceptionHandler err;;
          let* syncEnabled := storeSvc_get SyncEnabled in
          setIsSyncing None;;
          let* err :=
            if negb (truthy syncEnabled) then resolve err
            else if instanceof_NoDataFoundException err then
              resolve (Exception SyncRemovedException (Some err))
            else if negb (SyncType_eqb (type failedSync) Local) then
              modify (with_syncQueue []);;
              storeSvc_set LastUpdated (VString (now this));;
              if checkIfRefreshSyncedDataOnError err then
                modify (with_currentSync None);;
                catch_ (platformSvc_refreshLocalSyncData;; resolve err)
                       (fun refreshErr => resolve refreshErr)
              else resolve err
            else resolve err in
          (if checkIfDisableSyncOnError err then disableSync else resolve tt);;
          resolve (err, err) in
      deferred_reject (deferred failedSync) (snd settled);;
      resolve (fst settled)
  end.

(** *** processSyncQueue *)

(** [this.currentSync.x]: a [TypeError] when there is no current sync. *)
Definition this_currentSync : Promise Sync :=
  fun s =>
    match currentSync s with
    | Some sync => resolve sync s
    | None => throw (NativeError "TypeError") s
    end.

(** The [forEach] over the results: the data of a result whose provider
    is a [BookmarkSyncProviderService] is kept. *)
Definition extract_data (processSyncResults : list SyncProcessResult)
    (processedBookmarksData : option SyncProcessBookmarksData)
  : option SyncProcessBookmarksData :=
  fold_left
    (fun acc pr =>
       if is_BookmarkSyncProviderService (fst pr) then Some (data (snd pr)) else acc)
    (combine (providers this) processSyncResults) processedBookmarksData.

(** The [reduce] over the results. *)
Definition combine_results (processSyncResults : list SyncProcessResult) : bool :=
  fold_left
    (fun prev current =>
       match updateRemote current with
       | None => prev
       | Some b => prev && b
       end)
    processSyncResults true.

Definition doActionUntil (_ : Vars.t) : Promise bool :=
  get (fun s => Nat.eqb (length (syncQueue s)) 0).

Definition action (vars : Vars.t) : Promise Vars.t :=
  modify (fun s => with_currentSync (head (syncQueue s))
                     (with_syncQueue (tail (syncQueue s)) s));;
  let* sync := this_currentSync in
  setIsSyncing (Some (type sync));;
  let* processed :=
    let* sync := this_currentSync in
    if SyncType_eqb (type sync) Cancel then
      sync_handleCancel;;
      resolve (Vars.processedBookmarksData vars, false)
    else
      let* processSyncResults :=
        q_all (map (fun provider => provider_processSync_call provider sync)
                   (providers this)) in
      resolve (extract_data processSyncResults (Vars.processedBookmarksData vars),
               combine_results processSyncResults) in
  let syncChange := snd processed in
  let* syncEnabled := storeSvc_get SyncEnabled in
  let* sync := this_currentSync in
  (if negb (truthy syncEnabled)
      && negb (is_RestoreBookmarks (command sync))
      && negb (SyncType_eqb (type sync) Cancel)
   then enableSync else resolve tt);;
  let* sync := this_currentSync in
  deferred_resolve (deferred sync);;
  let updateRemote :=
    if negb syncChange then false
    else if negb (SyncType_eqb (type sync) Local) then true
    else Vars.updateRemote vars in
  setIsSyncing None;;
  resolve (Vars.mk (fst processed) updateRemote).

(** The [isBackgroundSync] argument only changes a log line.  The loop
    is given as many rounds as there are queued syncs when it starts:
    every round takes one sync off the queue and nothing in a round adds
    one (see [drain_rounds_suffice]). *)
Definition processSyncQueue : Promise unit :=
  fun s =>
    if bool_decide (is_Some (currentSync s)) || Nat.eqb (length (syncQueue s)) 0
    then resolve tt s
    else
      finally_
        (catch_
           (let* cachedSyncEnabled := storeSvc_get SyncEnabled in
            (if truthy cachedSyncEnabled then platformSvc_automaticUpdates_Stop
             else resolve tt);;
            let* vars :=
              (fun s' => promiseWhile (length (syncQueue s')) doActionUntil action
                           (Vars.mk None false) s') in
            if negb (Vars.updateRemote vars) then resolve tt
            else
              match Vars.processedBookmarksData vars with
              | None => throw (NativeError "TypeError")
              | Some processedBookmarksData =>
                  catch_
                    (let* response :=
                       apiSvc_updateBookmarks (encryptedBookmarks processedBookmarksData) in
                     storeSvc_set LastUpdated (VString response))
                    (fun err =>
                       let* sync := get currentSync in
                       q_all (map (fun provider =>
                                     provider_handleUpdateRemoteFailed provider err
                                       (if is_BookmarkSyncProviderService provider
                                        then Some processedBookmarksData else None)
                                       sync)
                                  (providers this));;
                       throw err)
              end)
           (fun err =>
              let* sync := get currentSync in
              let* innerErr := handleFailedSync sync err in
              throw innerErr))
        (modify (with_currentSync None);;
         let* cachedSyncEnabled := storeSvc_get SyncEnabled in
         if truthy cachedSyncEnabled then platformSvc_automaticUpdates_Start
         else resolve tt)
        s.

(** *** queueSync *)

(** The value is the state of the promise [queueSync] returns once the
    drain it scheduled with [$timeout] (when [runSync]) has settled:
    [$q.all] of the queued sync's own promise and the drain's.  The
    deferred is rejected, if at all, while the drain is still running, so
    its rejection comes first. *)
Definition queueSync (syncToQueue : option Sync) (runSync : bool) : Promise Settlement :=
  let* syncEnabled := storeSvc_get SyncEnabled in
  (if negb (truthy syncEnabled) then modify (with_syncQueue []) else resolve tt);;
  match syncToQueue with
  | None => resolve (RejectedWith (NativeError "TypeError"))
  | Some syncToQueue =>
      (if SyncType_eqb (type syncToQueue) Cancel then modify (with_syncQueue [])
       else resolve tt);;
      let* queuedSync := q_defer in
      let queued :=
        mkSync (match uniqueId syncToQueue with
                | Some u => if String.eqb u "" then Some (getUniqueishId this) else Some u
                | None => Some (getUniqueishId this)
                end)
               (type syncToQueue) (command syncToQueue) queuedSync in
      modify (fun s => with_syncQueue (syncQueue s ++ [queued]) s);;
      let* synced :=
        if runSync
        then (fun s => match processSyncQueue s with
                       | mkRun result s1 calls => mkRun (Fulfilled (Some result)) s1 calls
                       end)
        else resolve None in
      let* queuedState := get (fun s => deferreds s !! queuedSync) in
      resolve (match queuedState, synced with
               | Some (RejectedWith err), _ => RejectedWith err
               | _, Some (Rejected err) => RejectedWith err
               | Some Resolved, _ => Resolved
               | _, _ => Pending
               end)
  end.

End Methods.

Local Open Scope promise_scope.

(** ** What the lifecycle operations leave behind *)

(** The engine state [disableSync] leaves behind when sync was enabled. *)
Definition disabled_engine (s : Engine) : Engine :=
  mkEngine (mkStore (lastUpdated (store s)) None (Some (VBool false)) None)
           [] (currentSync s) (deferreds s) (nextDeferred s).

Definition disableSync_calls (this : SyncEngineService) : list Event :=
  [AutomaticUpdatesStop; StoreRemove Password; StoreRemove SyncVersion;
   StoreSet SyncEnabled (VBool false)]
  ++ map ProviderDisable (providers this)
  ++ [InterfaceRefresh None None; InterfaceRefresh (Some (VBool false)) None].

(** The engine state after [enableSync]. *)
Definition enabled_engine (s : Engine) : Engine :=
  with_store (Store_put SyncEnabled (Some (VBool true)) (store s)) s.

Definition enableSync_calls (this : SyncEngineService) : list Event :=
  [StoreSet SyncEnabled (VBool true); AutomaticUpdatesStart]
  ++ map ProviderEnable (providers this).

(** ** The aggregate in the words of the specification *)

(** The values of [updateRemote] that providers did supply, in order. *)
Definition supplied_values (processSyncResults : list SyncProcessResult) : list bool :=
  omap updateRemote processSyncResults.

(** Their logical AND; [true] when there is none. *)
Definition and_of_supplied (processSyncResults : list SyncProcessResult) : bool :=
  forallb (fun b => b) (supplied_values processSyncResults).

(** ** What the providers settle with *)

(** The settlement of [$q.all] over settled promises. *)
Fixpoint all_settled {A} (l : list (Settled A)) : Settled (list A) :=
  match l with
  | [] => Fulfilled []
  | first :: l' =>
      match first, all_settled l' with
      | Fulfilled a, Fulfilled l => Fulfilled (a :: l)
      | Rejected err, _ => Rejected err
      | Fulfilled _, Rejected err => Rejected err
      end
  end.

(** What [$q.all(this.providers.map(provider => provider.processSync(sync)))]
    settles with. *)
Definition processSync_all (this : SyncEngineService) (sync : Sync)
  : Settled (list SyncProcessResult) :=
  all_settled (map (fun provider => provider_processSync this provider sync)
                   (providers this)).

Definition processSync_calls (this : SyncEngineService) (sync : Sync) : list Event :=
  map (fun provider => ProviderProcessSync provider sync) (providers this).

(** ** Reading a drain *)

(** The [syncChange] a round of the drain loop ends with: [false] for a
    Cancel, the aggregate of the providers' results otherwise (a round in
    which a provider is rejected has none; it counts as [false]). *)
Definition syncChange (this : SyncEngineService) (sync : Sync) : bool :=
  if SyncType_eqb (type sync) Cancel then false
  else
    match processSync_all this sync with
    | Fulfilled processSyncResults => combine_results processSyncResults
    | Rejected _ => false
    end.

(** The syncs a drain takes off the queue [queue], in order, when it
    starts with the persisted flag [isEnabled]: the loop ends after a
    Cancel handled while sync is enabled (disabling empties the queue) and
    after a sync that a provider rejects; a sync that is processed leaves
    sync enabled unless its command is [RestoreBookmarks]. *)
Fixpoint processed (this : SyncEngineService) (isEnabled : bool) (queue : list Sync)
  : list Sync :=
  match queue with
  | [] => []
  | sync :: rest =>
      if SyncType_eqb (type sync) Cancel then
        if isEnabled then [sync] else sync :: processed this false rest
      else
        match processSync_all this sync with
        | Rejected _ => [sync]
        | Fulfilled _ =>
            sync :: processed this
                      (isEnabled || negb (is_RestoreBookmarks (command sync))) rest
        end
  end.

(** The remote commits among a list of calls. *)
Definition is_remote_commit (ev : Event) : bool :=
  match ev with
  | UpdateBookmarks _ => true
  | _ => false
  end.

Definition remote_commits (calls : list Event) : list Event :=
  List.filter is_remote_commit calls.

(** The sync types shown as being processed ([setIsSyncing(type)]). *)
Definition announced_type (ev : Event) : option SyncType :=
  match ev with
  | InterfaceRefresh _ (Some syncType) => Some syncType
  | _ => None
  end.

Definition announced (calls : list Event) : list SyncType :=
  omap announced_type calls.

(** A call that is neither a remote commit nor such an announcement. *)
Definition background (ev : Event) : Prop :=
  is_remote_commit ev = false /\ announced_type ev = None.

(** Every call a promise makes satisfies [P]. *)
Definition emits {A} (P : Event -> Prop) (p : Promise A) : Prop :=
  forall s, Forall P (emitted (p s)).

(** The update of the variable [updateRemote] at the end of a round. *)
Definition next_updateRemote (this : SyncEngineService) (updateRemote : bool)
    (sync : Sync) : bool :=
  if negb (syncChange this sync) then false
  else if negb (SyncType_eqb (type sync) Local) then true
  else updateRemote.


(** One of the registered providers is a [BookmarkSyncProviderService],
    as the constructor has it. *)
Definition has_bookmark_provider (this : SyncEngineService) : bool :=
  existsb is_BookmarkSyncProviderService (providers this).

(** ** Enqueuing *)

(** The queued form of a sync handed to [queueSync]. *)
Definition queued_sync (this : SyncEngineService) (syncToQueue : Sync) (d : nat) : Sync :=
  mkSync (match uniqueId syncToQueue with
          | Some u => if String.eqb u "" then Some (getUniqueishId this) else Some u
          | None => Some (getUniqueishId this)
          end)
         (type syncToQueue) (command syncToQueue) d.

(** The engine right after a Cancel has been queued from [s]. *)
Definition Cancel_queued (this : SyncEngineService) (cancel : Sync) (s : Engine) : Engine :=
  mkEngine (store s) [queued_sync this cancel (nextDeferred s)] (currentSync s)
           (<[nextDeferred s := Pending]> (deferreds s)) (S (nextDeferred s)).

(** ** Sequences of calls on the engine *)

(** The operations the service exposes that touch the queue, the current
    sync or the persisted flag.  A sequence of calls is a sequence of
    calls made one after the other: each call is followed to its
    settlement before the next one is made.  [queueSync] schedules its
    drain with [$timeout]; a [QueueSync _ false] followed, after other
    calls, by a [ProcessSyncQueue] is a [queueSync] whose drain starts
    once those other calls have settled.  Calls made while a drain is
    under way are not described by such a sequence; they are followed
    step by step below ([Overlap]). *)
Inductive Call : Type :=
| QueueSync (syncToQueue : option Sync) (runSync : bool)
| ProcessSyncQueue
| DisableSync
| EnableSync.

(** The engine after one call has settled. *)
Definition perform (this : SyncEngineService) (s : Engine) (c : Call) : Engine :=
  match c with
  | QueueSync syncToQueue runSync => after (queueSync this syncToQueue runSync s)
  | ProcessSyncQueue => after (processSyncQueue this s)
  | DisableSync => after (disableSync this s)
  | EnableSync => after (enableSync this s)
  end.

(** ** Example engines *)

Definition example_data : SyncProcessBookmarksData := mkData "encrypted".

Definition example_service
    (process : SyncProvider -> Sync -> Settled SyncProcessResult)
    (commit : string -> Settled string) : SyncEngineService :=
  mkService registered_providers process commit (Fulfilled tt)
            "2020-01-01T00:00:00.000Z" "generated-id".

(** Every provider is fulfilled and asks for a remote update. *)
Definition process_update (_ : SyncProvider) (_ : Sync) : Settled SyncProcessResult :=
  Fulfilled (mkResult example_data (Some true)).

Definition commit_ok (_ : string) : Settled string :=
  Fulfilled "2020-01-01T00:00:01.000Z".

Definition store_enabled : Store := mkStore None None (Some (VBool true)) None.
Definition store_disabled : Store := mkStore None None (Some (VBool false)) None.

Definition idle_enabled : Engine := mkEngine store_enabled [] None ∅ 0.
Definition idle_disabled : Engine := mkEngine store_disabled [] None ∅ 0.

Definition offline : Error := Exception NetworkOfflineException None.
Definition no_data : Error := Exception NoDataFoundException None.

Definition process_offline (_ : SyncProvider) (_ : Sync) : Settled SyncProcessResult :=
  Rejected offline.

Definition commit_offline (_ : string) : Settled string := Rejected offline.

(** The remote commit finds no data on the service. *)
Definition commit_no_data (_ : string) : Settled string := Rejected no_data.

Definition remote_sync : Sync := mkSync (Some "remote-change"%string) Remote None 0.
Definition local_sync : Sync := mkSync (Some "local-refresh"%string) Local None 1.
Definition cancel_sync : Sync := mkSync None Cancel None 2.

(** Sync enabled, [remote_sync] queued, its deferred pending. *)
Definition remote_queued : Engine :=
  mkEngine store_enabled [remote_sync] None {[ 0 := Pending ]} 1.

(** The same engine while [remote_sync] is being processed. *)
Definition remote_in_flight : Engine :=
  mkEngine store_enabled [] (Some remote_sync) {[ 0 := Pending ]} 1.

(** The same engine once the round of [remote_sync] is over: its
    deferred is resolved (l.319), and what follows the loop has still to
    be done. *)
Definition remote_committing : Engine :=
  mkEngine store_enabled [] (Some remote_sync) {[ 0 := Resolved ]} 1.

(** Sync enabled; a remote change and then a local refresh are queued. *)
Definition remote_then_local : Engine :=
  mkEngine store_enabled [remote_sync; local_sync] None
           (<[ 0 := Pending ]> {[ 1 := Pending ]}) 2.

(** Sync not yet enabled; a remote change is queued. *)
Definition first_sync_queued : Engine :=
  mkEngine store_disabled [remote_sync] None {[ 0 := Pending ]} 1.

(** ** Settling completion signals *)

(** The calls among [calls] that settle the deferred [d], in order. *)
Definition is_settlement (ev : Event) : bool :=
  match ev with
  | DeferredResolve _ | DeferredReject _ _ => true
  | _ => false
  end.

Definition settles (d : nat) (ev : Event) : bool :=
  match ev with
  | DeferredResolve d' | DeferredReject d' _ => Nat.eqb d d'
  | _ => false
  end.

Definition settlements (d : nat) (calls : list Event) : list Event :=
  List.filter (settles d) calls.

(** The condition of the offline branch of [handleFailedSync]. *)
Definition offline_branch (failedSync : Sync) (err : Error) : bool :=
  instanceof_NetworkOfflineException err
  && negb (SyncType_eqb (type failedSync) Local).

(** A promise that is always fulfilled, with a value that satisfies [Q],
    and that neither changes a deferred nor calls one. *)
Definition fulfilled_aside {A} (Q : A -> Prop) (p : Promise A) : Prop :=
  forall s,
    (exists a, outcome (p s) = Fulfilled a /\ Q a)
    /\ deferreds (after (p s)) = deferreds s
    /\ Forall (fun ev => is_settlement ev = false) (emitted (p s)).

(** ** Looking for remote updates *)

(** A JavaScript [Date] is its time value in milliseconds; an invalid
    date has the time value [NaN], here [None]. *)
Record Date : Type := mkDate {
  getTime : option Z
}.

(** [!date]: a [Date] is an object, and every object is truthy, an
    invalid date too. *)
Definition Date_not (d : Date) : bool := false.

(** [a.getTime() !== b.getTime()]: [NaN] is different from every number,
    itself included. *)
Definition getTime_differs (a b : Date) : bool :=
  match getTime a, getTime b with
  | Some x, Some y => negb (Z.eqb x y)
  | _, _ => true
  end.

(** [date.toISOString()] throws a [RangeError] on an invalid date.  The
    string it returns is only used in a log line. *)
Definition toISOString (d : Date) : Promise unit :=
  match getTime d with
  | Some _ => resolve tt
  | None => throw (NativeError "RangeError")
  end.

(** What [checkForUpdates] and [executeSync] need beyond the fields of
    [SyncEngineService].

    Modelled from the spec: [apiSvc.getBookmarksLastUpdated] is the
    [getLastUpdated() -> { lastUpdated }] of §6, a round trip that may be
    rejected; [apiSvc_getBookmarksLastUpdated_response] is what it settles
    with, the [lastUpdated] of the response when it is fulfilled.  It is a
    read, and like a store read it is not listed among the calls.
    [Date_parse] is the [Date.parse] of the JavaScript runtime: the time
    value of a date string, [None] when the string is not a date. *)
Record UpdateCheck : Type := mkUpdateCheck {
  apiSvc_getBookmarksLastUpdated_response : Settled string;
  Date_parse : string -> option Z
}.

Section Updates.

Variable this : SyncEngineService.
Variable remote : UpdateCheck.

(** [new Date(value)] for a value read from the store or from a
    response: a string is parsed, [undefined] gives an invalid date, a
    boolean is converted to the number 1 or 0. *)
Definition new_Date (value : option StoreValue) : Date :=
  match value with
  | Some (VString s) => mkDate (Date_parse remote s)
  | Some (VBool b) => mkDate (Some (if b then 1%Z else 0%Z))
  | None => mkDate None
  end.

Definition apiSvc_getBookmarksLastUpdated : Promise string :=
  fun s => mkRun (apiSvc_getBookmarksLastUpdated_response remote) s [].

(** *** checkForUpdates *)

(** The log line is written when updates are available; building its
    text calls [toISOString] on both dates, the stored one first. *)
Definition checkForUpdates : Promise bool :=
  let* storedLastUpdated := storeSvc_get LastUpdated in
  let storedLastUpdatedDate := new_Date storedLastUpdated in
  let* response := apiSvc_getBookmarksLastUpdated in
  let remoteLastUpdated := new_Date (Some (VString response)) in
  let updatesAvailable :=
    Date_not storedLastUpdatedDate
    || getTime_differs storedLastUpdatedDate remoteLastUpdated in
  (if updatesAvailable then
     (if Date_not storedLastUpdatedDate then resolve tt
      else toISOString storedLastUpdatedDate);;
     toISOString remoteLastUpdated
   else resolve tt);;
  resolve updatesAvailable.

(** *** executeSync *)

(** A promise chained on a promise that is in the state [state] once
    the continuations started so far have run: [next] runs when that
    promise is fulfilled, a rejection is passed on, and while it is
    pending the chain is pending too ([None]). *)
Definition chained {A} (state : Settlement) (next : Promise A) : Promise (option A) :=
  match state with
  | Resolved => let* a := next in resolve (Some a)
  | RejectedWith err => throw err
  | Pending => resolve None
  end.

(** The sync [{ type: SyncType.Local }] that [executeSync] queues; its
    [deferred] is assigned by [queueSync]. *)
Definition update_sync : Sync := mkSync None Local None 0.

(** The [isBackgroundSync] argument only changes a log line.  A false
    [updatesAvailable] is passed on as it is, so the drain follows at
    once; otherwise the drain follows the promise of [queueSync]. *)
Definition executeSync : Promise (option unit) :=
  let* syncEnabled := storeSvc_get SyncEnabled in
  if negb (truthy syncEnabled) then throw (Exception SyncDisabledException None)
  else
    let* updatesAvailable :=
      (fun s => if Nat.eqb (length (syncQueue s)) 0 then checkForUpdates s
                else resolve false s) in
    let* queued :=
      if (updatesAvailable : bool) then queueSync this (Some update_sync) true
      else resolve Resolved in
    chained queued (processSyncQueue this).

End Updates.

(** ** Reading the update check *)

(** The engine right after [executeSync] has queued its [Local] sync
    from [s]. *)
Definition update_queued (this : SyncEngineService) (s : Engine) : Engine :=
  mkEngine (store s) [queued_sync this update_sync (nextDeferred s)] (currentSync s)
           (<[nextDeferred s := Pending]> (deferreds s)) (S (nextDeferred s)).

(** Two date strings and their time values. *)
Definition example_parse (date : string) : option Z :=
  if String.eqb date "2020-01-01T00:00:00.000Z" then Some 1577836800000%Z
  else if String.eqb date "2020-01-01T00:00:01.000Z" then Some 1577836801000%Z
  else None.

(** The remote copy was last updated at [lastUpdated]. *)
Definition example_remote (lastUpdated : string) : UpdateCheck :=
  mkUpdateCheck (Fulfilled lastUpdated) example_parse.

(** Sync enabled, nothing queued, the last update seen is the one of
    midnight. *)
Definition synced_idle : Engine :=
  mkEngine (mkStore (Some (VString "2020-01-01T00:00:00.000Z")) None
                    (Some (VBool true)) None)
           [] None ∅ 0.

(** ** Reading the failure recovery *)

(** The error after the step of [handleFailedSync] that sets a default
    exception: an error that is no [Exceptions.Exception] is wrapped in a
    [SyncFailedException]. *)
Definition with_default_exception (err : Error) : Error :=
  if instanceof_Exception err then err else Exception SyncFailedException (Some err).

(** The calls that undo or report: status refreshes without a sync
    type, the exception handler, writes of [LastUpdated], the calls of
    [disableSync], the rebuild of the local data and the rejection of a
    deferred. *)
Definition recovery_call (ev : Event) : bool :=
  match ev with
  | InterfaceRefresh _ None
  | ExceptionHandler _
  | StoreSet LastUpdated _
  | StoreSet SyncEnabled (VBool false)
  | StoreRemove Password
  | StoreRemove SyncVersion
  | AutomaticUpdatesStop
  | ProviderDisable _
  | RefreshLocalSyncData
  | DeferredReject _ _ => true
  | _ => false
  end.

(** The errors reported to [$exceptionHandler] among a list of calls. *)
Definition reported_error (ev : Event) : option Error :=
  match ev with
  | ExceptionHandler err => Some err
  | _ => None
  end.

Definition reported (calls : list Event) : list Error :=
  omap reported_error calls.

(** A failing engine: the provider rejects every sync with [err], and
    the rebuild of the local data is rejected with [refreshErr]. *)
Definition failing_service (err refreshErr : Error) : SyncEngineService :=
  mkService registered_providers (fun _ _ => Rejected err) commit_ok
            (Rejected refreshErr) "2020-01-01T00:00:00.000Z" "generated-id".

(** Sync disabled while [remote_sync] is being processed. *)
Definition remote_in_flight_disabled : Engine :=
  mkEngine store_disabled [] (Some remote_sync) {[ 0 := Pending ]} 1.

(** Sync enabled, [local_sync] being processed, [remote_sync] waiting
    behind it. *)
Definition local_in_flight : Engine :=
  mkEngine store_enabled [remote_sync] (Some local_sync)
           (<[ 0 := Pending ]> {[ 1 := Pending ]}) 2.

(** Sync enabled, [remote_sync] being processed, [local_sync] waiting
    behind it. *)
Definition remote_in_flight_local_queued : Engine :=
  mkEngine store_enabled [local_sync] (Some remote_sync)
           (<[ 0 := Pending ]> {[ 1 := Pending ]}) 2.

(** ** The parts of a drain *)

(** A drain that starts is its loop, what follows the loop, and the
    [finally] block; [drain_run] shows that [processSyncQueue] is made of
    the parts below. *)

(** The loop of a drain started from [s]. *)
Definition drain_rounds (this : SyncEngineService) (s : Engine) : Run Vars.t :=
  promiseWhile (length (syncQueue s)) doActionUntil (action this) (Vars.mk None false) s.

(** What the [catch] at the end of a drain makes of the error [err]
    raised in the engine state [s]: the run of [handleFailedSync] on the
    current sync, rejected with the error it is resolved with. *)
Definition drain_caught (this : SyncEngineService) (err : Error) (s : Engine) : Run unit :=
  match handleFailedSync this (currentSync s) err s with
  | mkRun (Fulfilled innerErr) s1 calls => mkRun (Rejected innerErr) s1 calls
  | mkRun (Rejected e) s1 calls => mkRun (Rejected e) s1 calls
  end.

(** The calls by which every provider is told of a failed remote commit. *)
Definition handleUpdateRemoteFailed_calls (this : SyncEngineService) (err : Error)
    (processedBookmarksData : SyncProcessBookmarksData) (sync : option Sync)
  : list Event :=
  map (fun provider =>
         ProviderHandleUpdateRemoteFailed provider err
           (if is_BookmarkSyncProviderService provider
            then Some processedBookmarksData else None)
           sync)
      (providers this).

(** What follows the loop of a drain, up to the [finally]: nothing when
    [updateRemote] is false, the remote commit and the write of
    [LastUpdated] otherwise, and the failure handling when the loop or the
    commit is rejected. *)
Definition drain_commit (this : SyncEngineService) (loop : Run Vars.t) : Run unit :=
  match outcome loop with
  | Rejected err => drain_caught this err (after loop)
  | Fulfilled vars =>
      if negb (Vars.updateRemote vars) then mkRun (Fulfilled tt) (after loop) []
      else
        match Vars.processedBookmarksData vars with
        | None => drain_caught this (NativeError "TypeError") (after loop)
        | Some processedBookmarksData =>
            let encrypted := encryptedBookmarks processedBookmarksData in
            match apiSvc_updateBookmarks_response this encrypted with
            | Fulfilled response =>
                mkRun (Fulfilled tt)
                  (with_store
                     (Store_put LastUpdated (Some (VString response))
                        (store (after loop)))
                     (after loop))
                  [UpdateBookmarks encrypted; StoreSet LastUpdated (VString response)]
            | Rejected err =>
                let caught := drain_caught this err (after loop) in
                mkRun (outcome caught) (after caught)
                  ([UpdateBookmarks encrypted]
                   ++ handleUpdateRemoteFailed_calls this err processedBookmarksData
                        (currentSync (after loop))
                   ++ emitted caught)%list
            end
        end
  end.

(** The stop of the polling at the start of a drain and its restart at
    the end, both only while sync is enabled. *)
Definition polling_stopped (s : Engine) : list Event :=
  if enabled s then [AutomaticUpdatesStop] else [].

Definition polling_restarted (s : Engine) : list Event :=
  if enabled s then [AutomaticUpdatesStart] else [].

(** The rounds of the drain loop, one after the other: the loop is over
    when the queue is empty or a round is rejected. *)
Inductive rounds (this : SyncEngineService) : Vars.t -> Engine -> Run Vars.t -> Prop :=
| rounds_over (vars : Vars.t) (s : Engine) :
    syncQueue s = [] ->
    rounds this vars s (mkRun (Fulfilled vars) s [])
| rounds_rejected (vars : Vars.t) (s : Engine) (sync : Sync) (rest : list Sync)
    (err : Error) (s1 : Engine) (calls1 : list Event) :
    syncQueue s = sync :: rest ->
    action this vars s = mkRun (Rejected err) s1 calls1 ->
    rounds this vars s (mkRun (Rejected err) s1 calls1)
| rounds_next (vars : Vars.t) (s : Engine) (sync : Sync) (rest : list Sync)
    (vars1 : Vars.t) (s1 : Engine) (calls1 : list Event)
    (result : Settled Vars.t) (s2 : Engine) (calls2 : list Event) :
    syncQueue s = sync :: rest ->
    action this vars s = mkRun (Fulfilled vars1) s1 calls1 ->
    rounds this vars1 s1 (mkRun result s2 calls2) ->
    rounds this vars s (mkRun result s2 (calls1 ++ calls2)%list).

(** The [processSync] calls among a list of calls: which provider was
    handed which sync, in order. *)
Definition processSync_request (ev : Event) : option (SyncProvider * Sync) :=
  match ev with
  | ProviderProcessSync p sync => Some (p, sync)
  | _ => None
  end.

Definition processSync_requests (calls : list Event) : list (SyncProvider * Sync) :=
  omap processSync_request calls.

(** Every sync of [syncs] handed to every registered provider: sync by
    sync, and for each sync provider by provider. *)
Definition fan_out (this : SyncEngineService) (syncs : list Sync)
  : list (SyncProvider * Sync) :=
  flat_map (fun sync => map (fun provider => (provider, sync)) (providers this)) syncs.

Definition not_Cancel (sync : Sync) : bool := negb (SyncType_eqb (type sync) Cancel).

(** The syncs handed to [queueSync] one after the other, as they are
    queued when the first of them gets the deferred [d]. *)
Fixpoint queued_syncs (this : SyncEngineService) (d : nat) (syncs : list Sync)
  : list Sync :=
  match syncs with
  | [] => []
  | sync :: syncs' => queued_sync this sync d :: queued_syncs this (S d) syncs'
  end.

(** Sync enabled; a Cancel is queued, and behind it a remote change. *)
Definition cancel_then_remote : Engine :=
  mkEngine store_enabled [cancel_sync; remote_sync] None
           (<[ 2 := Pending ]> {[ 0 := Pending ]}) 3.

(** ** Drains that overlap *)

(** A call of [processSyncQueue] runs the guard (l.256-259) and starts
    the store read of l.335; everything else runs in the callbacks of the
    promises the drain waits for, and between two of its callbacks another
    call, or a callback of another drain, can run.  To follow drains that
    are under way at the same time, a drain is cut at the calls it waits
    for before it hands a sync to the providers, and at that hand-over
    itself.  From one of these points to the next the callbacks of the
    drain run one after the other, as they do in [processSyncQueue]. *)

(** Where a drain that was called stands.
    - [Reading]: the guard was passed, the store read of l.335 is pending.
    - [Stopping]: the callback of l.337-341 ran; [automaticUpdates_Stop],
      if it was called, is pending.
    - [Announcing vars]: the loop took a sync off the queue and made it
      the current sync (l.267); the refresh of [setIsSyncing(type)]
      (l.275) is pending.
    - [Processing vars sync]: [processSync(sync)] was called on every
      provider (l.283-284) and is pending.
    - [Finished result]: the promise of the call is settled.

    [vars] are the variables [processedBookmarksData] and [updateRemote]
    of this call, as they are when the round begins. *)
Inductive Drain : Type :=
| Reading
| Stopping
| Announcing (vars : Vars.t)
| Processing (vars : Vars.t) (sync : Sync)
| Finished (result : Settled unit).

Section Steps.

Variable this : SyncEngineService.

(** l.256-259: what a call of [processSyncQueue] does before it returns.
    The call changes nothing in the engine. *)
Definition invoke (s : Engine) : Drain :=
  if bool_decide (is_Some (currentSync s)) || Nat.eqb (length (syncQueue s)) 0
  then Finished (Fulfilled tt)
  else Reading.

(** l.303-331: the end of a round, from the round's [syncChange]. *)
Definition round_end (vars : Vars.t)
    (processedBookmarksData : option SyncProcessBookmarksData) (syncChange : bool)
  : Promise Vars.t :=
  let* syncEnabled := storeSvc_get SyncEnabled in
  let* sync := this_currentSync in
  (if negb (truthy syncEnabled)
      && negb (is_RestoreBookmarks (command sync))
      && negb (SyncType_eqb (type sync) Cancel)
   then enableSync this else resolve tt);;
  let* sync := this_currentSync in
  deferred_resolve (deferred sync);;
  let updateRemote :=
    if negb syncChange then false
    else if negb (SyncType_eqb (type sync) Local) then true
    else Vars.updateRemote vars in
  setIsSyncing None;;
  resolve (Vars.mk processedBookmarksData updateRemote).

(** l.346-378: what follows the loop. *)
Definition after_loop (vars : Vars.t) : Promise unit :=
  if negb (Vars.updateRemote vars) then resolve tt
  else
    match Vars.processedBookmarksData vars with
    | None => throw (NativeError "TypeError")
    | Some processedBookmarksData =>
        catch_
          (let* response :=
             apiSvc_updateBookmarks this (encryptedBookmarks processedBookmarksData) in
           storeSvc_set LastUpdated (VString response))
          (fun err =>
             let* sync := get currentSync in
             q_all (map (fun provider =>
                           provider_handleUpdateRemoteFailed provider err
                             (if is_BookmarkSyncProviderService provider
                              then Some processedBookmarksData else None)
                             sync)
                        (providers this));;
             throw err)
    end.

(** l.379-394: the [catch] and the [finally] at the end of the chain. *)
Definition settle_drain (chain : Promise unit) : Promise unit :=
  finally_
    (catch_ chain
       (fun err =>
          let* sync := get currentSync in
          let* innerErr := handleFailedSync this sync err in
          throw innerErr))
    (modify (with_currentSync None);;
     let* cachedSyncEnabled := storeSvc_get SyncEnabled in
     if truthy cachedSyncEnabled then platformSvc_automaticUpdates_Start
     else resolve tt).

(** A turn of the loop, up to the next point at which the drain waits:
    when the queue is empty the loop is over and what follows it runs
    ([None]: the chain is fulfilled); otherwise the next round begins
    (l.267-275). *)
Definition next_round (vars : Vars.t) : Promise (option Drain) :=
  let* conditionIsTrue := doActionUntil vars in
  if (conditionIsTrue : bool) then
    after_loop vars;;
    resolve None
  else
    modify (fun s => with_currentSync (head (syncQueue s))
                       (with_syncQueue (tail (syncQueue s)) s));;
    let* sync := this_currentSync in
    setIsSyncing (Some (type sync));;
    resolve (Some (Announcing vars)).

(** The callbacks that run when the call a drain waits for is answered,
    up to the next point at which it waits.  A store read returns what
    the store holds when the callback runs; the providers' answers are
    those for the sync that was handed to them. *)
Definition resume (d : Drain) : Promise (option Drain) :=
  match d with
  | Reading =>
      let* cachedSyncEnabled := storeSvc_get SyncEnabled in
      (if truthy cachedSyncEnabled then platformSvc_automaticUpdates_Stop
       else resolve tt);;
      resolve (Some Stopping)
  | Stopping => next_round (Vars.mk None false)
  | Announcing vars =>
      let* sync := this_currentSync in
      if SyncType_eqb (type sync) Cancel then
        sync_handleCancel this;;
        let* vars' := round_end vars (Vars.processedBookmarksData vars) false in
        next_round vars'
      else
        (fun s => mkRun (Fulfilled tt) s (processSync_calls this sync));;
        resolve (Some (Processing vars sync))
  | Processing vars sync =>
      match processSync_all this sync with
      | Rejected err => throw err
      | Fulfilled processSyncResults =>
          let* vars' :=
            round_end vars
              (extract_data this processSyncResults (Vars.processedBookmarksData vars))
              (combine_results processSyncResults) in
          next_round vars'
      end
  | Finished result => resolve (Some (Finished result))
  end.

(** Where the drain stands after these callbacks, the engine they leave
    and the calls they made.  When the chain has settled, the [catch] and
    the [finally] run and the drain is finished. *)
Definition ended (step : Run (option Drain)) : Drain * Engine * list Event :=
  match step with
  | mkRun (Fulfilled (Some d)) s calls => (d, s, calls)
  | mkRun (Fulfilled None) s calls =>
      match settle_drain (resolve tt) s with
      | mkRun result s' calls' => (Finished result, s', (calls ++ calls')%list)
      end
  | mkRun (Rejected err) s calls =>
      match settle_drain (throw err) s with
      | mkRun result s' calls' => (Finished result, s', (calls ++ calls')%list)
      end
  end.

Definition advance (d : Drain) (s : Engine) : Drain * Engine * list Event :=
  ended (resume d s).

End Steps.

(** The engine [shared] by the drains that are [running], in the order
    in which they were called, and the calls [made] so far. *)
Record Overlap : Type := mkOverlap {
  shared : Engine;
  running : list Drain;
  made : list Event
}.

(** What happens next: [processSyncQueue] is called once more, or the
    call that drain [i] waits for is answered. *)
Inductive Turn : Type :=
| Invoke
| Resume (i : nat).

Definition turn (this : SyncEngineService) (o : Overlap) (t : Turn) : Overlap :=
  match t with
  | Invoke => mkOverlap (shared o) (running o ++ [invoke (shared o)]) (made o)
  | Resume i =>
      match running o !! i with
      | None => o
      | Some d =>
          match advance this d (shared o) with
          | (d', s', calls) => mkOverlap s' (<[i := d']> (running o)) (made o ++ calls)
          end
      end
  end.

Definition turns (this : SyncEngineService) (o : Overlap) (ts : list Turn) : Overlap :=
  fold_left (turn this) ts o.

(** No drain is under way. *)
Definition idle (s : Engine) : Overlap := mkOverlap s [] [].

(** The syncs that are with the providers: handed over, not yet answered. *)
Definition processing_sync (d : Drain) : option Sync :=
  match d with
  | Processing _ sync => Some sync
  | _ => None
  end.

Definition processing (o : Overlap) : list Sync := omap processing_sync (running o).

(** A single drain under way: the calls [calls] were made before the step
    [step] of the drain. *)
Definition alone (this : SyncEngineService) (calls : list Event)
    (step : Run (option Drain)) : Overlap :=
  match ended this step with
  | (d, s, calls') => mkOverlap s [d] (calls ++ calls')
  end.

(** The run [r] with the calls [calls] made before it. *)
Definition preceded {A} (calls : list Event) (r : Run A) : Run A :=
  mkRun (outcome r) (after r) (calls ++ emitted r).

(** Sync enabled; two remote changes are queued. *)
Definition second_remote_sync : Sync :=
  mkSync (Some "second-remote-change"%string) Remote None 1.

Definition two_remote_queued : Engine :=
  mkEngine store_enabled [remote_sync; second_remote_sync] None
           (<[ 0 := Pending ]> {[ 1 := Pending ]}) 2.

(** * Properties *)

Unset Implicit Arguments.
Local Close Scope string_scope.

(** ** Running the lifecycle operations *)

Lemma q_all_calls {X : Type} (f : X -> Event) (xs : list X) (s : Engine) :
  q_all (map (fun x => call (f x)) xs) s
  = mkRun (Fulfilled (map (fun _ => tt) xs)) s (map f xs).
Proof.
  induction xs as [|x xs IH]; simpl; [reflexivity|].
  rewrite IH. reflexivity.
Qed.

Lemma disableSync_when_disabled (this : SyncEngineService) (s : Engine) :
  enabled s = false ->
  disableSync this s = mkRun (Fulfilled tt) s [].
Proof.
  intros H. unfold enabled in H. simpl in H.
  unfold disableSync, then_, storeSvc_get, get. simpl.
  rewrite H. reflexivity.
Qed.

Lemma disableSync_when_enabled (this : SyncEngineService) (s : Engine) :
  enabled s = true ->
  disableSync this s
  = mkRun (Fulfilled tt) (disabled_engine s) (disableSync_calls this).
Proof.
  intros H. unfold enabled in H. simpl in H.
  unfold disableSync, then_ at 1, storeSvc_get, get. simpl.
  rewrite H. simpl.
  unfold then_, provider_disable. simpl.
  rewrite q_all_calls. simpl.
  unfold disabled_engine, disableSync_calls. simpl.
  reflexivity.
Qed.

Lemma enabled_disabled_engine (s : Engine) : enabled (disabled_engine s) = false.
Proof. reflexivity. Qed.

Lemma enableSync_run (this : SyncEngineService) (s : Engine) :
  enableSync this s
  = mkRun (Fulfilled tt) (enabled_engine s) (enableSync_calls this).
Proof.
  unfold enableSync, then_, provider_enable. simpl.
  rewrite q_all_calls. simpl.
  rewrite app_nil_r. reflexivity.
Qed.

(** ** disableSync twice *)

(** C8.  [disableSync] does nothing when the persisted [SyncEnabled] flag
    is already false, it always leaves the flag false, and calling it
    twice in a row is the same run as calling it once: the same engine
    state (store, queue, current sync, deferreds) and the same calls, so
    no provider is disabled a second time. *)
Theorem disableSync_idempotent (this : SyncEngineService) (s : Engine) :
  (enabled s = false -> disableSync this s = mkRun (Fulfilled tt) s [])
  /\ enabled (after (disableSync this s)) = false
  /\ (disableSync this;; disableSync this) s = disableSync this s.
Proof.
  split; [apply disableSync_when_disabled|].
  destruct (enabled s) eqn:E.
  - rewrite (disableSync_when_enabled this s E). split; [reflexivity|].
    unfold then_. rewrite (disableSync_when_enabled this s E).
    cbn [outcome after emitted].
    rewrite (disableSync_when_disabled this (disabled_engine s)
               (enabled_disabled_engine s)).
    cbn [outcome after emitted]. rewrite app_nil_r. reflexivity.
  - rewrite (disableSync_when_disabled this s E). split; [exact E|].
    unfold then_. rewrite (disableSync_when_disabled this s E).
    cbn [outcome after emitted].
    rewrite (disableSync_when_disabled this s E). reflexivity.
Qed.

Lemma disableSync_idempotent_witness :
  disableSync (example_service process_update commit_ok) idle_disabled
  = mkRun (Fulfilled tt) idle_disabled [].
Proof.
  apply (proj1 (disableSync_idempotent
                  (example_service process_update commit_ok) idle_disabled)).
  reflexivity.
Defined.

(** ** enableSync twice *)

(** C9, as the code has it.  [enableSync] has no guard on the persisted
    flag: every call, also one made while [SyncEnabled] is true, writes
    [SyncEnabled := true], calls [automaticUpdates_Start] once and
    [enable()] once on every registered provider.  A second call changes
    nothing in the engine state, but it makes all those calls again. *)
Theorem enableSync_unguarded (this : SyncEngineService) (s : Engine) :
  enableSync this s = mkRun (Fulfilled tt) (enabled_engine s) (enableSync_calls this)
  /\ enabled (after (enableSync this s)) = true
  /\ after ((enableSync this;; enableSync this) s) = after (enableSync this s)
  /\ emitted ((enableSync this;; enableSync this) s)
     = enableSync_calls this ++ enableSync_calls this.
Proof.
  split; [apply enableSync_run|].
  unfold then_. rewrite !enableSync_run. cbn [outcome after emitted].
  rewrite ?enableSync_run. cbn [outcome after emitted]. repeat split.
Qed.

(** C9 fails as stated.  With the provider the constructor registers,
    [enableSync] called twice in a row: the second call is made while
    [SyncEnabled] is true, and it starts the periodic polling again and
    calls the provider's [enable()] again. *)
Lemma enableSync_repeats_calls_when_enabled :
  let this := example_service process_update commit_ok in
  let first := enableSync this idle_disabled in
  let second := enableSync this (after first) in
  enabled (after first) = true
  /\ emitted second
     = [StoreSet SyncEnabled (VBool true); AutomaticUpdatesStart;
        ProviderEnable BookmarkSyncProviderSvc]
  /\ count_occ (fun a b : bool => bool_dec a b)
       (map (fun ev => match ev with AutomaticUpdatesStart => true | _ => false end)
            (emitted first ++ emitted second)) true
     = 2
  /\ count_occ (fun a b : bool => bool_dec a b)
       (map (fun ev => match ev with ProviderEnable _ => true | _ => false end)
            (emitted first ++ emitted second)) true
     = 2.
Proof. repeat split. Qed.

(** ** The aggregated verdict of the providers *)

Lemma combine_results_from (processSyncResults : list SyncProcessResult) (prev : bool) :
  fold_left
    (fun prev current =>
       match updateRemote current with
       | None => prev
       | Some b => prev && b
       end)
    processSyncResults prev
  = prev && and_of_supplied processSyncResults.
Proof.
  revert prev. induction processSyncResults as [|r rs IH]; intros prev.
  - simpl. rewrite andb_true_r. reflexivity.
  - simpl. rewrite IH. unfold and_of_supplied, supplied_values. simpl.
    destruct (updateRemote r) as [b|]; simpl.
    + rewrite andb_assoc. reflexivity.
    + reflexivity.
Qed.

(** C4.  The verdict [processSyncQueue] computes from the providers'
    results is the logical AND of the [updateRemote] values that were
    supplied: a result without a value does not change it, and with no
    supplied value at all it is [true]. *)
Theorem combine_results_and_of_supplied (processSyncResults : list SyncProcessResult) :
  combine_results processSyncResults = and_of_supplied processSyncResults
  /\ (combine_results processSyncResults = true
      <-> forall r, In r processSyncResults -> updateRemote r <> Some false)
  /\ (forall before r rest,
        processSyncResults = before ++ r :: rest ->
        updateRemote r = None ->
        combine_results processSyncResults = combine_results (before ++ rest))
  /\ (Forall (fun r => updateRemote r = None) processSyncResults ->
      combine_results processSyncResults = true).
Proof.
  assert (Heq : forall rs, combine_results rs = and_of_supplied rs).
  { intros rs. unfold combine_results. rewrite combine_results_from. reflexivity. }
  split; [apply Heq|]. split; [|split].
  - rewrite Heq. unfold and_of_supplied, supplied_values.
    induction processSyncResults as [|r rs IH]; simpl.
    + split; [intros _ r []|reflexivity].
    + destruct (updateRemote r) as [[|]|] eqn:E; simpl.
      * rewrite IH. split.
        -- intros H r' [<-|Hin]; [congruence|auto].
        -- intros H r' Hin. apply H. right. exact Hin.
      * split; [discriminate|]. intros H. exfalso. apply (H r); [left; reflexivity|exact E].
      * rewrite IH. split.
        -- intros H r' [<-|Hin]; [congruence|auto].
        -- intros H r' Hin. apply H. right. exact Hin.
  - intros before r rest -> Hr. rewrite !Heq.
    unfold and_of_supplied, supplied_values.
    induction before as [|x xs IH]; simpl.
    + rewrite Hr. reflexivity.
    + destruct (updateRemote x); simpl; [f_equal|]; exact IH.
  - intros Hall. rewrite Heq. unfold and_of_supplied, supplied_values.
    induction Hall as [|r rs Hr _ IH]; simpl; [reflexivity|].
    rewrite Hr. exact IH.
Qed.

Lemma combine_results_and_of_supplied_witness :
  combine_results [mkResult example_data None; mkResult example_data (Some true)]
  = combine_results ([] ++ [mkResult example_data (Some true)]).
Proof.
  apply (proj1 (proj2 (proj2 (combine_results_and_of_supplied
                  [mkResult example_data None; mkResult example_data (Some true)])))
         [] (mkResult example_data None) [mkResult example_data (Some true)]);
    reflexivity.
Defined.

Lemma q_all_processSync (this : SyncEngineService) (sync : Sync)
    (ps : list SyncProvider) (s : Engine) :
  q_all (map (fun provider => provider_processSync_call this provider sync) ps) s
  = mkRun (all_settled (map (fun provider => provider_processSync this provider sync) ps))
          s (map (fun provider => ProviderProcessSync provider sync) ps).
Proof.
  induction ps as [|p ps IH]; simpl; [reflexivity|].
  rewrite IH. reflexivity.
Qed.

(** ** Comparing sync types *)

Lemma SyncType_eqb_eq (a b : SyncType) : SyncType_eqb a b = true <-> a = b.
Proof.
  destruct a, b; simpl; try (split; [discriminate|congruence]);
    try (split; reflexivity).
  rewrite Nat.eqb_eq. split; congruence.
Qed.

Lemma SyncType_eqb_neq (a b : SyncType) : SyncType_eqb a b = false <-> a <> b.
Proof.
  rewrite <- SyncType_eqb_eq. destruct (SyncType_eqb a b); split; congruence.
Qed.

(** ** Running handleFailedSync *)

#[local] Arguments disableSync : simpl never.
#[local] Arguments enableSync : simpl never.
#[local] Arguments settle : simpl never.
#[local] Arguments q_all : simpl never.

Ltac same_run :=
  repeat rewrite <- app_assoc; repeat rewrite app_nil_r; simpl; reflexivity.

Lemma settle_pending (d : nat) (x : Settlement) (ds : gmap nat Settlement) :
  ds !! d = Some Pending -> settle d x ds !! d = Some x.
Proof. intros H. unfold settle. rewrite H. apply lookup_insert_eq. Qed.

Lemma settle_settled (d : nat) (x : Settlement) (ds : gmap nat Settlement) :
  ds !! d <> Some Pending -> settle d x ds = ds.
Proof.
  intros H. unfold settle. destruct (ds !! d) as [[| |]|]; congruence.
Qed.

(** C2, as the code has it.  When the error is a [NetworkOfflineException]
    and the failed sync is not of type [Local], the promise that
    [handleFailedSync] returns is resolved with a
    [SyncUncommittedException] that wraps the error, and the sync queue
    and the store (so the [SyncEnabled] flag) are left as they were.  The
    failed sync's own deferred, however, is rejected with the error as it
    was raised, not with the [SyncUncommittedException]: if it was still
    pending it is now rejected with the transport error, and otherwise it
    keeps its earlier settlement. *)
Theorem handleFailedSync_offline (this : SyncEngineService) (failedSync : Sync)
    (inner : option Error) (s : Engine) :
  type failedSync <> Local ->
  let raw := Exception NetworkOfflineException inner in
  let r := handleFailedSync this (Some failedSync) raw s in
  outcome r = Fulfilled (Exception SyncUncommittedException (Some raw))
  /\ emitted r = [InterfaceRefresh None None; DeferredReject (deferred failedSync) raw]
  /\ syncQueue (after r) = syncQueue s
  /\ store (after r) = store s
  /\ currentSync (after r) = currentSync s
  /\ deferreds (after r) = settle (deferred failedSync) (RejectedWith raw) (deferreds s)
  /\ (deferreds s !! deferred failedSync = Some Pending ->
      deferreds (after r) !! deferred failedSync = Some (RejectedWith raw)).
Proof.
  intros Ht raw. apply SyncType_eqb_neq in Ht.
  unfold handleFailedSync, then_. simpl. rewrite Ht. simpl.
  repeat split. apply settle_pending.
Qed.

Lemma handleFailedSync_offline_witness :
  let r := handleFailedSync (example_service process_offline commit_ok)
             (Some remote_sync) offline remote_in_flight in
  outcome r = Fulfilled (Exception SyncUncommittedException (Some offline))
  /\ deferreds (after r) !! 0 = Some (RejectedWith offline).
Proof.
  pose proof (handleFailedSync_offline
                (example_service process_offline commit_ok) remote_sync None
                remote_in_flight) as H.
  simpl in H. destruct H as (Ho & _ & _ & _ & _ & _ & Hd); [discriminate|].
  split; [exact Ho|]. apply Hd. reflexivity.
Defined.

(** C7, as the code has it.  When sync is enabled and the error is a
    [NoDataFoundException], [handleFailedSync] wraps it in a
    [SyncRemovedException], runs [disableSync] (which, sync being enabled,
    disables it), and calls [reject] on the failed sync's deferred with the
    [SyncRemovedException], which is also what the returned promise is
    resolved with; the raw error is passed to no deferred.  What the
    completion signal of the sync receives depends on the state the
    deferred is in when [handleFailedSync] is called.  A deferred that is
    still pending, as it is when a provider raised the error, ends
    rejected with the [SyncRemovedException].  A deferred that its round
    has already resolved (l.319), as it is when the remote commit raised
    the error, stays resolved: the [reject] is ignored and the signal
    never receives the [SyncRemovedException]. *)
Theorem handleFailedSync_NoDataFound (this : SyncEngineService) (failedSync : Sync)
    (inner : option Error) (s : Engine) :
  type failedSync <> Local ->
  enabled s = true ->
  let raw := Exception NoDataFoundException inner in
  let removed := Exception SyncRemovedException (Some raw) in
  let r := handleFailedSync this (Some failedSync) raw s in
  outcome r = Fulfilled removed
  /\ emitted r
     = [InterfaceRefresh None None; ExceptionHandler raw;
        InterfaceRefresh (Store_get SyncEnabled (store s)) None]
       ++ emitted (disableSync this s)
       ++ [DeferredReject (deferred failedSync) removed]
  /\ after r
     = with_deferreds
         (settle (deferred failedSync) (RejectedWith removed) (deferreds s))
         (after (disableSync this s))
  /\ enabled (after r) = false
  /\ (deferreds s !! deferred failedSync = Some Pending ->
      deferreds (after r) !! deferred failedSync = Some (RejectedWith removed))
  /\ (deferreds s !! deferred failedSync = Some Resolved ->
      deferreds (after r) !! deferred failedSync = Some Resolved).
Proof.
  intros _ He raw removed.
  rewrite (disableSync_when_enabled this s He). cbn [after emitted].
  unfold enabled in He. simpl in He.
  unfold handleFailedSync, then_. simpl. rewrite He. simpl.
  rewrite disableSync_when_enabled by exact He. simpl.
  split; [reflexivity|]. split; [same_run|]. split; [reflexivity|].
  split; [reflexivity|]. split; [apply settle_pending|].
  intros Hr. rewrite settle_settled; [exact Hr|]. rewrite Hr. discriminate.
Qed.

Lemma handleFailedSync_NoDataFound_witness :
  let removed := Exception SyncRemovedException (Some no_data) in
  let raised_by_provider :=
    handleFailedSync (example_service process_update commit_ok)
      (Some remote_sync) no_data remote_in_flight in
  let raised_by_commit :=
    handleFailedSync (example_service process_update commit_no_data)
      (Some remote_sync) no_data remote_committing in
  (outcome raised_by_provider = Fulfilled removed
   /\ enabled (after raised_by_provider) = false
   /\ deferreds (after raised_by_provider) !! 0 = Some (RejectedWith removed))
  /\ (outcome raised_by_commit = Fulfilled removed
      /\ enabled (after raised_by_commit) = false
      /\ deferreds (after raised_by_commit) !! 0 = Some Resolved).
Proof.
  pose proof (handleFailedSync_NoDataFound
                (example_service process_update commit_ok) remote_sync None
                remote_in_flight) as H.
  pose proof (handleFailedSync_NoDataFound
                (example_service process_update commit_no_data) remote_sync None
                remote_committing) as G.
  simpl in H, G.
  destruct H as (Ho & _ & _ & He & Hd & _); [discriminate|reflexivity|].
  destruct G as (Go & _ & _ & Ge & _ & Gd); [discriminate|reflexivity|].
  split.
  - split; [exact Ho|]. split; [exact He|]. apply Hd. reflexivity.
  - split; [exact Go|]. split; [exact Ge|]. apply Gd. reflexivity.
Defined.

(** ** One round of the drain loop *)

(** One round on a Cancel *)
Lemma action_Cancel (this : SyncEngineService) (vars : Vars.t) (s : Engine)
    (sync : Sync) (rest : list Sync) :
  syncQueue s = sync :: rest ->
  type sync = Cancel ->
  let s1 := with_currentSync (Some sync) (with_syncQueue rest s) in
  let s2 := after (disableSync this s1) in
  action this vars s
  = mkRun (Fulfilled (Vars.mk (Vars.processedBookmarksData vars) false))
      (with_deferreds (settle (deferred sync) Resolved (deferreds s)) s2)
      ([InterfaceRefresh None (Some Cancel)] ++ emitted (disableSync this s1)
       ++ [DeferredResolve (deferred sync);
           InterfaceRefresh (Store_get SyncEnabled (store s2)) None]).
Proof.
  intros Hq Ht s1 s2. destruct s as [st q c ds nd]. simpl in Hq. subst q.
  subst s2.
  unfold action, then_, sync_handleCancel. simpl. rewrite Ht. simpl.
  fold s1.
  destruct (enabled s1) eqn:He.
  - rewrite (disableSync_when_enabled this s1 He). simpl.
    rewrite Ht. simpl. rewrite andb_false_r. simpl. same_run.
  - rewrite (disableSync_when_disabled this s1 He). simpl.
    rewrite Ht. simpl. rewrite andb_false_r. simpl. same_run.
Qed.

Lemma action_rejected (this : SyncEngineService) (vars : Vars.t) (s : Engine)
    (sync : Sync) (rest : list Sync) (err : Error) :
  syncQueue s = sync :: rest ->
  type sync <> Cancel ->
  processSync_all this sync = Rejected err ->
  action this vars s
  = mkRun (Rejected err) (with_currentSync (Some sync) (with_syncQueue rest s))
      ([InterfaceRefresh None (Some (type sync))] ++ processSync_calls this sync).
Proof.
  intros Hq Ht Hr. destruct s as [st q c ds nd]. simpl in Hq. subst q.
  apply SyncType_eqb_neq in Ht.
  unfold action, then_. simpl. rewrite Ht. simpl.
  rewrite q_all_processSync. fold (processSync_all this sync). rewrite Hr. simpl.
  reflexivity.
Qed.

Lemma action_fulfilled (this : SyncEngineService) (vars : Vars.t) (s : Engine)
    (sync : Sync) (rest : list Sync) (results : list SyncProcessResult) :
  syncQueue s = sync :: rest ->
  type sync <> Cancel ->
  processSync_all this sync = Fulfilled results ->
  let s1 := with_currentSync (Some sync) (with_syncQueue rest s) in
  let enable := negb (enabled s) && negb (is_RestoreBookmarks (command sync)) in
  let s2 := if enable then after (enableSync this s1) else s1 in
  action this vars s
  = mkRun (Fulfilled
             (Vars.mk (extract_data this results (Vars.processedBookmarksData vars))
                (if negb (combine_results results) then false
                 else if negb (SyncType_eqb (type sync) Local) then true
                 else Vars.updateRemote vars)))
      (with_deferreds (settle (deferred sync) Resolved (deferreds s)) s2)
      ([InterfaceRefresh None (Some (type sync))]
       ++ processSync_calls this sync
       ++ (if enable then emitted (enableSync this s1) else [])
       ++ [DeferredResolve (deferred sync);
           InterfaceRefresh (Store_get SyncEnabled (store s2)) None]).
Proof.
  intros Hq Ht Hr s1 enable s2. destruct s as [st q c ds nd]. simpl in Hq. subst q.
  apply SyncType_eqb_neq in Ht.
  unfold action, then_. simpl. rewrite Ht. simpl.
  rewrite q_all_processSync. fold (processSync_all this sync). rewrite Hr. simpl.
  rewrite Ht. cbn [negb]. rewrite andb_true_r.
  subst s2. unfold enable, enabled. simpl.
  destruct (negb (truthy (syncEnabled st)) && negb (is_RestoreBookmarks (command sync))) eqn:E.
  - rewrite !enableSync_run. simpl. unfold processSync_calls. same_run.
  - simpl. unfold processSync_calls. same_run.
Qed.

(** ** Calls that are neither commits nor announcements *)

Section Emits.
Variable P : Event -> Prop.

Lemma emits_resolve {A} (a : A) : emits P (resolve a).
Proof. intros s. constructor. Qed.

Lemma emits_throw {A} (err : Error) : emits P (@throw A err).
Proof. intros s. constructor. Qed.

Lemma emits_get {A} (f : Engine -> A) : emits P (get f).
Proof. intros s. constructor. Qed.

Lemma emits_modify (f : Engine -> Engine) : emits P (modify f).
Proof. intros s. constructor. Qed.

Lemma emits_call (ev : Event) : P ev -> emits P (call ev).
Proof. intros H s. simpl. constructor; [exact H|constructor]. Qed.

Lemma emits_then {A B} (p : Promise A) (k : A -> Promise B) :
  emits P p -> (forall a, emits P (k a)) -> emits P (then_ p k).
Proof.
  intros Hp Hk s. unfold then_. specialize (Hp s).
  destruct (p s) as [[a|err] s1 calls1]; simpl in *; [|exact Hp].
  specialize (Hk a s1). destruct (k a s1) as [result s2 calls2]; simpl in *.
  apply Forall_app. split; assumption.
Qed.

Lemma emits_catch {A} (p : Promise A) (h : Error -> Promise A) :
  emits P p -> (forall err, emits P (h err)) -> emits P (catch_ p h).
Proof.
  intros Hp Hh s. unfold catch_. specialize (Hp s).
  destruct (p s) as [[a|err] s1 calls1]; simpl in *; [exact Hp|].
  specialize (Hh err s1). destruct (h err s1) as [result s2 calls2]; simpl in *.
  apply Forall_app. split; assumption.
Qed.

Lemma emits_finally {A} (p : Promise A) (f : Promise unit) :
  emits P p -> emits P f -> emits P (finally_ p f).
Proof.
  intros Hp Hf s. unfold finally_. specialize (Hp s).
  destruct (p s) as [result s1 calls1]; simpl in *.
  specialize (Hf s1). destruct (f s1) as [[[]|err] s2 calls2]; simpl in *;
    apply Forall_app; split; assumption.
Qed.

Lemma emits_q_all {A} (ps : list (Promise A)) :
  Forall (emits P) ps -> emits P (q_all ps).
Proof.
  induction 1 as [|p ps Hp _ IH]; intros s; [constructor|].
  unfold q_all; fold (@q_all A). specialize (Hp s).
  destruct (p s) as [first s1 calls1]; simpl in *.
  specialize (IH s1). destruct (q_all ps s1) as [others s2 calls2]; simpl in *.
  apply Forall_app. split; assumption.
Qed.

Lemma emits_if {A} (b : bool) (p q : Promise A) :
  emits P p -> emits P q -> emits P (if b then p else q).
Proof. destruct b; auto. Qed.

End Emits.

Lemma background_quiet (calls : list Event) :
  Forall background calls -> remote_commits calls = [] /\ announced calls = [].
Proof.
  induction 1 as [|ev calls [Hc Ha] _ [IHc IHa]]; [split; reflexivity|].
  unfold remote_commits, announced in *. simpl. rewrite Hc, Ha, IHc.
  split; [reflexivity|exact IHa].
Qed.

Lemma remote_commits_app (a b : list Event) :
  remote_commits (a ++ b) = remote_commits a ++ remote_commits b.
Proof. apply List.filter_app. Qed.

Lemma announced_app (a b : list Event) :
  announced (a ++ b) = announced a ++ announced b.
Proof. apply omap_app. Qed.

Create HintDb emits.

#[local] Hint Resolve emits_resolve emits_throw emits_get emits_modify
  emits_then emits_catch emits_finally emits_if : emits.

Lemma background_map {X} (f : X -> Event) (xs : list X) :
  (forall x, background (f x)) -> Forall background (map f xs).
Proof. intros H. apply Forall_map. apply Forall_forall. intros x _. apply H. Qed.

Lemma emits_storeSvc_get k : emits background (storeSvc_get k).
Proof. apply emits_get. Qed.

Lemma emits_storeSvc_set k v : emits background (storeSvc_set k v).
Proof. intros s. simpl. repeat constructor. Qed.

Lemma emits_storeSvc_remove k : emits background (storeSvc_remove k).
Proof. intros s. simpl. repeat constructor. Qed.

Lemma emits_deferred_reject d err : emits background (deferred_reject d err).
Proof. intros s. simpl. repeat constructor. Qed.

Lemma emits_deferred_resolve d : emits background (deferred_resolve d).
Proof. intros s. simpl. repeat constructor. Qed.

Lemma emits_refreshLocalSyncData this :
  emits background (platformSvc_refreshLocalSyncData this).
Proof. intros s. simpl. repeat constructor. Qed.

Lemma emits_setIsSyncing_None : emits background (setIsSyncing None).
Proof.
  unfold setIsSyncing. apply emits_then; [apply emits_get|].
  intros v. apply emits_call. split; reflexivity.
Qed.

Lemma emits_disableSync this : emits background (disableSync this).
Proof.
  intros s. destruct (enabled s) eqn:E.
  - rewrite (disableSync_when_enabled this s E). simpl.
    unfold disableSync_calls. repeat (constructor; [split; reflexivity|]).
    apply Forall_app. split.
    + apply background_map. intros p. split; reflexivity.
    + repeat (constructor; [split; reflexivity|]). constructor.
  - rewrite (disableSync_when_disabled this s E). constructor.
Qed.

Lemma emits_enableSync this : emits background (enableSync this).
Proof.
  intros s. rewrite enableSync_run. simpl.
  unfold enableSync_calls. repeat (constructor; [split; reflexivity|]).
  apply background_map. intros p. split; reflexivity.
Qed.

#[local] Hint Resolve emits_storeSvc_get emits_storeSvc_set emits_storeSvc_remove
  emits_deferred_reject emits_deferred_resolve emits_refreshLocalSyncData
  emits_setIsSyncing_None emits_disableSync emits_enableSync : emits.

Lemma emits_handleFailedSync this failedSync err :
  emits background (handleFailedSync this failedSync err).
Proof.
  unfold handleFailedSync, platformSvc_interface_Refresh, exceptionHandler.
  destruct failedSync as [failedSync|].
  - repeat first
      [ apply emits_disableSync
      | apply emits_setIsSyncing_None
      | apply emits_then; [|intros ?]
      | apply emits_catch; [|intros ?]
      | apply emits_if
      | apply emits_call; split; reflexivity
      | solve [auto with emits] ].
  - apply emits_then; [apply emits_call; split; reflexivity|]. auto with emits.
Qed.

(** ** The drain loop *)

Lemma promiseWhile_done (this : SyncEngineService) (fuel : nat) (vars : Vars.t)
    (s : Engine) :
  syncQueue s = [] ->
  promiseWhile fuel doActionUntil (action this) vars s = mkRun (Fulfilled vars) s [].
Proof.
  intros Hq. destruct fuel; unfold promiseWhile, then_, doActionUntil, get;
    rewrite Hq; reflexivity.
Qed.

Lemma promiseWhile_round (this : SyncEngineService) (fuel : nat) (vars : Vars.t)
    (s : Engine) (sync : Sync) (rest : list Sync) :
  syncQueue s = sync :: rest ->
  promiseWhile (S fuel) doActionUntil (action this) vars s
  = then_ (action this vars) (promiseWhile fuel doActionUntil (action this)) s.
Proof.
  intros Hq. unfold promiseWhile at 1; fold (@promiseWhile Vars.t).
  unfold then_ at 1, doActionUntil at 1, get. rewrite Hq. simpl.
  unfold then_. destruct (action this vars s) as [[vars'|err] s1 calls1]; [|reflexivity].
  destruct (promiseWhile fuel doActionUntil (action this) vars' s1). reflexivity.
Qed.

(** A round takes the head off the queue and adds nothing to it. *)
Lemma action_queue (this : SyncEngineService) (vars : Vars.t) (s : Engine)
    (sync : Sync) (rest : list Sync) :
  syncQueue s = sync :: rest ->
  syncQueue (after (action this vars s)) = rest
  \/ syncQueue (after (action this vars s)) = [].
Proof.
  intros Hq. destruct (SyncType_eqb (type sync) Cancel) eqn:Ht.
  - apply SyncType_eqb_eq in Ht. rewrite (action_Cancel this vars s sync rest Hq Ht).
    cbn [after]. set (s1 := with_currentSync _ _).
    destruct (enabled s1) eqn:He.
    + rewrite (disableSync_when_enabled this s1 He). right. reflexivity.
    + rewrite (disableSync_when_disabled this s1 He). left. reflexivity.
  - apply SyncType_eqb_neq in Ht.
    destruct (processSync_all this sync) as [results|err] eqn:Hr.
    + rewrite (action_fulfilled this vars s sync rest results Hq Ht Hr). cbn [after].
      destruct (_ && _); [rewrite enableSync_run|]; left; reflexivity.
    + rewrite (action_rejected this vars s sync rest err Hq Ht Hr). left. reflexivity.
Qed.

(** The rounds [processSyncQueue] gives the loop are enough: with any
    larger number the loop does the same. *)
Lemma drain_rounds_suffice (this : SyncEngineService) (fuel fuel' : nat) :
  forall (vars : Vars.t) (s : Engine),
    length (syncQueue s) <= fuel ->
    length (syncQueue s) <= fuel' ->
    promiseWhile fuel doActionUntil (action this) vars s
    = promiseWhile fuel' doActionUntil (action this) vars s.
Proof.
  revert fuel'. induction fuel as [|fuel IH]; intros fuel' vars s H1 H2.
  - destruct (syncQueue s) as [|sync rest] eqn:Hq; [|simpl in H1; lia].
    rewrite !promiseWhile_done by exact Hq. reflexivity.
  - destruct (syncQueue s) as [|sync rest] eqn:Hq.
    + rewrite !promiseWhile_done by exact Hq. reflexivity.
    + destruct fuel' as [|fuel']; [simpl in H2; lia|].
      rewrite (promiseWhile_round this fuel vars s sync rest Hq).
      rewrite (promiseWhile_round this fuel' vars s sync rest Hq).
      pose proof (action_queue this vars s sync rest Hq) as Ha.
      unfold then_. destruct (action this vars s) as [[vars'|err] s1 calls1];
        [|reflexivity].
      cbn [after] in Ha.
      rewrite (IH fuel' vars' s1); [reflexivity| |];
        destruct Ha as [-> | ->]; simpl in *; lia.
Qed.

Lemma all_settled_length {A} (l : list (Settled A)) (values : list A) :
  all_settled l = Fulfilled values -> length values = length l.
Proof.
  revert values. induction l as [|first l IH]; intros values H; simpl in H.
  - injection H as <-. reflexivity.
  - destruct first as [a|err]; [|discriminate].
    destruct (all_settled l) as [l'|err]; [|discriminate].
    injection H as <-. simpl. f_equal. apply IH. reflexivity.
Qed.


Lemma extract_data_fold (ps : list SyncProvider) :
  forall (results : list SyncProcessResult) (acc : option SyncProcessBookmarksData),
    length results = length ps ->
    existsb is_BookmarkSyncProviderService ps = true \/ acc <> None ->
    fold_left
      (fun acc pr =>
         if is_BookmarkSyncProviderService (fst pr) then Some (data (snd pr)) else acc)
      (combine ps results) acc <> None.
Proof.
  induction ps as [|p ps IH]; intros results acc Hlen H.
  - simpl. destruct H as [H|H]; [discriminate|exact H].
  - destruct results as [|r results]; [discriminate|]. simpl in *.
    apply IH; [lia|].
    destruct (is_BookmarkSyncProviderService p); simpl in *.
    + right. discriminate.
    + exact H.
Qed.

Lemma extract_data_defined (this : SyncEngineService) (sync : Sync)
    (results : list SyncProcessResult) (acc : option SyncProcessBookmarksData) :
  has_bookmark_provider this = true ->
  processSync_all this sync = Fulfilled results ->
  extract_data this results acc <> None.
Proof.
  intros Hb Hr. unfold extract_data. apply extract_data_fold.
  - apply all_settled_length in Hr. rewrite Hr. apply length_map.
  - left. exact Hb.
Qed.



Lemma background_processSync_calls this sync :
  Forall background (processSync_calls this sync).
Proof. apply background_map. intros p. split; reflexivity. Qed.

Lemma syncChange_Cancel this sync : type sync = Cancel -> syncChange this sync = false.
Proof. intros H. unfold syncChange. rewrite H. reflexivity. Qed.

Lemma syncChange_rejected this sync err :
  processSync_all this sync = Rejected err -> syncChange this sync = false.
Proof.
  intros H. unfold syncChange. rewrite H. destruct (SyncType_eqb _ _); reflexivity.
Qed.

Lemma syncChange_fulfilled this sync results :
  type sync <> Cancel ->
  processSync_all this sync = Fulfilled results ->
  syncChange this sync = combine_results results.
Proof.
  intros Ht H. apply SyncType_eqb_neq in Ht. unfold syncChange. rewrite Ht, H.
  reflexivity.
Qed.

Lemma next_updateRemote_reset this updateRemote sync :
  syncChange this sync = false -> next_updateRemote this updateRemote sync = false.
Proof. intros H. unfold next_updateRemote. rewrite H. reflexivity. Qed.

Lemma drain_loop (this : SyncEngineService) :
  has_bookmark_provider this = true ->
  forall (fuel : nat) (vars : Vars.t) (s : Engine),
    length (syncQueue s) <= fuel ->
    (Vars.updateRemote vars = true -> Vars.processedBookmarksData vars <> None) ->
    let r := promiseWhile fuel doActionUntil (action this) vars s in
    let done := processed this (enabled s) (syncQueue s) in
    remote_commits (emitted r) = []
    /\ announced (emitted r) = map type done
    /\ match outcome r with
       | Fulfilled vars' =>
           Vars.updateRemote vars'
           = fold_left (next_updateRemote this) done (Vars.updateRemote vars)
           /\ (Vars.updateRemote vars' = true ->
               Vars.processedBookmarksData vars' <> None)
       | Rejected _ =>
           fold_left (next_updateRemote this) done (Vars.updateRemote vars) = false
       end.
Proof.
  intros Hb. induction fuel as [|fuel IH]; intros vars s Hlen Hinv;
    destruct (syncQueue s) as [|sync rest] eqn:Hq;
    try (simpl in Hlen; lia);
    try (rewrite (promiseWhile_done this _ vars s Hq); simpl; auto).
  cbv zeta. rewrite (promiseWhile_round this fuel vars s sync rest Hq).
  unfold then_. simpl in Hlen. cbn [processed].
  destruct (SyncType_eqb (type sync) Cancel) eqn:Ht.
  - (* a Cancel *)
    pose proof Ht as Ht'. apply SyncType_eqb_eq in Ht'.
    rewrite (action_Cancel this vars s sync rest Hq Ht').
    set (s1 := with_currentSync (Some sync) (with_syncQueue rest s)).
    assert (He1 : enabled s1 = enabled s) by (destruct s; reflexivity).
    pose proof (syncChange_Cancel this sync Ht') as Hch.
    destruct (background_quiet _ (emits_disableSync this s1)) as [Hc1 Ha1].
    destruct (enabled s) eqn:He.
    + rewrite (disableSync_when_enabled this s1 He1) in *. cbn [after emitted] in *.
      rewrite promiseWhile_done by reflexivity.
      cbn [outcome emitted fold_left map]. rewrite app_nil_r.
      rewrite !remote_commits_app, !announced_app, Hc1, Ha1.
      rewrite (next_updateRemote_reset this _ sync Hch). rewrite Ht'.
      repeat split. discriminate.
    + rewrite (disableSync_when_disabled this s1 He1) in *. cbn [after emitted] in *.
      set (s2 := with_deferreds _ s1).
      assert (Hq2 : syncQueue s2 = rest) by (destruct s; reflexivity).
      assert (He2 : enabled s2 = false) by (rewrite <- He; destruct s; reflexivity).
      pose proof (IH (Vars.mk (Vars.processedBookmarksData vars) false) s2) as H.
      rewrite Hq2, He2 in H. specialize (H ltac:(lia) ltac:(discriminate)).
      cbv zeta in H. destruct (promiseWhile fuel _ _ _ s2) as [out s3 calls3].
      cbn [outcome emitted fold_left map Vars.updateRemote] in *.
      destruct H as (Hc & Ha & Ho).
      rewrite !remote_commits_app, !announced_app, Hc, Ha.
      rewrite (next_updateRemote_reset this _ sync Hch). rewrite Ht'.
      repeat split. exact Ho.
  - (* a sync for the providers *)
    pose proof Ht as Ht'. apply SyncType_eqb_neq in Ht'.
    destruct (background_quiet _ (background_processSync_calls this sync)) as [Hc1 Ha1].
    destruct (processSync_all this sync) as [results|err] eqn:Hr.
    + rewrite (action_fulfilled this vars s sync rest results Hq Ht' Hr).
      set (s1 := with_currentSync (Some sync) (with_syncQueue rest s)).
      set (enable := negb (enabled s) && negb (is_RestoreBookmarks (command sync))).
      set (s2 := if enable then after (enableSync this s1) else s1).
      set (s3 := with_deferreds _ s2).
      set (vars' := Vars.mk _ _).
      assert (Hq3 : syncQueue s3 = rest).
      { subst s3 s2. destruct enable; [rewrite enableSync_run|]; destruct s; reflexivity. }
      assert (He3 : enabled s3
                    = enabled s || negb (is_RestoreBookmarks (command sync))).
      { subst s3 s2 enable. destruct (enabled s) eqn:He; simpl.
        - rewrite <- He. destruct s; reflexivity.
        - destruct (is_RestoreBookmarks (command sync)); simpl.
          + rewrite <- He. destruct s; reflexivity.
          + rewrite enableSync_run. reflexivity. }
      assert (Hf : next_updateRemote this (Vars.updateRemote vars) sync
                   = Vars.updateRemote vars').
      { unfold next_updateRemote.
        rewrite (syncChange_fulfilled this sync results Ht' Hr). reflexivity. }
      pose proof (IH vars' s3) as H. rewrite Hq3, He3 in H.
      specialize (H ltac:(lia)).
      assert (Hinv' : Vars.updateRemote vars' = true ->
                      Vars.processedBookmarksData vars' <> None).
      { intros _. subst vars'. cbn [Vars.processedBookmarksData].
        apply (extract_data_defined this sync results _ Hb Hr). }
      specialize (H Hinv'). cbv zeta in H.
      cbn [after emitted].
      destruct (promiseWhile fuel _ _ vars' s3) as [out s4 calls4].
      cbn [outcome emitted fold_left map] in *. destruct H as (Hc & Ha & Ho).
      rewrite !remote_commits_app, !announced_app, Hc, Ha, Hc1, Ha1.
      assert (Hen : remote_commits (if enable then emitted (enableSync this s1) else []) = []
                    /\ announced (if enable then emitted (enableSync this s1) else []) = []).
      { destruct enable; [|split; reflexivity].
        apply background_quiet. apply emits_enableSync. }
      destruct Hen as [Hc2 Ha2]. rewrite Hc2, Ha2, Hf.
      repeat split. exact Ho.
    + rewrite (action_rejected this vars s sync rest err Hq Ht' Hr).
      cbn [outcome emitted fold_left map].
      rewrite !remote_commits_app, !announced_app, Hc1, Ha1.
      rewrite (next_updateRemote_reset this _ sync (syncChange_rejected this sync err Hr)).
      repeat split.
Qed.

Lemma guard_passes (s : Engine) :
  currentSync s = None -> syncQueue s <> [] ->
  bool_decide (is_Some (currentSync s)) || Nat.eqb (length (syncQueue s)) 0 = false.
Proof.
  intros Hc Hq. rewrite Hc. destruct (syncQueue s); [congruence|]. reflexivity.
Qed.

Lemma remote_commits_cons (ev : Event) (calls : list Event) :
  remote_commits (ev :: calls)
  = (if is_remote_commit ev then [ev] else []) ++ remote_commits calls.
Proof. unfold remote_commits. simpl. destruct (is_remote_commit ev); reflexivity. Qed.

Lemma announced_cons (ev : Event) (calls : list Event) :
  announced (ev :: calls)
  = (match announced_type ev with Some t => [t] | None => [] end) ++ announced calls.
Proof. unfold announced. simpl. destruct (announced_type ev); reflexivity. Qed.

Lemma remote_commits_nil : remote_commits [] = [].
Proof. reflexivity. Qed.

Lemma announced_nil : announced [] = [].
Proof. reflexivity. Qed.

#[local] Arguments remote_commits : simpl never.
#[local] Arguments announced : simpl never.

Ltac measure :=
  repeat first
    [ rewrite remote_commits_app | rewrite announced_app
    | rewrite remote_commits_cons | rewrite announced_cons
    | rewrite remote_commits_nil | rewrite announced_nil ].




(** ** Whole drains *)

Lemma drain_guard (this : SyncEngineService) (s : Engine) :
  currentSync s <> None \/ syncQueue s = [] ->
  processSyncQueue this s = mkRun (Fulfilled tt) s [].
Proof.
  intros H. unfold processSyncQueue.
  destruct (currentSync s) as [c|]; [reflexivity|].
  destruct H as [H|H]; [congruence|]. rewrite H. reflexivity.
Qed.

Lemma drain_clears_currentSync (this : SyncEngineService) (s : Engine) :
  currentSync s = None ->
  currentSync (after (processSyncQueue this s)) = None.
Proof.
  intros Hc. destruct (syncQueue s) as [|sync rest] eqn:Hq.
  - rewrite drain_guard by (right; exact Hq). exact Hc.
  - unfold processSyncQueue. rewrite guard_passes by congruence.
    unfold finally_.
    match goal with |- context [catch_ ?p ?h s] =>
      destruct (catch_ p h s) as [result s1 calls1] end.
    unfold then_, modify, storeSvc_get, get. simpl.
    destruct (truthy _); reflexivity.
Qed.

Lemma queueSync_keeps_idle (this : SyncEngineService) (syncToQueue : option Sync)
    (runSync : bool) (s : Engine) :
  currentSync s = None ->
  currentSync (after (queueSync this syncToQueue runSync s)) = None.
Proof.
  intros Hc. unfold queueSync, then_ at 1 2, storeSvc_get, get. 
  set (s0 := after ((if negb (truthy (Store_get SyncEnabled (store s)))
                     then modify (with_syncQueue []) else resolve tt) s)).
  assert (H0 : (if negb (truthy (Store_get SyncEnabled (store s)))
                then modify (with_syncQueue []) else resolve tt) s
               = mkRun (Fulfilled tt) s0 []).
  { subst s0. destruct (negb _); reflexivity. }
  assert (Hc0 : currentSync s0 = None).
  { subst s0. destruct (negb _); simpl; exact Hc. }
  rewrite H0. clearbody s0.
  destruct syncToQueue as [sync|]; [|exact Hc0].
  unfold then_ at 1.
  set (s1 := after ((if SyncType_eqb (type sync) Cancel
                     then modify (with_syncQueue []) else resolve tt) s0)).
  assert (H1 : (if SyncType_eqb (type sync) Cancel
                then modify (with_syncQueue []) else resolve tt) s0
               = mkRun (Fulfilled tt) s1 []).
  { subst s1. destruct (SyncType_eqb _ _); reflexivity. }
  assert (Hc1 : currentSync s1 = None).
  { subst s1. destruct (SyncType_eqb _ _); simpl; exact Hc0. }
  rewrite H1. clearbody s1.
  unfold then_, q_defer, modify. simpl.
  destruct runSync.
  - match goal with |- context [processSyncQueue this ?s2] =>
      pose proof (drain_clears_currentSync this s2 Hc1) as Hd;
      destruct (processSyncQueue this s2) as [result s3 calls3] end.
    simpl in *. exact Hd.
  - simpl. exact Hc1.
Qed.

Lemma queueSync_Cancel (this : SyncEngineService) (cancel : Sync) (s : Engine) :
  type cancel = Cancel ->
  queueSync this (Some cancel) false s
  = mkRun (Fulfilled Pending) (Cancel_queued this cancel s) [].
Proof.
  intros Ht. apply SyncType_eqb_eq in Ht.
  unfold queueSync, then_, storeSvc_get, get, q_defer, modify.
  rewrite Ht.
  destruct (negb (truthy _)); simpl; rewrite lookup_insert_eq; reflexivity.
Qed.

Lemma queueSync_Cancel_runs_drain (this : SyncEngineService) (cancel : Sync)
    (s : Engine) :
  type cancel = Cancel ->
  after (queueSync this (Some cancel) true s)
  = after (processSyncQueue this (Cancel_queued this cancel s))
  /\ emitted (queueSync this (Some cancel) true s)
     = emitted (processSyncQueue this (Cancel_queued this cancel s)).
Proof.
  intros Ht. apply SyncType_eqb_eq in Ht.
  unfold queueSync, then_, storeSvc_get, get, q_defer, modify.
  rewrite Ht.
  destruct (negb (truthy _)); simpl;
    change (with_syncQueue _ _) with (Cancel_queued this cancel s);
    destruct (processSyncQueue this (Cancel_queued this cancel s)) as [o a e];
    simpl; rewrite ?app_nil_r; split; reflexivity.
Qed.

(** The loop of a drain that finds a Cancel at the head of the queue,
    when sync is enabled or the Cancel is alone in the queue: one round,
    which runs [disableSync], and the loop is over. *)
Lemma loop_Cancel (this : SyncEngineService) (fuel : nat) (vars : Vars.t)
    (s : Engine) (cancel : Sync) (rest : list Sync) :
  syncQueue s = cancel :: rest ->
  type cancel = Cancel ->
  enabled s = true \/ rest = [] ->
  let s1 := with_currentSync (Some cancel) (with_syncQueue rest s) in
  let s2 := after (disableSync this s1) in
  promiseWhile (S fuel) doActionUntil (action this) vars s
  = mkRun (Fulfilled (Vars.mk (Vars.processedBookmarksData vars) false))
      (with_deferreds (settle (deferred cancel) Resolved (deferreds s)) s2)
      ([InterfaceRefresh None (Some Cancel)] ++ emitted (disableSync this s1)
       ++ [DeferredResolve (deferred cancel);
           InterfaceRefresh (Store_get SyncEnabled (store s2)) None])
  /\ syncQueue s2 = []
  /\ enabled s2 = false.
Proof.
  intros Hq Ht Hrest s1 s2.
  rewrite (promiseWhile_round this fuel vars s cancel rest Hq).
  unfold then_. rewrite (action_Cancel this vars s cancel rest Hq Ht).
  fold s1. fold s2.
  assert (Hs1 : enabled s1 = enabled s) by (destruct s; reflexivity).
  assert (H2 : syncQueue s2 = [] /\ enabled s2 = false).
  { subst s2. destruct (enabled s) eqn:He.
    - rewrite (disableSync_when_enabled this s1 Hs1). split; reflexivity.
    - destruct Hrest as [Hrest|Hrest]; [discriminate|]. subst rest.
      rewrite (disableSync_when_disabled this s1 Hs1).
      split; [destruct s; reflexivity|exact Hs1]. }
  destruct H2 as [Hq2 He2].
  rewrite promiseWhile_done by (destruct s2; exact Hq2).
  rewrite app_nil_r. repeat split; assumption.
Qed.

(** A drain whose first sync is a Cancel, when sync is enabled or the
    Cancel is alone in the queue: the syncs queued behind the Cancel are
    dropped without being processed. *)
Lemma drain_Cancel (this : SyncEngineService) (s : Engine) (cancel : Sync)
    (rest : list Sync) :
  currentSync s = None ->
  syncQueue s = cancel :: rest ->
  type cancel = Cancel ->
  enabled s = true \/ rest = [] ->
  let s1 := with_currentSync (Some cancel) (with_syncQueue rest s) in
  let r := processSyncQueue this s in
  outcome r = Fulfilled tt
  /\ emitted r
     = (if enabled s then [AutomaticUpdatesStop] else [])
       ++ [InterfaceRefresh None (Some Cancel)]
       ++ emitted (disableSync this s1)
       ++ [DeferredResolve (deferred cancel);
           InterfaceRefresh (Store_get SyncEnabled (store (after r))) None]
  /\ after r
     = with_currentSync None
         (with_deferreds (settle (deferred cancel) Resolved (deferreds s))
            (after (disableSync this s1)))
  /\ syncQueue (after r) = []
  /\ currentSync (after r) = None
  /\ enabled (after r) = false.
Proof.
  intros Hc Hq Ht Hrest s1 r. subst r.
  destruct (processSyncQueue this s) as [result s' calls] eqn:E.
  cbn [outcome emitted after]. revert E.
  unfold processSyncQueue. rewrite guard_passes by congruence.
  unfold finally_, catch_, then_ at 1 2. cbn [storeSvc_get get].
  assert (Hpre : (if truthy (Store_get SyncEnabled (store s))
                  then platformSvc_automaticUpdates_Stop else resolve tt) s
                 = mkRun (Fulfilled tt) s
                     (if enabled s then [AutomaticUpdatesStop] else [])).
  { unfold enabled. destruct (truthy _); reflexivity. }
  rewrite Hpre. unfold then_ at 1. rewrite Hq. cbn [length].
  rewrite (promiseWhile_round this _ _ s cancel rest Hq).
  unfold then_ at 1. rewrite (action_Cancel this _ s cancel rest Hq Ht).
  fold s1.
  assert (Hs1 : enabled s1 = enabled s) by (destruct s; reflexivity).
  destruct (enabled s) eqn:He.
  - rewrite (disableSync_when_enabled this s1 Hs1).
    cbn [after emitted]. rewrite promiseWhile_done by reflexivity.
    unfold then_, modify, storeSvc_get, get. simpl.
    intros [= <- <- <-]. repeat split. same_run.
  - destruct Hrest as [Hrest|Hrest]; [discriminate|]. subst rest.
    rewrite (disableSync_when_disabled this s1 Hs1).
    cbn [after emitted]. rewrite promiseWhile_done by (destruct s; reflexivity).
    unfold enabled in He.
    unfold then_, modify, storeSvc_get, get. simpl.
    assert (Hst : truthy (syncEnabled (store s)) = false) by exact He.
    rewrite Hst. simpl.
    intros [= <- <- <-]. repeat split; try same_run. exact Hs1.
Qed.

Lemma drain_first_round (this : SyncEngineService) (s : Engine) (sync : Sync)
    (rest : list Sync) :
  currentSync s = None ->
  syncQueue s = sync :: rest ->
  exists later,
    emitted (processSyncQueue this s)
    = (if enabled s then [AutomaticUpdatesStop] else [])
      ++ emitted (action this (Vars.mk None false) s) ++ later.
Proof.
  intros Hc Hq.
  destruct (processSyncQueue this s) as [result s' calls] eqn:E.
  cbn [emitted]. revert E.
  unfold processSyncQueue. rewrite guard_passes by congruence.
  unfold finally_, catch_, then_ at 1 2. cbn [storeSvc_get get].
  assert (Hpre : (if truthy (Store_get SyncEnabled (store s))
                  then platformSvc_automaticUpdates_Stop else resolve tt) s
                 = mkRun (Fulfilled tt) s
                     (if enabled s then [AutomaticUpdatesStop] else [])).
  { unfold enabled. destruct (truthy _); reflexivity. }
  rewrite Hpre. unfold then_ at 1. rewrite Hq. cbn [length].
  rewrite (promiseWhile_round this _ _ s sync rest Hq).
  unfold then_ at 1.
  destruct (action this _ s) as [[vars'|err] s1 calls1]; cbn [emitted].
  - destruct (promiseWhile _ _ _ vars' s1) as [[vars''|err] s2 calls2].
    + match goal with |- context [(if ?b then ?p else ?q) s2] =>
        destruct ((if b then p else q) s2) as [[[]|err] s3 calls3] end.
      * match goal with |- context [match ?f ?s0 with mkRun _ _ _ => _ end] =>
          destruct (f s0) as [[[]|err] s4 calls4] end;
        intros [= <- <- <-]; eexists; rewrite <- !app_assoc; reflexivity.
      * match goal with |- context [match ?f ?s0 with mkRun _ _ _ => _ end] =>
          destruct (f s0) as [res4 s4 calls4] end.
        match goal with |- context [match ?f ?s0 with mkRun _ _ _ => _ end] =>
          destruct (f s0) as [[[]|err'] s5 calls5] end;
        intros [= <- <- <-]; eexists; rewrite <- !app_assoc; reflexivity.
    + match goal with |- context [match ?f ?s0 with mkRun _ _ _ => _ end] =>
        destruct (f s0) as [res4 s4 calls4] end.
      match goal with |- context [match ?f ?s0 with mkRun _ _ _ => _ end] =>
        destruct (f s0) as [[[]|err'] s5 calls5] end;
      intros [= <- <- <-]; eexists; rewrite <- !app_assoc; reflexivity.
  - match goal with |- context [match ?f ?s0 with mkRun _ _ _ => _ end] =>
      destruct (f s0) as [res4 s4 calls4] end.
    match goal with |- context [match ?f ?s0 with mkRun _ _ _ => _ end] =>
      destruct (f s0) as [[[]|err'] s5 calls5] end;
    intros [= <- <- <-]; eexists; rewrite <- !app_assoc; reflexivity.
Qed.


(** ** Promises that settle no deferred *)

Lemma aside_resolve {A} (Q : A -> Prop) (a : A) : Q a -> fulfilled_aside Q (resolve a).
Proof. intros H s. simpl. eauto. Qed.

Lemma aside_get {A} (Q : A -> Prop) (f : Engine -> A) :
  (forall s, Q (f s)) -> fulfilled_aside Q (get f).
Proof. intros H s. simpl. eauto. Qed.

Lemma aside_modify (f : Engine -> Engine) :
  (forall s, deferreds (f s) = deferreds s) ->
  fulfilled_aside (fun _ => True) (modify f).
Proof. intros H s. simpl. eauto. Qed.

Lemma aside_call (ev : Event) :
  is_settlement ev = false -> fulfilled_aside (fun _ => True) (call ev).
Proof.
  intros H s. simpl. split; [eauto|]. split; [reflexivity|].
  repeat constructor. exact H.
Qed.

Lemma aside_then {A B} (Q : B -> Prop) (p : Promise A) (k : A -> Promise B) :
  fulfilled_aside (fun _ => True) p ->
  (forall a, fulfilled_aside Q (k a)) ->
  fulfilled_aside Q (then_ p k).
Proof.
  intros Hp Hk s. unfold then_. destruct (Hp s) as ((a & Ho & _) & Hd & He).
  destruct (p s) as [o s1 calls1]. simpl in *. subst o.
  destruct (Hk a s1) as ((b & Ho' & HQ) & Hd' & He').
  destruct (k a s1) as [o' s2 calls2]. simpl in *. subst o'.
  split; [eauto|]. split; [congruence|]. apply Forall_app. auto.
Qed.

Lemma aside_if {A} (Q : A -> Prop) (b : bool) (p q : Promise A) :
  fulfilled_aside Q p -> fulfilled_aside Q q ->
  fulfilled_aside Q (if b then p else q).
Proof. destruct b; auto. Qed.

Lemma aside_weaken {A} (Q Q' : A -> Prop) (p : Promise A) :
  (forall a, Q a -> Q' a) -> fulfilled_aside Q p -> fulfilled_aside Q' p.
Proof.
  intros H Hp s. destruct (Hp s) as ((a & Ho & HQ) & Hd & He). eauto 6.
Qed.

Lemma aside_storeSvc_get k : fulfilled_aside (fun _ => True) (storeSvc_get k).
Proof. apply aside_get. auto. Qed.

Lemma aside_storeSvc_set k v : fulfilled_aside (fun _ => True) (storeSvc_set k v).
Proof.
  intros s. simpl. split; [eauto|]. split; [reflexivity|]. repeat constructor.
Qed.

Lemma aside_setIsSyncing_None : fulfilled_aside (fun _ => True) (setIsSyncing None).
Proof.
  unfold setIsSyncing. apply aside_then; [apply aside_storeSvc_get|].
  intros v. apply aside_call. reflexivity.
Qed.

Lemma no_settlement_map {X} (f : X -> Event) (xs : list X) :
  (forall x, is_settlement (f x) = false) ->
  Forall (fun ev => is_settlement ev = false) (map f xs).
Proof. intros H. apply Forall_map. apply Forall_forall. intros x _. apply H. Qed.

Lemma aside_disableSync this : fulfilled_aside (fun _ => True) (disableSync this).
Proof.
  intros s. destruct (enabled s) eqn:E.
  - rewrite (disableSync_when_enabled this s E). simpl.
    split; [eauto|]. split; [reflexivity|].
    unfold disableSync_calls. repeat (constructor; [reflexivity|]).
    apply Forall_app. split.
    + apply no_settlement_map. reflexivity.
    + repeat constructor.
  - rewrite (disableSync_when_disabled this s E). simpl. eauto.
Qed.

Lemma aside_enableSync this : fulfilled_aside (fun _ => True) (enableSync this).
Proof.
  intros s. rewrite enableSync_run. simpl.
  split; [eauto|]. split; [reflexivity|].
  unfold enableSync_calls. repeat (constructor; [reflexivity|]).
  apply no_settlement_map. reflexivity.
Qed.

Lemma aside_refresh_caught this (err : Error) :
  fulfilled_aside (fun _ : Error => True)
    (catch_ (platformSvc_refreshLocalSyncData this;; resolve err)
            (fun refreshErr => resolve refreshErr)).
Proof.
  intros s. unfold catch_, then_, platformSvc_refreshLocalSyncData.
  destruct (platformSvc_refreshLocalSyncData_response this) as [[]|refreshErr];
    simpl; (split; [eauto|]); (split; [reflexivity|]); repeat constructor.
Qed.

(** The value the promise of [handleFailedSync] is resolved with and the
    error its [finally] rejects the deferred with are the same error,
    except in the offline branch; no other deferred is touched. *)
Lemma handleFailedSync_settles (this : SyncEngineService) (failedSync : Sync)
    (err : Error) (s : Engine) :
  exists (final rejected : Error),
    outcome (handleFailedSync this (Some failedSync) err s) = Fulfilled final
    /\ (offline_branch failedSync err = false -> rejected = final)
    /\ deferreds (after (handleFailedSync this (Some failedSync) err s))
       = settle (deferred failedSync) (RejectedWith rejected) (deferreds s)
    /\ List.filter is_settlement (emitted (handleFailedSync this (Some failedSync) err s))
       = [DeferredReject (deferred failedSync) rejected].
Proof.
  destruct (handleFailedSync this (Some failedSync) err s) as [o s' calls] eqn:E.
  cbn [outcome after emitted]. revert E.
  unfold handleFailedSync.
  match goal with |- context [then_ ?body ?k] =>
    assert (Hbody : fulfilled_aside
                      (fun settled : Error * Error =>
                         offline_branch failedSync err = false -> snd settled = fst settled)
                      body)
  end.
  { unfold platformSvc_interface_Refresh, exceptionHandler.
    apply aside_then; [apply aside_call; reflexivity|]. intros _.
    fold (offline_branch failedSync err).
    destruct (offline_branch failedSync err).
    - apply aside_resolve. discriminate.
    - repeat first
        [ apply aside_disableSync
        | apply aside_setIsSyncing_None
        | apply aside_storeSvc_get
        | apply aside_storeSvc_set
        | apply aside_refresh_caught
        | apply aside_resolve; solve [auto]
        | apply aside_call; reflexivity
        | apply aside_modify; intros; reflexivity
        | apply aside_then; [|intros ?]
        | apply aside_if ]. }
  unfold then_ at 1.
  destruct (Hbody s) as (([final rejected] & Ho & HQ) & Hd & He).
  match goal with |- context [match ?b s with mkRun _ _ _ => _ end] =>
    destruct (b s) as [o1 s1 calls1] end.
  simpl in Ho, Hd, He, HQ. subst o1. simpl. intros [= <- <- <-].
  exists final, rejected. split; [reflexivity|]. split; [exact HQ|].
  split; [rewrite Hd; reflexivity|].
  rewrite List.filter_app. simpl.
  assert (Hnone : List.filter is_settlement calls1 = []).
  { clear -He. induction He as [|ev l Hev _ IH]; simpl; [reflexivity|].
    rewrite Hev. exact IH. }
  rewrite Hnone. reflexivity.
Qed.

(** ** Rounds and completion signals *)

Lemma settlements_app (d : nat) (a b : list Event) :
  settlements d (a ++ b) = settlements d a ++ settlements d b.
Proof. apply List.filter_app. Qed.

Lemma settlements_none (d : nat) (calls : list Event) :
  Forall (fun ev => is_settlement ev = false) calls -> settlements d calls = [].
Proof.
  induction 1 as [|ev l Hev _ IH]; [reflexivity|].
  unfold settlements in *. simpl. destruct ev; try discriminate; exact IH.
Qed.

Lemma settlements_filter (d : nat) (calls : list Event) :
  settlements d (List.filter is_settlement calls) = settlements d calls.
Proof.
  unfold settlements. induction calls as [|ev l IH]; [reflexivity|].
  simpl. destruct ev; simpl; try exact IH; rewrite IH; reflexivity.
Qed.

Lemma settle_other (d d' : nat) (x : Settlement) (ds : gmap nat Settlement) :
  d <> d' -> settle d x ds !! d' = ds !! d'.
Proof.
  intros H. unfold settle. destruct (ds !! d) as [[| |]|]; try reflexivity.
  apply lookup_insert_ne. exact H.
Qed.

Lemma processed_incl (this : SyncEngineService) (queue : list Sync) :
  forall (isEnabled : bool) (sync : Sync),
    In sync (processed this isEnabled queue) -> In sync queue.
Proof.
  induction queue as [|x queue IH]; intros isEnabled sync H; [exact H|].
  simpl in H. destruct (SyncType_eqb (type x) Cancel).
  - destruct isEnabled; simpl in H.
    + destruct H as [H|[]]. left. exact H.
    + destruct H as [H|H]; [left; exact H|right; eapply IH; exact H].
  - destruct (processSync_all this x); simpl in H.
    + destruct H as [H|H]; [left; exact H|right; eapply IH; exact H].
    + destruct H as [H|[]]. left. exact H.
Qed.

(** A round that no provider rejects. *)
Lemma round_completed (this : SyncEngineService) (vars : Vars.t) (s : Engine)
    (sync : Sync) (rest : list Sync) :
  syncQueue s = sync :: rest ->
  (type sync = Cancel \/ exists results, processSync_all this sync = Fulfilled results) ->
  exists vars' s' calls,
    action this vars s = mkRun (Fulfilled vars') s' calls
    /\ deferreds s' = settle (deferred sync) Resolved (deferreds s)
    /\ currentSync s' = Some sync
    /\ settlements (deferred sync) calls = [DeferredResolve (deferred sync)]
    /\ (forall d, d <> deferred sync -> settlements d calls = [])
    /\ (syncQueue s' = rest \/ syncQueue s' = [])
    /\ processed this (enabled s) (sync :: rest)
       = sync :: processed this (enabled s') (syncQueue s').
Proof.
  intros Hq Hok.
  assert (Hone : forall pre post,
             Forall (fun ev => is_settlement ev = false) pre ->
             Forall (fun ev => is_settlement ev = false) post ->
             settlements (deferred sync)
               (pre ++ [DeferredResolve (deferred sync)] ++ post)
             = [DeferredResolve (deferred sync)]
             /\ (forall d, d <> deferred sync ->
                   settlements d (pre ++ [DeferredResolve (deferred sync)] ++ post) = [])).
  { intros pre post Hpre Hpost. split; [|intros d Hd];
      rewrite !settlements_app, (settlements_none _ pre Hpre),
        (settlements_none _ post Hpost); unfold settlements; simpl.
    - rewrite Nat.eqb_refl. reflexivity.
    - apply Nat.eqb_neq in Hd. rewrite Hd. reflexivity. }
  set (s1 := with_currentSync (Some sync) (with_syncQueue rest s)).
  assert (He1 : enabled s1 = enabled s) by (destruct s; reflexivity).
  destruct (SyncType_eqb (type sync) Cancel) eqn:Ht.
  - pose proof Ht as Ht'. apply SyncType_eqb_eq in Ht'.
    rewrite (action_Cancel this vars s sync rest Hq Ht'). fold s1.
    destruct (aside_disableSync this s1) as (_ & Hd & Hev).
    do 3 eexists. split; [reflexivity|]. cbn [deferreds with_deferreds currentSync].
    split; [reflexivity|].
    split; [destruct (enabled s1) eqn:E;
            [rewrite (disableSync_when_enabled this s1 E)
            |rewrite (disableSync_when_disabled this s1 E)]; reflexivity|].
    assert (Hs : forall pre x, Forall (fun ev => is_settlement ev = false) pre ->
                   Forall (fun ev => is_settlement ev = false)
                     ([InterfaceRefresh None (Some Cancel)] ++ pre)
                   /\ Forall (fun ev => is_settlement ev = false)
                        [InterfaceRefresh x None]).
    { intros pre x Hp. split; repeat constructor. exact Hp. }
    destruct (Hs _ (Store_get SyncEnabled (store (after (disableSync this s1)))) Hev)
      as [Hpre Hpost].
    destruct (Hone _ _ Hpre Hpost) as [H1 H2].
    rewrite <- !app_assoc in H1, H2. simpl in H1, H2.
    split; [exact H1|]. split; [exact H2|].
    cbn [processed]. rewrite Ht.
    destruct (enabled s) eqn:E.
    + rewrite (disableSync_when_enabled this s1 He1). split; [right; reflexivity|].
      reflexivity.
    + rewrite (disableSync_when_disabled this s1 He1).
      split; [left; destruct s; reflexivity|].
      replace (enabled (with_deferreds _ s1)) with false
        by (rewrite <- He1; reflexivity).
      destruct s; reflexivity.
  - pose proof Ht as Ht'. apply SyncType_eqb_neq in Ht'.
    destruct Hok as [Hok|[results Hr]]; [congruence|].
    rewrite (action_fulfilled this vars s sync rest results Hq Ht' Hr). fold s1.
    set (enable := negb (enabled s) && negb (is_RestoreBookmarks (command sync))).
    set (s2 := if enable then after (enableSync this s1) else s1).
    assert (H2 : deferreds s2 = deferreds s /\ currentSync s2 = Some sync
                 /\ syncQueue s2 = rest
                 /\ enabled s2 = enabled s || negb (is_RestoreBookmarks (command sync))).
    { subst s2 enable. destruct (enabled s) eqn:He; simpl.
      - repeat split; try (destruct s; reflexivity). rewrite He1. reflexivity.
      - destruct (is_RestoreBookmarks (command sync)); simpl.
        + repeat split; try (destruct s; reflexivity). exact He1.
        + rewrite enableSync_run. repeat split; destruct s; reflexivity. }
    destruct H2 as (Hd2 & Hc2 & Hq2 & He2).
    do 3 eexists. split; [reflexivity|]. cbn [deferreds with_deferreds currentSync].
    split; [reflexivity|]. split; [exact Hc2|].
    assert (Hpre : Forall (fun ev => is_settlement ev = false)
                     ([InterfaceRefresh None (Some (type sync))]
                      ++ processSync_calls this sync
                      ++ (if enable then emitted (enableSync this s1) else []))).
    { constructor; [reflexivity|]. apply Forall_app. split.
      - apply no_settlement_map. reflexivity.
      - destruct enable; [|constructor].
        destruct (aside_enableSync this s1) as (_ & _ & H). exact H. }
    assert (Hpost : Forall (fun ev => is_settlement ev = false)
                      [InterfaceRefresh (Store_get SyncEnabled (store s2)) None]).
    { repeat constructor. }
    destruct (Hone _ _ Hpre Hpost) as [H1 H2].
    rewrite <- !app_assoc in H1, H2. simpl in H1, H2.
    split; [exact H1|]. split; [exact H2|].
    split; [left; exact Hq2|].
    cbn [processed]. rewrite Ht, Hr.
    replace (enabled (with_deferreds _ s2)) with (enabled s2) by reflexivity.
    rewrite He2. replace (syncQueue (with_deferreds _ s2)) with (syncQueue s2) by reflexivity.
    rewrite Hq2. reflexivity.
Qed.

Lemma last_cons_nonempty {A} (x : A) (l : list A) (y : A) :
  last l = Some y -> last (x :: l) = Some y.
Proof. destruct l; [discriminate|]. intros H. exact H. Qed.

(** The sync the loop ends on, and its completion signal. *)
Lemma drain_loop_signals (this : SyncEngineService) :
  forall (fuel : nat) (vars : Vars.t) (s : Engine),
    length (syncQueue s) <= fuel ->
    syncQueue s <> [] ->
    List.NoDup (map deferred (syncQueue s)) ->
    Forall (fun sync => deferreds s !! deferred sync = Some Pending) (syncQueue s) ->
    let l := promiseWhile fuel doActionUntil (action this) vars s in
    let done := processed this (enabled s) (syncQueue s) in
    exists current,
      last done = Some current
      /\ In current (syncQueue s)
      /\ currentSync (after l) = Some current
      /\ match outcome l with
         | Fulfilled _ =>
             settlements (deferred current) (emitted l)
             = [DeferredResolve (deferred current)]
             /\ deferreds (after l) !! deferred current = Some Resolved
         | Rejected err =>
             type current <> Cancel
             /\ processSync_all this current = Rejected err
             /\ settlements (deferred current) (emitted l) = []
             /\ deferreds (after l) !! deferred current = Some Pending
         end.
Proof.
  induction fuel as [|fuel IH]; intros vars s Hlen Hne Hnd Hpend;
    destruct (syncQueue s) as [|sync rest] eqn:Hq;
    try congruence; try (simpl in Hlen; lia).
  cbv zeta. rewrite (promiseWhile_round this fuel vars s sync rest Hq).
  simpl in Hlen. inversion Hnd as [|? ? Hnotin Hnd']; subst.
  inversion Hpend as [|? ? Hp Hpend']; subst.
  destruct (SyncType_eqb (type sync) Cancel) eqn:Ht.
  2: destruct (processSync_all this sync) as [results|err] eqn:Hr.
  3: { (* a provider rejects the sync *)
    pose proof Ht as Ht'. apply SyncType_eqb_neq in Ht'.
    unfold then_. rewrite (action_rejected this vars s sync rest err Hq Ht' Hr).
    cbn [outcome after emitted processed]. rewrite Ht, Hr.
    exists sync. split; [reflexivity|]. split; [left; reflexivity|].
    split; [reflexivity|]. split; [exact Ht'|]. split; [exact Hr|].
    split; [|destruct s; exact Hp].
    apply settlements_none. constructor; [reflexivity|].
    apply no_settlement_map. reflexivity. }
  all: assert (Hok : type sync = Cancel
                     \/ exists results, processSync_all this sync = Fulfilled results)
         by (first [left; apply SyncType_eqb_eq; exact Ht | right; eexists; eassumption]);
       destruct (round_completed this vars s sync rest Hq Hok)
         as (vars' & s' & calls & Ha & Hd & Hc & Hs1 & Hs2 & Hq' & Hproc);
       rewrite Hproc; unfold then_; rewrite Ha;
       destruct (syncQueue s') as [|sync' rest'] eqn:Hq1.
  all: try (rewrite (promiseWhile_done this fuel vars' s' Hq1);
            cbn [outcome after emitted processed]; rewrite app_nil_r;
            exists sync; split; [reflexivity|]; split; [left; reflexivity|];
            split; [exact Hc|]; split; [exact Hs1|];
            rewrite Hd; apply settle_pending; exact Hp).
  all: destruct Hq' as [Hq'|Hq']; [|discriminate]; rewrite <- Hq1.
  all: assert (Hpend1 : Forall (fun x => deferreds s' !! deferred x = Some Pending)
                          (syncQueue s'))
         by (rewrite Hq1, Hq'; rewrite List.Forall_forall in Hpend' |- *; intros x Hx;
             rewrite Hd, settle_other; [apply Hpend'; exact Hx|];
             intros Heq; apply Hnotin; rewrite Heq; apply in_map; exact Hx).
  all: assert (Hlen1 : length (syncQueue s') <= fuel) by (rewrite Hq1, Hq'; lia).
  all: assert (Hne1 : syncQueue s' <> []) by (rewrite Hq1; discriminate).
  all: assert (Hnd1 : List.NoDup (map deferred (syncQueue s'))) by (rewrite Hq1, Hq'; exact Hnd').
  all: destruct (IH vars' s' Hlen1 Hne1 Hnd1 Hpend1)
         as (current & Hlast & Hin & Hcur & Hout);
       destruct (promiseWhile fuel _ _ vars' s') as [o s2 calls2];
       cbn [outcome after emitted] in *;
       assert (Hdiff : deferred current <> deferred sync)
         by (intros Heq; apply Hnotin; rewrite <- Heq; apply in_map;
             rewrite Hq1, Hq' in Hin; exact Hin);
       exists current; split; [apply last_cons_nonempty; exact Hlast|];
       split; [right; rewrite Hq1, Hq' in Hin; exact Hin|];
       split; [exact Hcur|];
       rewrite settlements_app, (Hs2 _ Hdiff); exact Hout.
Qed.

Lemma last_syncChange (this : SyncEngineService) (done : list Sync) :
  forall (updateRemote : bool) (sync : Sync),
    fold_left (next_updateRemote this) done updateRemote = true ->
    last done = Some sync ->
    syncChange this sync = true.
Proof.
  induction done as [|x done IH]; intros updateRemote sync Hf Hl; [discriminate|].
  destruct done as [|y done].
  - injection Hl as <-. simpl in Hf. unfold next_updateRemote in Hf.
    destruct (syncChange this x); [reflexivity|discriminate].
  - apply (IH (next_updateRemote this updateRemote x)); assumption.
Qed.

Lemma settlements_cons (d : nat) (ev : Event) (calls : list Event) :
  settlements d (ev :: calls)
  = (if settles d ev then [ev] else []) ++ settlements d calls.
Proof. unfold settlements. simpl. destruct (settles d ev); reflexivity. Qed.

#[local] Arguments settlements : simpl never.

(** C3, as the code has it.  A drain that starts on a queue of syncs with
    distinct, pending deferreds and is rejected was rejected in one of two
    ways, and [failed], the last sync it took off the queue, is the sync
    handed to [handleFailedSync].  Either a provider rejected [failed] in
    its round: then the deferred of [failed] is settled by exactly one
    call, the [reject] of [handleFailedSync], it ends rejected and never
    resolved, and, outside the offline branch, the error it is rejected
    with is the error the drain is rejected with.  Or the round of
    [failed] was completed and the remote commit failed afterwards: then
    the deferred of [failed] was resolved at the end of its round, the
    later [reject] is ignored, and the deferred stays resolved while the
    drain is rejected with the final error. *)
Theorem failed_sync_signal (this : SyncEngineService) (s : Engine) :
  currentSync s = None ->
  syncQueue s <> [] ->
  has_bookmark_provider this = true ->
  List.NoDup (map deferred (syncQueue s)) ->
  Forall (fun sync => deferreds s !! deferred sync = Some Pending) (syncQueue s) ->
  let r := processSyncQueue this s in
  let done := processed this (enabled s) (syncQueue s) in
  forall final : Error,
    outcome r = Rejected final ->
    exists (failed : Sync) (rejected : Error),
      last done = Some failed
      /\ ((exists err,
             type failed <> Cancel
             /\ processSync_all this failed = Rejected err
             /\ settlements (deferred failed) (emitted r)
                = [DeferredReject (deferred failed) rejected]
             /\ deferreds (after r) !! deferred failed = Some (RejectedWith rejected)
             /\ (offline_branch failed err = false -> rejected = final))
          \/ (syncChange this failed = true
              /\ remote_commits (emitted r) <> []
              /\ settlements (deferred failed) (emitted r)
                 = [DeferredResolve (deferred failed);
                    DeferredReject (deferred failed) rejected]
              /\ deferreds (after r) !! deferred failed = Some Resolved)).
Proof.
  intros Hc Hq Hb Hnd Hpend r done final. subst r.
  pose proof (drain_loop this Hb (length (syncQueue s)) (Vars.mk None false) s
                (le_n _) ltac:(discriminate)) as H.
  pose proof (drain_loop_signals this (length (syncQueue s)) (Vars.mk None false) s
                (le_n _) Hq Hnd Hpend) as G.
  cbv zeta in H, G. fold done in H, G. cbn [Vars.updateRemote] in H.
  destruct (processSyncQueue this s) as [result s' calls] eqn:E.
  cbn [outcome after emitted]. revert E.
  unfold processSyncQueue. rewrite (guard_passes s Hc Hq).
  unfold finally_, catch_, then_ at 1 2. cbn [storeSvc_get get].
  assert (Hpre : exists pre,
             (if truthy (Store_get SyncEnabled (store s))
              then platformSvc_automaticUpdates_Stop else resolve tt) s
             = mkRun (Fulfilled tt) s pre
             /\ Forall (fun ev => is_settlement ev = false) pre).
  { destruct (truthy _); eexists; (split; [reflexivity|]);
      repeat constructor. }
  destruct Hpre as (pre & -> & Hpre).
  assert (Hfin : forall s0, exists s2 post,
             (modify (with_currentSync None);;
              let* cachedSyncEnabled := storeSvc_get SyncEnabled in
              if truthy cachedSyncEnabled then platformSvc_automaticUpdates_Start
              else resolve tt) s0
             = mkRun (Fulfilled tt) s2 post
             /\ deferreds s2 = deferreds s0
             /\ Forall (fun ev => is_settlement ev = false) post).
  { intros s0. unfold then_, modify, storeSvc_get, get. simpl.
    destruct (truthy _); do 2 eexists; (split; [reflexivity|]);
      (split; [reflexivity|]); repeat constructor. }
  unfold then_ at 1.
  destruct (promiseWhile _ _ _ _ s) as [[vars'|err] s1 calls1];
    cbn [outcome after emitted] in H, G;
    destruct H as (Hlc & Hla & Hlo);
    destruct G as (current & Hlast & _ & Hcur & Hsig).
  - destruct Hlo as [Hflag Hdata]. destruct Hsig as [Hs Hd].
    destruct (Vars.updateRemote vars') eqn:Hu; cbn [negb].
    + destruct (Vars.processedBookmarksData vars') as [d|];
        [|exfalso; apply Hdata; reflexivity].
      unfold apiSvc_updateBookmarks, then_ at 1.
      destruct (apiSvc_updateBookmarks_response this (encryptedBookmarks d))
        as [response|err].
      * cbn [storeSvc_set].
        match goal with |- context [match ?f ?s0 with mkRun _ _ _ => _ end] =>
          destruct (Hfin s0) as (s2 & post & -> & _ & _) end.
        intros [= <- <- <-]. discriminate.
      * unfold then_ at 1 2, get, provider_handleUpdateRemoteFailed.
        rewrite q_all_calls. cbn [throw].
        unfold then_ at 1 2, get. rewrite Hcur.
        destruct (handleFailedSync_settles this current err s1)
          as (final' & rejected & Ho & _ & Hds & Hev).
        destruct (handleFailedSync this (Some current) err s1)
          as [o s2 calls2]; cbn [outcome after emitted] in *. subst o.
        cbn [throw].
        match goal with |- context [match ?f ?s0 with mkRun _ _ _ => _ end] =>
          destruct (Hfin s0) as (s3 & post & -> & Hd3 & Hpost) end.
        intros [= <- <- <-] [= <-].
        exists current, rejected. split; [exact Hlast|]. right.
        split; [apply (last_syncChange this done false current);
                [symmetry; exact Hflag|exact Hlast]|].
        split.
        { measure. rewrite Hlc. simpl. intros Hnil.
          apply (f_equal (@length Event)) in Hnil. rewrite !length_app in Hnil.
          simpl in Hnil. lia. }
        split.
        { rewrite !settlements_app, settlements_cons, !settlements_app.
          rewrite (settlements_none _ pre Hpre), Hs, (settlements_none _ post Hpost).
          rewrite (settlements_none _ (map _ (providers this)))
            by (apply no_settlement_map; reflexivity).
          rewrite <- (settlements_filter _ calls2), Hev.
          unfold settlements at 2. simpl. rewrite Nat.eqb_refl. reflexivity. }
        rewrite Hd3, Hds, settle_settled; [exact Hd|]. rewrite Hd. discriminate.
    + cbn [resolve].
      match goal with |- context [match ?f ?s0 with mkRun _ _ _ => _ end] =>
        destruct (Hfin s0) as (s2 & post & -> & _ & _) end.
      intros [= <- <- <-]. discriminate.
  - destruct Hsig as (Htype & Hrej & Hs & Hd).
    unfold then_ at 1 2, get. rewrite Hcur.
    destruct (handleFailedSync_settles this current err s1)
      as (final' & rejected & Ho & Hoff & Hds & Hev).
    destruct (handleFailedSync this (Some current) err s1)
      as [o s2 calls2]; cbn [outcome after emitted] in *. subst o.
    cbn [throw].
    match goal with |- context [match ?f ?s0 with mkRun _ _ _ => _ end] =>
      destruct (Hfin s0) as (s3 & post & -> & Hd3 & Hpost) end.
    intros [= <- <- <-] [= <-].
    exists current, rejected. split; [exact Hlast|]. left.
    exists err. split; [exact Htype|]. split; [exact Hrej|].
    split.
    { rewrite !settlements_app.
      rewrite (settlements_none _ pre Hpre), Hs, (settlements_none _ post Hpost).
      rewrite <- (settlements_filter _ calls2), Hev.
      unfold settlements. simpl. rewrite Nat.eqb_refl. reflexivity. }
    split; [|exact Hoff].
    rewrite Hd3, Hds. apply settle_pending. exact Hd.
Qed.

(** ** The claims about whole drains *)



(** C3 in a drain whose remote commit fails.  A remote change is queued
    with sync enabled, the provider is fulfilled and asks for a remote
    update, and the remote commit then fails because the network is
    offline.  The drain is rejected with a [SyncUncommittedException],
    but the sync's deferred was resolved at the end of its round (l.319),
    before the commit: the [reject] that [handleFailedSync] makes
    afterwards (l.246-249) comes too late, and the deferred stays
    resolved. *)
Lemma failed_commit_leaves_deferred_resolved :
  let this := example_service process_update commit_offline in
  let r := processSyncQueue this remote_queued in
  outcome r = Rejected (Exception SyncUncommittedException (Some offline))
  /\ settlements 0 (emitted r) = [DeferredResolve 0; DeferredReject 0 offline]
  /\ remote_commits (emitted r) = [UpdateBookmarks "encrypted"]
  /\ deferreds remote_queued !! 0 = Some Pending
  /\ deferreds (after r) !! 0 = Some Resolved.
Proof. repeat split. Qed.

Lemma failed_sync_signal_witness :
  let this := example_service process_update commit_offline in
  exists (failed : Sync) (rejected : Error),
    last (processed this (enabled remote_queued) (syncQueue remote_queued))
    = Some failed
    /\ deferreds (after (processSyncQueue this remote_queued)) !! deferred failed
       = Some Resolved.
Proof.
  intros this.
  destruct (failed_sync_signal this remote_queued)
    with (final := Exception SyncUncommittedException (Some offline))
    as (failed & rejected & Hlast & [(err & _ & Hr & _)|(_ & _ & _ & Hd)]).
  - reflexivity.
  - discriminate.
  - reflexivity.
  - repeat constructor. intros [].
  - repeat constructor.
  - reflexivity.
  - exfalso. injection Hlast as <-. discriminate Hr.
  - exists failed, rejected. split; [exact Hlast|exact Hd].
Defined.

(** C7 in a drain.  A remote change is queued with sync enabled, the
    provider is fulfilled and asks for a remote update, and the remote
    commit is rejected with a [NoDataFoundException].  The failed sync is
    not of type [Local], the error is a [NoDataFoundException] and sync is
    enabled when [handleFailedSync] is called: the error is reclassified,
    sync is disabled and the drain is rejected with the
    [SyncRemovedException].  The sync's deferred, though, was resolved at
    the end of its round: [reject] is called on it with the
    [SyncRemovedException] and ignored, and the deferred stays
    resolved. *)
Lemma no_data_on_commit_leaves_deferred_resolved :
  let this := example_service process_update commit_no_data in
  let removed := Exception SyncRemovedException (Some no_data) in
  let r := processSyncQueue this remote_queued in
  type remote_sync <> Local
  /\ enabled remote_queued = true
  /\ outcome r = Rejected removed
  /\ enabled (after r) = false
  /\ remote_commits (emitted r) = [UpdateBookmarks "encrypted"]
  /\ settlements 0 (emitted r) = [DeferredResolve 0; DeferredReject 0 removed]
  /\ deferreds remote_queued !! 0 = Some Pending
  /\ deferreds (after r) !! 0 = Some Resolved.
Proof. repeat split. discriminate. Qed.

(** C6.  Whatever the queue held before, queuing a Cancel leaves it as
    the only queued sync.  The loop of a drain that finds this queue takes
    one round: it runs [disableSync] for the Cancel and resolves the
    Cancel's deferred, and the loop is over with the queue empty and sync
    disabled.  A drain started on this queue with no sync in flight is
    fulfilled after that single round and leaves no sync in flight; with
    [runSync] it is [queueSync] itself that runs this drain. *)
Theorem Cancel_empties_queue_and_disables (this : SyncEngineService) (s : Engine)
    (cancel : Sync) :
  type cancel = Cancel ->
  let queued := after (queueSync this (Some cancel) false s) in
  let sync := queued_sync this cancel (nextDeferred s) in
  let disabling :=
    disableSync this (with_currentSync (Some sync) (with_syncQueue [] queued)) in
  syncQueue queued = [sync]
  /\ type sync = Cancel
  /\ (forall (fuel : nat) (vars : Vars.t),
        let l := promiseWhile (S fuel) doActionUntil (action this) vars queued in
        outcome l = Fulfilled (Vars.mk (Vars.processedBookmarksData vars) false)
        /\ emitted l
           = [InterfaceRefresh None (Some Cancel)]
             ++ emitted disabling
             ++ [DeferredResolve (deferred sync);
                 InterfaceRefresh (Store_get SyncEnabled (store (after l))) None]
        /\ syncQueue (after l) = []
        /\ enabled (after l) = false
        /\ deferreds (after l) !! deferred sync = Some Resolved)
  /\ (currentSync s = None ->
      let r := processSyncQueue this queued in
      outcome r = Fulfilled tt
      /\ emitted r
         = (if enabled s then [AutomaticUpdatesStop] else [])
           ++ [InterfaceRefresh None (Some Cancel)]
           ++ emitted disabling
           ++ [DeferredResolve (deferred sync);
               InterfaceRefresh (Store_get SyncEnabled (store (after r))) None]
      /\ syncQueue (after r) = []
      /\ currentSync (after r) = None
      /\ enabled (after r) = false
      /\ deferreds (after r) !! deferred sync = Some Resolved
      /\ after (queueSync this (Some cancel) true s) = after r
      /\ emitted (queueSync this (Some cancel) true s) = emitted r).
Proof.
  intros Ht queued sync disabling. subst queued disabling.
  rewrite (queueSync_Cancel this cancel s Ht). cbn [after].
  assert (Hts : type sync = Cancel) by exact Ht.
  split; [reflexivity|]. split; [exact Hts|]. split.
  - intros fuel vars. cbv zeta.
    destruct (loop_Cancel this fuel vars (Cancel_queued this cancel s) sync []
                eq_refl Hts (or_intror eq_refl)) as (-> & Hq & He).
    cbn [outcome emitted after]. split; [reflexivity|]. split; [reflexivity|].
    split; [exact Hq|]. split; [exact He|].
    cbn [deferreds with_deferreds]. apply settle_pending. apply lookup_insert_eq.
  - intros Hc. cbv zeta.
    destruct (queueSync_Cancel_runs_drain this cancel s Ht) as [Hafter Hcalls].
    destruct (drain_Cancel this (Cancel_queued this cancel s) sync []
                Hc eq_refl Hts (or_intror eq_refl))
      as (Ho & He & Ha & Hq & Hcur & Hen).
    split; [exact Ho|]. split; [exact He|]. split; [exact Hq|].
    split; [exact Hcur|]. split; [exact Hen|]. split; [|split; assumption].
    rewrite Ha. cbn [deferreds with_currentSync with_deferreds].
    apply settle_pending. apply lookup_insert_eq.
Qed.

Lemma Cancel_empties_queue_and_disables_witness :
  let this := example_service process_update commit_ok in
  let r := queueSync this (Some cancel_sync) true remote_then_local in
  syncQueue (after r) = [] /\ enabled (after r) = false
  /\ currentSync (after r) = None.
Proof.
  intros this r.
  destruct (Cancel_empties_queue_and_disables this remote_then_local cancel_sync
              eq_refl)
    as (_ & _ & _ & Hdrain).
  destruct (Hdrain eq_refl) as (_ & _ & Hq & Hcur & Hen & _ & Hafter & _).
  subst r. rewrite Hafter. split; [exact Hq|]. split; [exact Hen|exact Hcur].
Defined.

(** C10.  A round of the drain loop for a sync that is not a Cancel and
    whose command is not [RestoreBookmarks]: when the providers are all
    fulfilled and the persisted [SyncEnabled] flag is false, the round
    runs [enableSync] (it writes [SyncEnabled := true], starts the periodic
    polling and calls [enable()] on every provider) and only then resolves
    the sync's deferred; the round ends with sync enabled.  When the sync
    is at the head of the queue of a drain that starts, these are the
    first calls the drain makes. *)
Theorem round_enables_sync (this : SyncEngineService) (vars : Vars.t) (s : Engine)
    (sync : Sync) (rest : list Sync) (results : list SyncProcessResult) :
  syncQueue s = sync :: rest ->
  type sync <> Cancel ->
  command sync <> Some RestoreBookmarks ->
  processSync_all this sync = Fulfilled results ->
  enabled s = false ->
  let s1 := with_currentSync (Some sync) (with_syncQueue rest s) in
  let r := action this vars s in
  (exists vars', outcome r = Fulfilled vars')
  /\ emitted r
     = [InterfaceRefresh None (Some (type sync))]
       ++ processSync_calls this sync
       ++ emitted (enableSync this s1)
       ++ [DeferredResolve (deferred sync);
           InterfaceRefresh (Some (VBool true)) None]
  /\ emitted (enableSync this s1)
     = [StoreSet SyncEnabled (VBool true); AutomaticUpdatesStart]
       ++ map ProviderEnable (providers this)
  /\ after r
     = with_deferreds (settle (deferred sync) Resolved (deferreds s))
         (after (enableSync this s1))
  /\ enabled (after r) = true
  /\ (currentSync s = None ->
      exists later,
        emitted (processSyncQueue this s)
        = emitted (action this (Vars.mk None false) s) ++ later).
Proof.
  intros Hq Ht Hcmd Hr He s1 r. subst r.
  assert (Hfirst : currentSync s = None ->
            exists later,
              emitted (processSyncQueue this s)
              = emitted (action this (Vars.mk None false) s) ++ later).
  { intros Hc. destruct (drain_first_round this s sync rest Hc Hq) as [later H].
    rewrite He in H. exists later. exact H. }
  rewrite (action_fulfilled this vars s sync rest results Hq Ht Hr).
  fold s1. rewrite He.
  assert (Hrestore : is_RestoreBookmarks (command sync) = false).
  { destruct (command sync) as [[|tag]|]; [congruence|reflexivity|reflexivity]. }
  rewrite Hrestore. cbn [negb andb outcome emitted after].
  rewrite enableSync_run. cbn [after emitted].
  split; [eexists; reflexivity|]. repeat split. exact Hfirst.
Qed.

Lemma round_enables_sync_witness :
  let this := example_service process_update commit_ok in
  enabled first_sync_queued = false
  /\ enabled (after (action this (Vars.mk None false) first_sync_queued)) = true.
Proof.
  intros this. split; [reflexivity|].
  apply (round_enables_sync this (Vars.mk None false) first_sync_queued remote_sync []
           [mkResult example_data (Some true)]);
    [reflexivity|discriminate|discriminate|reflexivity|reflexivity].
Defined.

(** * Looking for updates, and running a sync on demand *)

(** ** checkForUpdates *)

Lemma checkForUpdates_run (remote : UpdateCheck) (s : Engine)
    (response : string) (stored latest : Z) :
  apiSvc_getBookmarksLastUpdated_response remote = Fulfilled response ->
  getTime (new_Date remote (Store_get LastUpdated (store s))) = Some stored ->
  getTime (new_Date remote (Some (VString response))) = Some latest ->
  checkForUpdates remote s = mkRun (Fulfilled (negb (Z.eqb stored latest))) s [].
Proof.
  intros Hr Hs Hl.
  unfold checkForUpdates, then_, storeSvc_get, get, apiSvc_getBookmarksLastUpdated.
  rewrite Hr. unfold getTime_differs, toISOString, Date_not. rewrite Hs, Hl.
  simpl. destruct (Z.eqb stored latest); reflexivity.
Qed.

(** X1.  When the stored [LastUpdated] and the [lastUpdated] of the
    response are both valid dates, [checkForUpdates] is fulfilled with
    [true] exactly when their time values differ: two different strings
    for the same instant are no update.  It reads only: the engine is
    left as it was and no call is made. *)
Theorem checkForUpdates_compares_time_values (remote : UpdateCheck) (s : Engine)
    (response : string) (stored latest : Z) :
  apiSvc_getBookmarksLastUpdated_response remote = Fulfilled response ->
  getTime (new_Date remote (Store_get LastUpdated (store s))) = Some stored ->
  getTime (new_Date remote (Some (VString response))) = Some latest ->
  checkForUpdates remote s = mkRun (Fulfilled (negb (Z.eqb stored latest))) s []
  /\ (outcome (checkForUpdates remote s) = Fulfilled true <-> stored <> latest).
Proof.
  intros Hr Hs Hl.
  rewrite (checkForUpdates_run remote s response stored latest Hr Hs Hl).
  split; [reflexivity|]. cbn [outcome].
  destruct (Z.eqb_spec stored latest) as [Heq|Hne]; simpl.
  - split; [discriminate|congruence].
  - split; [auto|reflexivity].
Qed.

Lemma checkForUpdates_compares_time_values_witness :
  checkForUpdates (example_remote "2020-01-01T00:00:01.000Z") synced_idle
  = mkRun (Fulfilled true) synced_idle [].
Proof.
  apply (checkForUpdates_compares_time_values
           (example_remote "2020-01-01T00:00:01.000Z") synced_idle
           "2020-01-01T00:00:01.000Z" 1577836800000 1577836801000);
    reflexivity.
Defined.

(** X2.  When the stored [LastUpdated] is no valid date (nothing was
    stored, or a string that is no date) or the [lastUpdated] of the
    response is none, the time values differ, updates count as
    available, and building the log line calls [toISOString] on the
    invalid date: [checkForUpdates] is rejected with a [RangeError]
    instead of being fulfilled with [true]. *)
Theorem checkForUpdates_invalid_date (remote : UpdateCheck) (s : Engine)
    (response : string) :
  apiSvc_getBookmarksLastUpdated_response remote = Fulfilled response ->
  getTime (new_Date remote (Store_get LastUpdated (store s))) = None
  \/ getTime (new_Date remote (Some (VString response))) = None ->
  checkForUpdates remote s = mkRun (Rejected (NativeError "RangeError")) s [].
Proof.
  intros Hr H.
  unfold checkForUpdates, then_, storeSvc_get, get, apiSvc_getBookmarksLastUpdated.
  rewrite Hr. unfold getTime_differs, toISOString, Date_not.
  destruct H as [H|H]; rewrite H.
  - reflexivity.
  - destruct (getTime (new_Date remote (Store_get LastUpdated (store s)))); reflexivity.
Qed.

Lemma checkForUpdates_invalid_date_witness :
  checkForUpdates (example_remote "2020-01-01T00:00:01.000Z") idle_enabled
  = mkRun (Rejected (NativeError "RangeError")) idle_enabled [].
Proof.
  apply (checkForUpdates_invalid_date
           (example_remote "2020-01-01T00:00:01.000Z") idle_enabled
           "2020-01-01T00:00:01.000Z");
    [reflexivity|left; reflexivity].
Defined.

(** ** executeSync *)

(** X3.  While sync is disabled [executeSync] is rejected with a
    [SyncDisabledException]; it looks for no update, queues nothing, runs
    no drain and makes no call. *)
Theorem executeSync_when_disabled (this : SyncEngineService) (remote : UpdateCheck)
    (s : Engine) :
  enabled s = false ->
  executeSync this remote s
  = mkRun (Rejected (Exception SyncDisabledException None)) s [].
Proof.
  intros H. unfold enabled in H.
  unfold executeSync, then_, storeSvc_get, get. rewrite H. reflexivity.
Qed.

Lemma executeSync_when_disabled_witness :
  executeSync (example_service process_update commit_ok)
    (example_remote "2020-01-01T00:00:01.000Z") idle_disabled
  = mkRun (Rejected (Exception SyncDisabledException None)) idle_disabled [].
Proof.
  apply (executeSync_when_disabled (example_service process_update commit_ok)
           (example_remote "2020-01-01T00:00:01.000Z") idle_disabled).
  reflexivity.
Defined.

Lemma executeSync_with_queue (this : SyncEngineService) (remote : UpdateCheck)
    (s : Engine) :
  enabled s = true ->
  syncQueue s <> [] ->
  executeSync this remote s = (processSyncQueue this;; resolve (Some tt)) s.
Proof.
  intros H Hq. unfold enabled in H.
  unfold executeSync, then_ at 1 2 3, storeSvc_get, get. rewrite H.
  cbn [negb]. destruct (syncQueue s) as [|x q] eqn:E; [congruence|].
  cbn [length Nat.eqb resolve chained]. unfold then_.
  destruct (processSyncQueue this s) as [[[]|err] s1 calls]; reflexivity.
Qed.

(** X4.  While sync is enabled and syncs are queued, [executeSync] does
    not look for updates: whatever the remote side would answer, it is
    the drain of the queue, with the drain's calls, its end state and its
    settlement. *)
Theorem executeSync_drains_queued_syncs (this : SyncEngineService)
    (remote : UpdateCheck) (s : Engine) :
  enabled s = true ->
  syncQueue s <> [] ->
  let drain := processSyncQueue this s in
  let r := executeSync this remote s in
  after r = after drain
  /\ emitted r = emitted drain
  /\ outcome r = match outcome drain with
                 | Fulfilled _ => Fulfilled (Some tt)
                 | Rejected err => Rejected err
                 end.
Proof.
  intros H Hq. cbv zeta. rewrite (executeSync_with_queue this remote s H Hq).
  unfold then_.
  destruct (processSyncQueue this s) as [[[]|err] s1 calls]; simpl;
    rewrite ?app_nil_r; auto.
Qed.

Lemma executeSync_drains_queued_syncs_witness :
  let this := example_service process_update commit_ok in
  emitted (executeSync this (mkUpdateCheck (Rejected offline) example_parse)
             remote_queued)
  = emitted (processSyncQueue this remote_queued).
Proof.
  intros this.
  apply (executeSync_drains_queued_syncs this
           (mkUpdateCheck (Rejected offline) example_parse) remote_queued);
    [reflexivity|discriminate].
Defined.

(** X5.  While sync is enabled, with nothing queued and the stored and the
    remote [LastUpdated] at the same instant, [executeSync] is fulfilled
    and has done nothing: no sync is queued, no call is made. *)
Theorem executeSync_no_updates (this : SyncEngineService) (remote : UpdateCheck)
    (s : Engine) (response : string) (time : Z) :
  enabled s = true ->
  syncQueue s = [] ->
  apiSvc_getBookmarksLastUpdated_response remote = Fulfilled response ->
  getTime (new_Date remote (Store_get LastUpdated (store s))) = Some time ->
  getTime (new_Date remote (Some (VString response))) = Some time ->
  executeSync this remote s = mkRun (Fulfilled (Some tt)) s [].
Proof.
  intros H Hq Hr Hs Hl. unfold enabled in H.
  unfold executeSync, then_ at 1 2 3, storeSvc_get, get. rewrite H.
  cbn [negb]. rewrite Hq. cbn [length Nat.eqb].
  rewrite (checkForUpdates_run remote s response time time Hr Hs Hl).
  rewrite Z.eqb_refl. cbn [negb resolve chained]. unfold then_.
  rewrite drain_guard by (right; exact Hq). reflexivity.
Qed.

Lemma executeSync_no_updates_witness :
  executeSync (example_service process_update commit_ok)
    (example_remote "2020-01-01T00:00:00.000Z") synced_idle
  = mkRun (Fulfilled (Some tt)) synced_idle [].
Proof.
  apply (executeSync_no_updates (example_service process_update commit_ok)
           (example_remote "2020-01-01T00:00:00.000Z") synced_idle
           "2020-01-01T00:00:00.000Z" 1577836800000);
    reflexivity.
Defined.

Lemma checkForUpdates_reads_only (remote : UpdateCheck) (s : Engine) :
  after (checkForUpdates remote s) = s /\ emitted (checkForUpdates remote s) = [].
Proof.
  unfold checkForUpdates, then_, storeSvc_get, get, apiSvc_getBookmarksLastUpdated.
  destruct (apiSvc_getBookmarksLastUpdated_response remote) as [response|err];
    [|split; reflexivity].
  unfold getTime_differs, toISOString, Date_not. cbn [orb].
  destruct (getTime (new_Date remote (Store_get LastUpdated (store s)))) as [a|];
    destruct (getTime (new_Date remote (Some (VString response)))) as [b|];
    cbn; try (split; reflexivity).
  destruct (Z.eqb a b); split; reflexivity.
Qed.

(** X6.  While sync is enabled and nothing is queued, a rejected update
    check is the end of [executeSync]: it is rejected with the error of
    the check (the error of the remote call, or the [RangeError] of an
    invalid date), nothing is queued, no drain is run and no call is
    made. *)
Theorem executeSync_passes_on_a_failed_update_check (this : SyncEngineService)
    (remote : UpdateCheck) (s : Engine) (err : Error) :
  enabled s = true ->
  syncQueue s = [] ->
  outcome (checkForUpdates remote s) = Rejected err ->
  executeSync this remote s = mkRun (Rejected err) s [].
Proof.
  intros He Hq Ho. unfold enabled in He.
  destruct (checkForUpdates_reads_only remote s) as [Ha Hev].
  unfold executeSync, then_ at 1 2, storeSvc_get, get. rewrite He.
  cbn [negb]. rewrite Hq. cbn [length Nat.eqb].
  destruct (checkForUpdates remote s) as [o s1 calls].
  cbn [outcome after emitted] in *. subst. reflexivity.
Qed.

Lemma executeSync_passes_on_a_failed_update_check_witness :
  executeSync (example_service process_update commit_ok)
    (mkUpdateCheck (Rejected offline) example_parse) synced_idle
  = mkRun (Rejected offline) synced_idle [].
Proof.
  apply (executeSync_passes_on_a_failed_update_check
           (example_service process_update commit_ok)
           (mkUpdateCheck (Rejected offline) example_parse) synced_idle offline);
    reflexivity.
Defined.

Lemma executeSync_queues_update (this : SyncEngineService) (remote : UpdateCheck)
    (s : Engine) (response : string) (stored latest : Z) :
  enabled s = true ->
  syncQueue s = [] ->
  apiSvc_getBookmarksLastUpdated_response remote = Fulfilled response ->
  getTime (new_Date remote (Store_get LastUpdated (store s))) = Some stored ->
  getTime (new_Date remote (Some (VString response))) = Some latest ->
  stored <> latest ->
  executeSync this remote s
  = match processSyncQueue this (update_queued this s) with
    | mkRun result s1 calls =>
        match deferreds s1 !! nextDeferred s, result with
        | Some (RejectedWith err), _ => mkRun (Rejected err) s1 calls
        | _, Rejected err => mkRun (Rejected err) s1 calls
        | Some Resolved, _ =>
            match processSyncQueue this s1 with
            | mkRun (Fulfilled _) s2 calls2 =>
                mkRun (Fulfilled (Some tt)) s2 (calls ++ calls2)
            | mkRun (Rejected err) s2 calls2 => mkRun (Rejected err) s2 (calls ++ calls2)
            end
        | _, _ => mkRun (Fulfilled None) s1 calls
        end
    end.
Proof.
  intros H Hq Hr Hs Hl Hne. unfold enabled in H.
  unfold executeSync, then_ at 1 2 3, storeSvc_get, get. rewrite H.
  cbn [negb]. rewrite Hq. cbn [length Nat.eqb].
  rewrite (checkForUpdates_run remote s response stored latest Hr Hs Hl).
  apply Z.eqb_neq in Hne. rewrite Hne. cbn [negb].
  unfold queueSync, then_ at 1 2 3 4 5 6, storeSvc_get, get, q_defer, modify.
  rewrite H. cbn [negb resolve update_sync type SyncType_eqb].
  match goal with |- context [processSyncQueue this ?x] =>
    replace x with (update_queued this s)
      by (unfold update_queued, with_syncQueue; simpl; rewrite Hq; reflexivity)
  end.
  destruct (processSyncQueue this (update_queued this s)) as [result s1 calls].
  unfold then_, get. cbn [outcome after emitted].
  destruct (deferreds s1 !! nextDeferred s) as [[| |err]|];
    destruct result as [[]|err']; cbn [chained resolve throw app];
    rewrite ?app_nil_r; try reflexivity.
  all: unfold then_; destruct (processSyncQueue this s1) as [[[]|e] s2 c2]; simpl;
      rewrite ?app_nil_r; reflexivity.
Qed.

(** The closing block of a drain. *)
Lemma drain_finally (s : Engine) :
  (modify (with_currentSync None);;
   let* cachedSyncEnabled := storeSvc_get SyncEnabled in
   if truthy cachedSyncEnabled then platformSvc_automaticUpdates_Start
   else resolve tt) s
  = mkRun (Fulfilled tt) (with_currentSync None s)
      (if enabled s then [AutomaticUpdatesStart] else []).
Proof.
  unfold then_, modify, storeSvc_get, get, enabled. simpl.
  destruct (truthy _); reflexivity.
Qed.

(** The first step of a drain. *)
Lemma drain_opening (s : Engine) :
  (if truthy (Store_get SyncEnabled (store s))
   then platformSvc_automaticUpdates_Stop else resolve tt) s
  = mkRun (Fulfilled tt) s (if enabled s then [AutomaticUpdatesStop] else []).
Proof. unfold enabled. destruct (truthy _); reflexivity. Qed.

(** A drain whose first sync is rejected by a provider. *)
Lemma drain_first_rejected (this : SyncEngineService) (s : Engine) (sync : Sync)
    (rest : list Sync) (err : Error) :
  currentSync s = None ->
  syncQueue s = sync :: rest ->
  type sync <> Cancel ->
  processSync_all this sync = Rejected err ->
  let s1 := with_currentSync (Some sync) (with_syncQueue rest s) in
  let h := handleFailedSync this (Some sync) err s1 in
  processSyncQueue this s
  = mkRun (match outcome h with
           | Fulfilled innerErr => Rejected innerErr
           | Rejected e => Rejected e
           end)
      (with_currentSync None (after h))
      ((if enabled s then [AutomaticUpdatesStop] else [])
       ++ [InterfaceRefresh None (Some (type sync))] ++ processSync_calls this sync
       ++ emitted h
       ++ (if enabled (after h) then [AutomaticUpdatesStart] else [])).
Proof.
  intros Hc Hq Ht Hr s1 h. subst h.
  unfold processSyncQueue. rewrite guard_passes by congruence.
  unfold finally_, catch_, then_ at 1 2. cbn [storeSvc_get get].
  rewrite drain_opening. unfold then_ at 1. rewrite Hq. cbn [length].
  rewrite (promiseWhile_round this _ _ s sync rest Hq).
  unfold then_ at 1. rewrite (action_rejected this _ s sync rest err Hq Ht Hr).
  fold s1. cbv beta iota. unfold then_ at 1 2, get.
  change (currentSync s1) with (Some sync).
  destruct (handleFailedSync this (Some sync) err s1) as [[innerErr|e] s2 calls2];
    cbn [outcome after emitted throw]; rewrite drain_finally;
    rewrite ?app_nil_r, <- ?app_assoc; reflexivity.
Qed.

(** A drain of a single [Local] sync that every provider processes,
    while sync is enabled. *)
Lemma drain_one_Local (this : SyncEngineService) (s : Engine) (sync : Sync)
    (results : list SyncProcessResult) :
  currentSync s = None ->
  syncQueue s = [sync] ->
  type sync = Local ->
  enabled s = true ->
  processSync_all this sync = Fulfilled results ->
  processSyncQueue this s
  = mkRun (Fulfilled tt)
      (with_currentSync None
         (with_deferreds (settle (deferred sync) Resolved (deferreds s))
            (with_syncQueue [] s)))
      ([AutomaticUpdatesStop; InterfaceRefresh None (Some Local)]
       ++ processSync_calls this sync
       ++ [DeferredResolve (deferred sync);
           InterfaceRefresh (Store_get SyncEnabled (store s)) None;
           AutomaticUpdatesStart]).
Proof.
  intros Hc Hq Ht He Hr.
  assert (Htc : type sync <> Cancel) by (rewrite Ht; discriminate).
  unfold processSyncQueue. rewrite guard_passes by congruence.
  unfold finally_, catch_, then_ at 1 2. cbn [storeSvc_get get].
  rewrite drain_opening, He. unfold then_ at 1. rewrite Hq. cbn [length].
  rewrite (promiseWhile_round this _ _ s sync [] Hq).
  unfold then_ at 1. rewrite (action_fulfilled this _ s sync [] results Hq Htc Hr).
  rewrite He, Ht. cbn [negb andb SyncType_eqb Vars.updateRemote].
  rewrite promiseWhile_done by reflexivity.
  replace (if negb (combine_results results) then false else false) with false
    by (destruct (combine_results results); reflexivity).
  cbn [Vars.updateRemote negb resolve].
  rewrite drain_finally.
  replace (enabled _) with true by (rewrite <- He; destruct s; reflexivity).
  f_equal. rewrite ?app_nil_r, <- ?app_assoc. simpl. rewrite <- ?app_assoc.
  reflexivity.
Qed.

Lemma offline_branch_Local (sync : Sync) (err : Error) :
  type sync = Local -> offline_branch sync err = false.
Proof.
  intros H. unfold offline_branch. rewrite H. simpl. apply andb_false_r.
Qed.

(** X7.  While sync is enabled, with no sync in flight, nothing queued
    and a remote [LastUpdated] at another instant than the stored one,
    [executeSync] queues one sync of type [Local] and drains it.  The
    drain never issues a remote commit, whatever the providers answer.
    When every provider is fulfilled, the calls are the stop of the
    polling, the announcement of the [Local] sync, [processSync] on every
    provider, the resolution of the sync's deferred, the status refresh
    and the restart of the polling: the store is as it was (the engine
    itself does not write [LastUpdated]), the queue is empty, no sync is
    in flight, and [executeSync] is fulfilled.  When a provider is
    rejected, [executeSync] is rejected with the error the sync's
    deferred is rejected with. *)
Theorem executeSync_processes_Local_update (this : SyncEngineService)
    (remote : UpdateCheck) (s : Engine) (response : string) (stored latest : Z) :
  enabled s = true ->
  currentSync s = None ->
  syncQueue s = [] ->
  apiSvc_getBookmarksLastUpdated_response remote = Fulfilled response ->
  getTime (new_Date remote (Store_get LastUpdated (store s))) = Some stored ->
  getTime (new_Date remote (Some (VString response))) = Some latest ->
  stored <> latest ->
  let sync := queued_sync this update_sync (nextDeferred s) in
  let r := executeSync this remote s in
  remote_commits (emitted r) = []
  /\ (forall results,
        processSync_all this sync = Fulfilled results ->
        outcome r = Fulfilled (Some tt)
        /\ emitted r
           = [AutomaticUpdatesStop; InterfaceRefresh None (Some Local)]
             ++ processSync_calls this sync
             ++ [DeferredResolve (nextDeferred s);
                 InterfaceRefresh (Store_get SyncEnabled (store s)) None;
                 AutomaticUpdatesStart]
        /\ store (after r) = store s
        /\ syncQueue (after r) = []
        /\ currentSync (after r) = None
        /\ deferreds (after r) !! nextDeferred s = Some Resolved)
  /\ (forall err,
        processSync_all this sync = Rejected err ->
        exists final,
          outcome r = Rejected final
          /\ deferreds (after r) !! nextDeferred s = Some (RejectedWith final)
          /\ currentSync (after r) = None).
Proof.
  intros He Hc Hq Hr Hs Hl Hne sync r. subst r.
  rewrite (executeSync_queues_update this remote s response stored latest
             He Hq Hr Hs Hl Hne).
  assert (Hc' : currentSync (update_queued this s) = None) by exact Hc.
  assert (Hq' : syncQueue (update_queued this s) = [sync]) by reflexivity.
  assert (He' : enabled (update_queued this s) = true) by exact He.
  assert (Ht : type sync = Local) by reflexivity.
  assert (Htc : type sync <> Cancel) by (rewrite Ht; discriminate).
  assert (Hp : deferreds (update_queued this s) !! nextDeferred s = Some Pending)
    by apply lookup_insert_eq.
  destruct (processSync_all this sync) as [results|err] eqn:Hall.
  - rewrite (drain_one_Local this _ sync results Hc' Hq' Ht He' Hall).
    cbn [deferreds with_currentSync with_deferreds with_syncQueue].
    change (deferred sync) with (nextDeferred s).
    rewrite (settle_pending _ Resolved _ Hp).
    rewrite drain_guard by (right; reflexivity).
    cbn [outcome after emitted]. rewrite app_nil_r.
    split.
    + measure. destruct (background_quiet _ (background_processSync_calls this sync))
        as [Hbc _]. rewrite Hbc. reflexivity.
    + split.
      * intros results' _. repeat split.
        apply (settle_pending _ Resolved _ Hp).
      * intros err [=].
  - rewrite (drain_first_rejected this _ sync [] err Hc' Hq' Htc Hall).
    set (s1 := with_currentSync (Some sync) (with_syncQueue [] (update_queued this s))).
    destruct (handleFailedSync_settles this sync err s1)
      as (final & rejected & Ho & Hsame & Hd & _).
    specialize (Hsame (offline_branch_Local sync err Ht)). subst rejected.
    pose proof (emits_handleFailedSync this (Some sync) err s1) as Hbg.
    apply background_quiet in Hbg. destruct Hbg as [Hbc _].
    destruct (handleFailedSync this (Some sync) err s1) as [o s2 calls2].
    cbn [outcome after emitted] in *. subst o.
    cbn [deferreds with_currentSync]. rewrite Hd.
    change (deferred sync) with (nextDeferred s).
    assert (Hp1 : deferreds s1 !! nextDeferred s = Some Pending) by exact Hp.
    rewrite (settle_pending _ (RejectedWith final) _ Hp1).
    cbn [outcome after emitted]. rewrite He'.
    split.
    + measure. destruct (background_quiet _ (background_processSync_calls this sync))
        as [Hpc _]. rewrite Hpc, Hbc. destruct (enabled s2); reflexivity.
    + split; [intros results [=]|].
      intros err' _. exists final. repeat split.
      change (deferreds (with_currentSync None s2)) with (deferreds s2).
      rewrite Hd. apply (settle_pending _ (RejectedWith final) _ Hp1).
Qed.

Lemma executeSync_processes_Local_update_witness :
  let this := example_service process_update commit_ok in
  let r := executeSync this (example_remote "2020-01-01T00:00:01.000Z") synced_idle in
  remote_commits (emitted r) = []
  /\ outcome r = Fulfilled (Some tt)
  /\ store (after r) = store synced_idle.
Proof.
  intros this r.
  destruct (executeSync_processes_Local_update this
              (example_remote "2020-01-01T00:00:01.000Z") synced_idle
              "2020-01-01T00:00:01.000Z" 1577836800000 1577836801000)
    as (Hnone & Hok & _);
    [reflexivity|reflexivity|reflexivity|reflexivity|reflexivity|reflexivity
    |discriminate|].
  destruct (Hok [mkResult example_data (Some true)] eq_refl)
    as (Ho & _ & Hst & _).
  split; [exact Hnone|]. split; [exact Ho|exact Hst].
Defined.

(** * Failure recovery, branch by branch *)

Lemma handleFailedSync_disabled_run (this : SyncEngineService)
    (failedSync : Sync) (err : Error) (s : Engine) :
  enabled s = false ->
  offline_branch failedSync err = false ->
  handleFailedSync this (Some failedSync) err s
  = mkRun (Fulfilled (with_default_exception err))
      (with_deferreds
         (settle (deferred failedSync) (RejectedWith (with_default_exception err))
            (deferreds s)) s)
      [InterfaceRefresh None None; ExceptionHandler (with_default_exception err);
       InterfaceRefresh (Store_get SyncEnabled (store s)) None;
       DeferredReject (deferred failedSync) (with_default_exception err)].
Proof.
  intros He Hoff.
  unfold handleFailedSync. fold (offline_branch failedSync err). rewrite Hoff.
  fold (with_default_exception err).
  pose proof He as He'. unfold enabled in He'. simpl in He'.
  unfold then_. simpl. rewrite He'. simpl.
  destruct (checkIfDisableSyncOnError (with_default_exception err)).
  - rewrite (disableSync_when_disabled this s He). destruct s; reflexivity.
  - destruct s; reflexivity.
Qed.

(** X8.  While sync is disabled (and outside the offline branch)
    [handleFailedSync] recovers nothing: after the default-exception step
    and the report to the exception handler, the queue, the store and the
    current sync are left as they were, also for an error that would
    otherwise disable sync or rebuild the local data.  The failed sync's
    deferred is rejected with the error the promise is resolved with. *)
Theorem handleFailedSync_while_disabled (this : SyncEngineService)
    (failedSync : Sync) (err : Error) (s : Engine) :
  enabled s = false ->
  offline_branch failedSync err = false ->
  let final := with_default_exception err in
  let r := handleFailedSync this (Some failedSync) err s in
  outcome r = Fulfilled final
  /\ emitted r
     = [InterfaceRefresh None None; ExceptionHandler final;
        InterfaceRefresh (Store_get SyncEnabled (store s)) None;
        DeferredReject (deferred failedSync) final]
  /\ syncQueue (after r) = syncQueue s
  /\ store (after r) = store s
  /\ currentSync (after r) = currentSync s
  /\ deferreds (after r)
     = settle (deferred failedSync) (RejectedWith final) (deferreds s).
Proof.
  intros He Hoff. cbv zeta.
  rewrite (handleFailedSync_disabled_run this failedSync err s He Hoff).
  repeat split.
Qed.

Lemma handleFailedSync_while_disabled_witness :
  let r := handleFailedSync (example_service process_update commit_ok)
             (Some remote_sync) no_data remote_in_flight_disabled in
  outcome r = Fulfilled no_data
  /\ store (after r) = store remote_in_flight_disabled.
Proof.
  intros r.
  destruct (handleFailedSync_while_disabled (example_service process_update commit_ok)
              remote_sync no_data remote_in_flight_disabled eq_refl eq_refl)
    as (Ho & _ & _ & Hst & _).
  split; [exact Ho|exact Hst].
Defined.

Lemma handleFailedSync_Local_run (this : SyncEngineService)
    (failedSync : Sync) (err : Error) (s : Engine) :
  enabled s = true ->
  type failedSync = Local ->
  checkIfDisableSyncOnError (with_default_exception err) = false ->
  handleFailedSync this (Some failedSync) err s
  = mkRun (Fulfilled (with_default_exception err))
      (with_deferreds
         (settle (deferred failedSync) (RejectedWith (with_default_exception err))
            (deferreds s)) s)
      [InterfaceRefresh None None; ExceptionHandler (with_default_exception err);
       InterfaceRefresh (Store_get SyncEnabled (store s)) None;
       DeferredReject (deferred failedSync) (with_default_exception err)].
Proof.
  intros He Ht Hd.
  unfold handleFailedSync. fold (offline_branch failedSync err).
  rewrite (offline_branch_Local failedSync err Ht).
  fold (with_default_exception err).
  set (w := with_default_exception err) in *.
  assert (Hn : instanceof_NoDataFoundException w = false).
  { destruct w as [[]|]; try reflexivity. discriminate Hd. }
  unfold enabled in He. simpl in He.
  unfold then_. simpl. rewrite He, Hn, Ht. simpl. rewrite Hd. simpl.
  destruct s; reflexivity.
Qed.

(** X9.  While sync is enabled, a failed sync of type [Local] whose
    error, after the default-exception step, is not one that disables
    sync, is only reported: the syncs waiting in the queue stay queued,
    [LastUpdated] is not written and the local data is not rebuilt, also
    when the error is one of those that rebuild the local data after a
    failed change, or a [NetworkOfflineException]. *)
Theorem handleFailedSync_Local_keeps_queue (this : SyncEngineService)
    (failedSync : Sync) (err : Error) (s : Engine) :
  enabled s = true ->
  type failedSync = Local ->
  checkIfDisableSyncOnError (with_default_exception err) = false ->
  let final := with_default_exception err in
  let r := handleFailedSync this (Some failedSync) err s in
  outcome r = Fulfilled final
  /\ emitted r
     = [InterfaceRefresh None None; ExceptionHandler final;
        InterfaceRefresh (Store_get SyncEnabled (store s)) None;
        DeferredReject (deferred failedSync) final]
  /\ syncQueue (after r) = syncQueue s
  /\ store (after r) = store s
  /\ currentSync (after r) = currentSync s
  /\ deferreds (after r)
     = settle (deferred failedSync) (RejectedWith final) (deferreds s).
Proof.
  intros He Ht Hd. cbv zeta.
  rewrite (handleFailedSync_Local_run this failedSync err s He Ht Hd).
  repeat split.
Qed.

Lemma handleFailedSync_Local_keeps_queue_witness :
  let r := handleFailedSync (example_service process_update commit_ok)
             (Some local_sync) (Exception DataOutOfSyncException None)
             local_in_flight in
  syncQueue (after r) = [remote_sync]
  /\ emitted r
     = [InterfaceRefresh None None;
        ExceptionHandler (Exception DataOutOfSyncException None);
        InterfaceRefresh (Some (VBool true)) None;
        DeferredReject 1 (Exception DataOutOfSyncException None)].
Proof.
  intros r.
  destruct (handleFailedSync_Local_keeps_queue
              (example_service process_update commit_ok) local_sync
              (Exception DataOutOfSyncException None) local_in_flight
              eq_refl eq_refl eq_refl)
    as (_ & He & Hq & _).
  split; [exact Hq|exact He].
Defined.

(** X10.  While sync is enabled, a failed sync that is not of type
    [Local] and whose error is one of those that
    [checkIfRefreshSyncedDataOnError] accepts: the queue is emptied,
    [LastUpdated] is set to the current time, the current sync is cleared
    and the local data is rebuilt, once.  When the rebuild is fulfilled,
    the error stays the final error and sync stays enabled.  When the
    rebuild is rejected, its error replaces the original one, for the
    returned promise and for the failed sync's deferred alike, and sync is
    disabled exactly when [checkIfDisableSyncOnError] accepts that
    error. *)
Theorem handleFailedSync_rebuilds_local_data (this : SyncEngineService)
    (failedSync : Sync) (err : Error) (s : Engine) :
  enabled s = true ->
  type failedSync <> Local ->
  checkIfRefreshSyncedDataOnError err = true ->
  let final :=
    match platformSvc_refreshLocalSyncData_response this with
    | Fulfilled _ => err
    | Rejected refreshErr => refreshErr
    end in
  let disabling :=
    match platformSvc_refreshLocalSyncData_response this with
    | Fulfilled _ => false
    | Rejected refreshErr => checkIfDisableSyncOnError refreshErr
    end in
  let r := handleFailedSync this (Some failedSync) err s in
  outcome r = Fulfilled final
  /\ emitted r
     = [InterfaceRefresh None None; ExceptionHandler err;
        InterfaceRefresh (Store_get SyncEnabled (store s)) None;
        StoreSet LastUpdated (VString (now this)); RefreshLocalSyncData]
       ++ (if disabling then disableSync_calls this else [])
       ++ [DeferredReject (deferred failedSync) final]
  /\ syncQueue (after r) = []
  /\ currentSync (after r) = None
  /\ Store_get LastUpdated (store (after r)) = Some (VString (now this))
  /\ enabled (after r) = negb disabling
  /\ deferreds (after r)
     = settle (deferred failedSync) (RejectedWith final) (deferreds s).
Proof.
  intros He Ht Hr. cbv zeta. apply SyncType_eqb_neq in Ht.
  pose proof He as He'. unfold enabled in He'. simpl in He'.
  assert (Hshape : instanceof_NetworkOfflineException err = false
                   /\ instanceof_Exception err = true
                   /\ instanceof_NoDataFoundException err = false
                   /\ checkIfDisableSyncOnError err = false).
  { destruct err as [[]|]; try discriminate Hr; repeat split. }
  destruct Hshape as (Hoff & Hex & Hnd & Hdis).
  unfold handleFailedSync. rewrite Hoff, Hex. cbn [andb].
  unfold then_, catch_, platformSvc_refreshLocalSyncData. simpl.
  rewrite He', Hnd, Ht, Hr. simpl.
  destruct (platformSvc_refreshLocalSyncData_response this) as [[]|refreshErr]; simpl.
  - rewrite Hdis. simpl. repeat split. exact He'.
  - destruct (checkIfDisableSyncOnError refreshErr) eqn:Hd.
    + rewrite disableSync_when_enabled by exact He. simpl.
      repeat split. same_run.
    + simpl. repeat split. exact He'.
Qed.

Lemma handleFailedSync_rebuilds_local_data_witness :
  let this := failing_service (Exception DataOutOfSyncException None)
                (Exception TooManyRequestsException None) in
  let r := handleFailedSync this (Some remote_sync)
             (Exception DataOutOfSyncException None) remote_in_flight_local_queued in
  outcome r = Fulfilled (Exception TooManyRequestsException None)
  /\ syncQueue (after r) = []
  /\ enabled (after r) = false.
Proof.
  intros this r.
  destruct (handleFailedSync_rebuilds_local_data this remote_sync
              (Exception DataOutOfSyncException None) remote_in_flight_local_queued)
    as (Ho & _ & Hq & _ & _ & Hen & _);
    [reflexivity|discriminate|reflexivity|].
  split; [exact Ho|]. split; [exact Hq|exact Hen].
Defined.

Lemma handleFailedSync_enabled_not_Local (this : SyncEngineService)
    (failedSync : Sync) (err : Error) (s : Engine) :
  enabled s = true ->
  type failedSync <> Local ->
  offline_branch failedSync err = false ->
  let r := handleFailedSync this (Some failedSync) err s in
  syncQueue (after r) = []
  /\ (instanceof_NoDataFoundException err = false ->
      Store_get LastUpdated (store (after r)) = Some (VString (now this))).
Proof.
  intros He Ht Hoff. cbv zeta. apply SyncType_eqb_neq in Ht.
  pose proof He as He'. unfold enabled in He'. simpl in He'.
  unfold handleFailedSync. fold (offline_branch failedSync err). rewrite Hoff.
  fold (with_default_exception err).
  assert (Hsame : instanceof_NoDataFoundException (with_default_exception err)
                  = instanceof_NoDataFoundException err).
  { destruct err as [c inner|message]; reflexivity. }
  set (w := with_default_exception err) in *.
  unfold then_, catch_, platformSvc_refreshLocalSyncData. simpl.
  rewrite He'. simpl. rewrite Hsame.
  destruct (instanceof_NoDataFoundException err); simpl.
  - rewrite disableSync_when_enabled by exact He. simpl.
    split; [reflexivity|discriminate].
  - rewrite Ht. simpl.
    destruct (checkIfRefreshSyncedDataOnError w); simpl.
    + destruct (platformSvc_refreshLocalSyncData_response this) as [[]|refreshErr]; simpl.
      * destruct (checkIfDisableSyncOnError w); simpl;
          [rewrite disableSync_when_enabled by exact He; simpl|]; split; reflexivity.
      * destruct (checkIfDisableSyncOnError refreshErr); simpl;
          [rewrite disableSync_when_enabled by exact He; simpl|]; split; reflexivity.
    + destruct (checkIfDisableSyncOnError w); simpl;
        [rewrite disableSync_when_enabled by exact He; simpl|]; split; reflexivity.
Qed.

(** X11.  While sync is enabled, whenever a sync that is not of type
    [Local] fails (outside the offline branch), [handleFailedSync] leaves
    the queue empty: the syncs that were waiting are dropped, and their
    deferreds are neither resolved nor rejected, only the failed sync's
    deferred is rejected.  Unless the error is a [NoDataFoundException],
    [LastUpdated] ends up set to the current time. *)
Theorem handleFailedSync_drops_queued_syncs (this : SyncEngineService)
    (failedSync : Sync) (err : Error) (s : Engine) :
  enabled s = true ->
  type failedSync <> Local ->
  offline_branch failedSync err = false ->
  let r := handleFailedSync this (Some failedSync) err s in
  syncQueue (after r) = []
  /\ (instanceof_NoDataFoundException err = false ->
      Store_get LastUpdated (store (after r)) = Some (VString (now this)))
  /\ (forall d, d <> deferred failedSync ->
        deferreds (after r) !! d = deferreds s !! d
        /\ settlements d (emitted r) = []).
Proof.
  intros He Ht Hoff. cbv zeta.
  destruct (handleFailedSync_enabled_not_Local this failedSync err s He Ht Hoff)
    as [Hq Hl].
  split; [exact Hq|]. split; [exact Hl|].
  intros d Hd.
  destruct (handleFailedSync_settles this failedSync err s)
    as (final & rejected & _ & _ & Hds & Hev).
  split.
  - rewrite Hds. apply settle_other. congruence.
  - rewrite <- settlements_filter, Hev. rewrite settlements_cons. simpl.
    apply Nat.eqb_neq in Hd. rewrite Hd. reflexivity.
Qed.

Lemma handleFailedSync_drops_queued_syncs_witness :
  let this := example_service process_update commit_ok in
  let r := handleFailedSync this (Some remote_sync) (NativeError "TypeError")
             remote_in_flight_local_queued in
  syncQueue (after r) = []
  /\ deferreds (after r) !! 1 = Some Pending.
Proof.
  intros this r.
  destruct (handleFailedSync_drops_queued_syncs this remote_sync
              (NativeError "TypeError") remote_in_flight_local_queued)
    as (Hq & _ & Hd); [reflexivity|discriminate|reflexivity|].
  split; [exact Hq|]. destruct (Hd 1) as [H1 _]; [discriminate|].
  exact H1.
Defined.

(** ** What the recovery never does *)

Lemma recovery_disableSync (this : SyncEngineService) :
  emits (fun ev => recovery_call ev = true) (disableSync this).
Proof.
  intros s. destruct (enabled s) eqn:E.
  - rewrite (disableSync_when_enabled this s E). simpl.
    unfold disableSync_calls. repeat (constructor; [reflexivity|]).
    apply Forall_app. split.
    + apply Forall_map. apply Forall_forall. intros p _. reflexivity.
    + repeat (constructor; [reflexivity|]). constructor.
  - rewrite (disableSync_when_disabled this s E). constructor.
Qed.

Lemma recovery_setIsSyncing_None :
  emits (fun ev => recovery_call ev = true) (setIsSyncing None).
Proof.
  unfold setIsSyncing. apply emits_then; [apply emits_get|].
  intros v. apply emits_call. reflexivity.
Qed.

Lemma recovery_handleFailedSync (this : SyncEngineService)
    (failedSync : option Sync) (err : Error) :
  emits (fun ev => recovery_call ev = true) (handleFailedSync this failedSync err).
Proof.
  unfold handleFailedSync, platformSvc_interface_Refresh, exceptionHandler.
  destruct failedSync as [failedSync|].
  - repeat first
      [ apply recovery_disableSync
      | apply recovery_setIsSyncing_None
      | apply emits_then; [|intros ?]
      | apply emits_catch; [|intros ?]
      | apply emits_if
      | apply emits_call; reflexivity
      | apply emits_resolve
      | apply emits_modify
      | apply emits_get
      | intros ?; simpl; repeat constructor ].
  - apply emits_then; [apply emits_call; reflexivity|]. intros _. apply emits_throw.
Qed.

(** X12.  Whatever the failed sync and the error, [handleFailedSync]
    makes only calls that report or undo: status refreshes without a sync
    type, the report to the exception handler, a write of [LastUpdated],
    the calls of [disableSync], the rebuild of the local data and the
    rejection of a deferred.  It never calls a provider's [processSync] or
    [enable], never starts the polling, never commits to the remote side
    and never resolves a deferred; and it never enables sync: when sync is
    disabled before, it is disabled after. *)
Theorem handleFailedSync_only_recovers (this : SyncEngineService)
    (failedSync : option Sync) (err : Error) (s : Engine) :
  let r := handleFailedSync this failedSync err s in
  Forall (fun ev => recovery_call ev = true) (emitted r)
  /\ remote_commits (emitted r) = []
  /\ announced (emitted r) = []
  /\ (enabled (after r) = true -> enabled s = true).
Proof.
  cbv zeta. split; [apply recovery_handleFailedSync|].
  destruct (background_quiet _ (emits_handleFailedSync this failedSync err s))
    as [Hc Ha].
  split; [exact Hc|]. split; [exact Ha|].
  destruct (enabled s) eqn:He; [reflexivity|]. intros H. rewrite <- H. clear H.
  destruct failedSync as [failedSync|].
  - destruct (offline_branch failedSync err) eqn:Hoff.
    + unfold handleFailedSync. fold (offline_branch failedSync err). rewrite Hoff.
      unfold then_. simpl. symmetry. exact He.
    + rewrite (handleFailedSync_disabled_run this failedSync err s He Hoff).
      symmetry. exact He.
  - unfold handleFailedSync, then_. simpl. symmetry. exact He.
Qed.

(** * The parts of a drain *)

Lemma drain_run (this : SyncEngineService) (s : Engine) :
  currentSync s = None ->
  syncQueue s <> [] ->
  processSyncQueue this s
  = mkRun (outcome (drain_commit this (drain_rounds this s)))
      (with_currentSync None (after (drain_commit this (drain_rounds this s))))
      (polling_stopped s ++ emitted (drain_rounds this s)
       ++ emitted (drain_commit this (drain_rounds this s))
       ++ polling_restarted (after (drain_commit this (drain_rounds this s)))).
Proof.
  intros Hc Hq.
  unfold processSyncQueue. rewrite guard_passes by assumption.
  unfold finally_, catch_, then_ at 1 2. cbn [storeSvc_get get].
  rewrite drain_opening. fold (polling_stopped s).
  unfold then_ at 1. fold (drain_rounds this s).
  unfold drain_commit, drain_caught.
  destruct (drain_rounds this s) as [[vars|err] s1 calls1]; cbn [outcome after emitted].
  - destruct (Vars.updateRemote vars); cbn [negb resolve].
    + destruct (Vars.processedBookmarksData vars) as [d|]; cbn [throw].
      * unfold apiSvc_updateBookmarks, then_ at 1.
        destruct (apiSvc_updateBookmarks_response this (encryptedBookmarks d))
          as [response|err]; cbn [storeSvc_set].
        -- rewrite drain_finally. cbn [outcome after emitted].
           unfold polling_restarted. rewrite <- !app_assoc. reflexivity.
        -- unfold then_ at 1 2, get, provider_handleUpdateRemoteFailed.
           rewrite q_all_calls. cbn [throw].
           unfold then_ at 1 2, get.
           fold (handleUpdateRemoteFailed_calls this err d (currentSync s1)).
           destruct (handleFailedSync this (currentSync s1) err s1)
             as [[innerErr|e] s2 calls2]; cbn [throw outcome after emitted];
             rewrite drain_finally; cbn [outcome after emitted];
             unfold polling_restarted; rewrite ?app_nil_r, <- ?app_assoc; reflexivity.
      * unfold then_ at 1 2, get.
        destruct (handleFailedSync this (currentSync s1) (NativeError "TypeError") s1)
          as [[innerErr|e] s2 calls2]; cbn [throw outcome after emitted];
          rewrite drain_finally; cbn [outcome after emitted];
          unfold polling_restarted; rewrite ?app_nil_r, <- ?app_assoc; reflexivity.
    + rewrite drain_finally. cbn [outcome after emitted].
      unfold polling_restarted. rewrite ?app_nil_r, <- ?app_assoc. reflexivity.
  - unfold then_ at 1 2, get.
    destruct (handleFailedSync this (currentSync s1) err s1)
      as [[innerErr|e] s2 calls2]; cbn [throw outcome after emitted];
      rewrite drain_finally; cbn [outcome after emitted];
      unfold polling_restarted; rewrite ?app_nil_r, <- ?app_assoc; reflexivity.
Qed.

(** ** The rounds of the loop *)

Lemma promiseWhile_rounds (this : SyncEngineService) (fuel : nat) :
  forall (vars : Vars.t) (s : Engine),
    length (syncQueue s) <= fuel ->
    rounds this vars s (promiseWhile fuel doActionUntil (action this) vars s).
Proof.
  induction fuel as [|fuel IH]; intros vars s Hlen;
    destruct (syncQueue s) as [|sync rest] eqn:Hq;
    try (simpl in Hlen; lia);
    try (rewrite (promiseWhile_done this _ vars s Hq); apply rounds_over; exact Hq).
  rewrite (promiseWhile_round this fuel vars s sync rest Hq). unfold then_.
  pose proof (action_queue this vars s sync rest Hq) as Ha.
  destruct (action this vars s) as [[vars1|err] s1 calls1] eqn:E; cbn [after] in Ha.
  - assert (Hlen1 : length (syncQueue s1) <= fuel).
    { simpl in Hlen. destruct Ha as [-> | ->]; simpl; lia. }
    specialize (IH vars1 s1 Hlen1).
    destruct (promiseWhile fuel doActionUntil (action this) vars1 s1)
      as [result s2 calls2].
    eapply rounds_next; eassumption.
  - eapply rounds_rejected; eassumption.
Qed.

Lemma drain_rounds_are_rounds (this : SyncEngineService) (s : Engine) :
  rounds this (Vars.mk None false) s (drain_rounds this s).
Proof. apply promiseWhile_rounds. apply le_n. Qed.

(** A round that is fulfilled is a round for a Cancel or a round in
    which every provider is fulfilled. *)
Lemma round_fulfilled_inv (this : SyncEngineService) (vars vars1 : Vars.t)
    (s s1 : Engine) (sync : Sync) (rest : list Sync) (calls1 : list Event) :
  syncQueue s = sync :: rest ->
  action this vars s = mkRun (Fulfilled vars1) s1 calls1 ->
  type sync = Cancel \/ exists results, processSync_all this sync = Fulfilled results.
Proof.
  intros Hq Ha. destruct (SyncType_eqb (type sync) Cancel) eqn:Ht.
  - left. apply SyncType_eqb_eq. exact Ht.
  - right. apply SyncType_eqb_neq in Ht.
    destruct (processSync_all this sync) as [results|err] eqn:Hr; [eauto|].
    rewrite (action_rejected this vars s sync rest err Hq Ht Hr) in Ha. discriminate.
Qed.

(** A round that is rejected is a round in which a provider is rejected. *)
Lemma round_rejected_inv (this : SyncEngineService) (vars : Vars.t)
    (s s1 : Engine) (sync : Sync) (rest : list Sync) (err : Error)
    (calls1 : list Event) :
  syncQueue s = sync :: rest ->
  action this vars s = mkRun (Rejected err) s1 calls1 ->
  type sync <> Cancel
  /\ processSync_all this sync = Rejected err
  /\ s1 = with_currentSync (Some sync) (with_syncQueue rest s)
  /\ calls1 = [InterfaceRefresh None (Some (type sync))] ++ processSync_calls this sync.
Proof.
  intros Hq Ha. destruct (SyncType_eqb (type sync) Cancel) eqn:Ht.
  - apply SyncType_eqb_eq in Ht.
    rewrite (action_Cancel this vars s sync rest Hq Ht) in Ha. discriminate.
  - apply SyncType_eqb_neq in Ht.
    destruct (processSync_all this sync) as [results|err'] eqn:Hr.
    + rewrite (action_fulfilled this vars s sync rest results Hq Ht Hr) in Ha.
      discriminate.
    + rewrite (action_rejected this vars s sync rest err' Hq Ht Hr) in Ha.
      injection Ha as <- <- <-. auto.
Qed.

Lemma processed_rejected (this : SyncEngineService) (isEnabled : bool)
    (sync : Sync) (rest : list Sync) (err : Error) :
  type sync <> Cancel ->
  processSync_all this sync = Rejected err ->
  processed this isEnabled (sync :: rest) = [sync].
Proof.
  intros Ht Hr. apply SyncType_eqb_neq in Ht. simpl. rewrite Ht, Hr. reflexivity.
Qed.

(** A loop that is fulfilled has emptied the queue. *)
Lemma rounds_fulfilled_queue (this : SyncEngineService) (vars : Vars.t) (s : Engine)
    (run : Run Vars.t) :
  rounds this vars s run ->
  forall vars', outcome run = Fulfilled vars' -> syncQueue (after run) = [].
Proof.
  induction 1 as [vars s Hq|vars s sync rest err s1 calls1 Hq Ha
                 |vars s sync rest vars1 s1 calls1 result s2 calls2 Hq Ha _ IH];
    intros vars' Ho; cbn [outcome after] in *.
  - exact Hq.
  - discriminate.
  - apply (IH vars'). exact Ho.
Qed.

(** The sync the loop ends on is the last of the processed syncs. *)
Lemma rounds_current (this : SyncEngineService) (vars : Vars.t) (s : Engine)
    (run : Run Vars.t) :
  rounds this vars s run ->
  syncQueue s <> [] ->
  currentSync (after run) = last (processed this (enabled s) (syncQueue s))
  /\ currentSync (after run) <> None.
Proof.
  induction 1 as [vars s Hq|vars s sync rest err s1 calls1 Hq Ha
                 |vars s sync rest vars1 s1 calls1 result s2 calls2 Hq Ha Hrounds IH];
    intros Hne; cbn [after] in *.
  - congruence.
  - destruct (round_rejected_inv this vars s s1 sync rest err calls1 Hq Ha)
      as (Ht & Hr & -> & _).
    rewrite Hq, (processed_rejected this _ sync rest err Ht Hr).
    split; [reflexivity|discriminate].
  - pose proof (round_fulfilled_inv this vars vars1 s s1 sync rest calls1 Hq Ha) as Hok.
    destruct (round_completed this vars s sync rest Hq Hok)
      as (vars1' & s1' & calls1' & Ha' & _ & Hc & _ & _ & _ & Hproc).
    rewrite Ha in Ha'. injection Ha' as <- <- <-.
    rewrite Hq, Hproc.
    destruct (syncQueue s1) as [|sync' rest'] eqn:Hq1.
    + inversion Hrounds; subst; try congruence.
      cbn [processed]. split; [exact Hc|congruence].
    + destruct IH as [IH1 IH2]; [discriminate|].
      split; [|exact IH2]. rewrite IH1.
      destruct (processed this (enabled s1) (sync' :: rest')) as [|x l] eqn:Hp;
        [|reflexivity].
      rewrite IH1 in IH2. cbn in IH2. congruence.
Qed.

(** ** Polling during a drain *)

Lemma round_first_call (this : SyncEngineService) (vars : Vars.t) (s : Engine)
    (sync : Sync) (rest : list Sync) :
  syncQueue s = sync :: rest ->
  exists more,
    emitted (action this vars s) = InterfaceRefresh None (Some (type sync)) :: more.
Proof.
  intros Hq. destruct (SyncType_eqb (type sync) Cancel) eqn:Ht.
  - apply SyncType_eqb_eq in Ht. rewrite (action_Cancel this vars s sync rest Hq Ht).
    rewrite Ht. eexists. reflexivity.
  - apply SyncType_eqb_neq in Ht.
    destruct (processSync_all this sync) as [results|err] eqn:Hr.
    + rewrite (action_fulfilled this vars s sync rest results Hq Ht Hr).
      eexists. reflexivity.
    + rewrite (action_rejected this vars s sync rest err Hq Ht Hr).
      eexists. reflexivity.
Qed.

Lemma round_fulfilled_last_call (this : SyncEngineService) (vars vars1 : Vars.t)
    (s s1 : Engine) (sync : Sync) (rest : list Sync) (calls1 : list Event) :
  syncQueue s = sync :: rest ->
  action this vars s = mkRun (Fulfilled vars1) s1 calls1 ->
  exists before flag, calls1 = before ++ [InterfaceRefresh flag None].
Proof.
  intros Hq Ha. destruct (SyncType_eqb (type sync) Cancel) eqn:Ht.
  - apply SyncType_eqb_eq in Ht.
    rewrite (action_Cancel this vars s sync rest Hq Ht) in Ha.
    injection Ha as _ _ <-.
    match goal with |- context [?a :: ?b ++ [?c; InterfaceRefresh ?flag None]] =>
      exists (a :: b ++ [c]), flag end.
    cbn [app]. rewrite <- !app_assoc. reflexivity.
  - apply SyncType_eqb_neq in Ht.
    destruct (processSync_all this sync) as [results|err] eqn:Hr.
    + rewrite (action_fulfilled this vars s sync rest results Hq Ht Hr) in Ha.
      injection Ha as _ _ <-.
      match goal with |- context [?a :: ?b ++ ?e ++ [?c; InterfaceRefresh ?flag None]] =>
        exists (a :: b ++ e ++ [c]), flag end.
      cbn [app]. rewrite <- !app_assoc. reflexivity.
    + rewrite (action_rejected this vars s sync rest err Hq Ht Hr) in Ha. discriminate.
Qed.

(** The first and the last call of the loop of a drain. *)
Lemma rounds_ends (this : SyncEngineService) (vars : Vars.t) (s : Engine)
    (run : Run Vars.t) :
  rounds this vars s run ->
  syncQueue s <> [] ->
  (exists sync more,
      head (syncQueue s) = Some sync
      /\ emitted run = InterfaceRefresh None (Some (type sync)) :: more)
  /\ (exists before ev,
        emitted run = before ++ [ev] /\ ev <> AutomaticUpdatesStart).
Proof.
  induction 1 as [vars s Hq|vars s sync rest err s1 calls1 Hq Ha
                 |vars s sync rest vars1 s1 calls1 result s2 calls2 Hq Ha Hrounds IH];
    intros Hne; cbn [emitted] in *.
  - congruence.
  - destruct (round_rejected_inv this vars s s1 sync rest err calls1 Hq Ha)
      as (_ & _ & _ & ->).
    split.
    + exists sync. eexists. rewrite Hq. split; reflexivity.
    + unfold processSync_calls.
      destruct (providers this) as [|p ps] using rev_ind.
      * exists [], (InterfaceRefresh None (Some (type sync))).
        split; [reflexivity|discriminate].
      * rewrite map_app. cbn [map].
        exists (InterfaceRefresh None (Some (type sync))
                :: map (fun provider => ProviderProcessSync provider sync) ps),
          (ProviderProcessSync p sync).
        split; [reflexivity|discriminate].
  - destruct (round_first_call this vars s sync rest Hq) as [more Hfirst].
    rewrite Ha in Hfirst. cbn [emitted] in Hfirst.
    destruct (round_fulfilled_last_call this vars vars1 s s1 sync rest calls1 Hq Ha)
      as (before1 & flag & Hlast).
    split.
    + exists sync, (more ++ calls2). rewrite Hq, Hfirst. split; reflexivity.
    + destruct (syncQueue s1) as [|sync' rest'] eqn:Hq1.
      * assert (Hnil : calls2 = []) by (inversion Hrounds; subst; congruence).
        rewrite Hnil, app_nil_r, Hlast.
        exists before1, (InterfaceRefresh flag None). split; [reflexivity|discriminate].
      * destruct IH as [_ (before & ev & -> & Hev)]; [discriminate|].
        exists (calls1 ++ before), ev.
        split; [rewrite <- app_assoc; reflexivity|exact Hev].
Qed.

Lemma recovery_call_not_start (calls : list Event) :
  Forall (fun ev => recovery_call ev = true) calls ->
  Forall (fun ev => ev <> AutomaticUpdatesStart) calls.
Proof.
  intros H. eapply Forall_impl; [exact H|]. intros ev Hev ->. discriminate Hev.
Qed.

Lemma drain_caught_calls (this : SyncEngineService) (err : Error) (s : Engine) :
  emitted (drain_caught this err s)
  = emitted (handleFailedSync this (currentSync s) err s)
  /\ after (drain_caught this err s)
     = after (handleFailedSync this (currentSync s) err s).
Proof.
  unfold drain_caught.
  destruct (handleFailedSync this (currentSync s) err s) as [[e|e] s1 calls];
    split; reflexivity.
Qed.

Lemma drain_commit_no_start (this : SyncEngineService) (loop : Run Vars.t) :
  Forall (fun ev => ev <> AutomaticUpdatesStart) (emitted (drain_commit this loop)).
Proof.
  assert (Hcaught : forall err s,
             Forall (fun ev => ev <> AutomaticUpdatesStart)
               (emitted (drain_caught this err s))).
  { intros err s. rewrite (proj1 (drain_caught_calls this err s)).
    apply recovery_call_not_start. apply recovery_handleFailedSync. }
  unfold drain_commit. destruct (outcome loop) as [vars|err]; [|apply Hcaught].
  destruct (Vars.updateRemote vars); cbn [negb]; [|constructor].
  destruct (Vars.processedBookmarksData vars) as [d|]; [|apply Hcaught].
  cbv zeta.
  destruct (apiSvc_updateBookmarks_response this (encryptedBookmarks d))
    as [response|err]; cbn [emitted].
  - repeat (constructor; [discriminate|]). constructor.
  - constructor; [discriminate|]. apply Forall_app. split; [|apply Hcaught].
    unfold handleUpdateRemoteFailed_calls. apply Forall_map. apply Forall_forall.
    intros p _. discriminate.
Qed.

Lemma last_of_calls (X : Event) (before : list Event) (ev : Event)
    (more : list Event) :
  ev <> X ->
  Forall (fun ev' => ev' <> X) more ->
  last ((before ++ [ev]) ++ more) <> Some X.
Proof.
  intros Hev Hmore. destruct more as [|y more'] using rev_ind.
  - rewrite app_nil_r, last_snoc. congruence.
  - rewrite app_assoc, last_snoc. apply Forall_app in Hmore.
    destruct Hmore as [_ Hy]. inversion Hy; subst. congruence.
Qed.

(** X13.  A drain that starts (no sync in flight, a non-empty queue)
    stops the periodic polling first exactly when sync is enabled at its
    start, and restarts it last exactly when sync is enabled at its end,
    whether the drain is fulfilled or rejected: the polling is never left
    stopped while sync is enabled, and never left running by a drain that
    ends with sync disabled. *)
Theorem drain_brackets_polling (this : SyncEngineService) (s : Engine) :
  currentSync s = None ->
  syncQueue s <> [] ->
  let r := processSyncQueue this s in
  (head (emitted r) = Some AutomaticUpdatesStop <-> enabled s = true)
  /\ (last (emitted r) = Some AutomaticUpdatesStart <-> enabled (after r) = true).
Proof.
  intros Hc Hq. cbv zeta. rewrite (drain_run this s Hc Hq). cbn [emitted after].
  destruct (rounds_ends this _ s _ (drain_rounds_are_rounds this s) Hq)
    as ((sync & more & _ & Hfirst) & (before & ev & Hlast & Hev)).
  pose proof (drain_commit_no_start this (drain_rounds this s)) as Hbody.
  set (body := drain_commit this (drain_rounds this s)) in *.
  replace (enabled (with_currentSync None (after body))) with (enabled (after body))
    by reflexivity.
  split.
  - unfold polling_stopped. destruct (enabled s).
    + split; reflexivity.
    + rewrite Hfirst. simpl. split; discriminate.
  - unfold polling_restarted. destruct (enabled (after body)).
    + rewrite !app_assoc, last_snoc. split; reflexivity.
    + rewrite app_nil_r. split; [|discriminate]. intros H. exfalso. revert H.
      rewrite Hlast, !app_assoc.
      apply (last_of_calls AutomaticUpdatesStart (polling_stopped s ++ before) ev
               (emitted body) Hev Hbody).
Qed.

Lemma drain_brackets_polling_witness :
  let this := example_service process_update commit_ok in
  let r := processSyncQueue this remote_then_local in
  head (emitted r) = Some AutomaticUpdatesStop
  /\ last (emitted r) = Some AutomaticUpdatesStart.
Proof.
  intros this r.
  destruct (drain_brackets_polling this remote_then_local) as [Hfirst Hlast];
    [reflexivity|discriminate|].
  split; [apply Hfirst|apply Hlast]; reflexivity.
Defined.

(** ** The syncs handed to the providers *)

Lemma processSync_requests_app (a b : list Event) :
  processSync_requests (a ++ b) = processSync_requests a ++ processSync_requests b.
Proof. apply omap_app. Qed.

Lemma processSync_requests_none (calls : list Event) :
  Forall (fun ev => processSync_request ev = None) calls ->
  processSync_requests calls = [].
Proof.
  induction 1 as [|ev calls Hev _ IH]; [reflexivity|].
  unfold processSync_requests in *. simpl. rewrite Hev. exact IH.
Qed.

Lemma recovery_call_no_request (calls : list Event) :
  Forall (fun ev => recovery_call ev = true) calls ->
  Forall (fun ev => processSync_request ev = None) calls.
Proof.
  intros H. eapply Forall_impl; [exact H|].
  intros ev Hev. destruct ev; try reflexivity. discriminate Hev.
Qed.

Lemma processSync_requests_calls (this : SyncEngineService) (sync : Sync) :
  processSync_requests (processSync_calls this sync)
  = map (fun provider => (provider, sync)) (providers this).
Proof.
  unfold processSync_requests, processSync_calls.
  induction (providers this) as [|p ps IH]; [reflexivity|].
  simpl. f_equal. exact IH.
Qed.

Lemma enableSync_no_request (this : SyncEngineService) (s : Engine) :
  processSync_requests (emitted (enableSync this s)) = [].
Proof.
  rewrite enableSync_run. cbn [emitted]. unfold enableSync_calls.
  apply processSync_requests_none. repeat (constructor; [reflexivity|]).
  apply Forall_map. apply Forall_forall. intros p _. reflexivity.
Qed.

Lemma disableSync_no_request (this : SyncEngineService) (s : Engine) :
  processSync_requests (emitted (disableSync this s)) = [].
Proof.
  apply processSync_requests_none, recovery_call_no_request, recovery_disableSync.
Qed.

(** The syncs one round hands to the providers. *)
Lemma round_requests (this : SyncEngineService) (vars : Vars.t) (s : Engine)
    (sync : Sync) (rest : list Sync) :
  syncQueue s = sync :: rest ->
  processSync_requests (emitted (action this vars s))
  = if not_Cancel sync then map (fun provider => (provider, sync)) (providers this)
    else [].
Proof.
  intros Hq. unfold not_Cancel. destruct (SyncType_eqb (type sync) Cancel) eqn:Ht.
  - apply SyncType_eqb_eq in Ht. rewrite (action_Cancel this vars s sync rest Hq Ht).
    cbn [emitted negb]. rewrite !processSync_requests_app, disableSync_no_request.
    reflexivity.
  - apply SyncType_eqb_neq in Ht. cbn [negb].
    destruct (processSync_all this sync) as [results|err] eqn:Hr.
    + rewrite (action_fulfilled this vars s sync rest results Hq Ht Hr).
      cbn [emitted]. rewrite !processSync_requests_app, processSync_requests_calls.
      match goal with |- context [if ?b then emitted ?e else []] =>
        replace (processSync_requests (if b then emitted e else [])) with
          (@nil (SyncProvider * Sync))
          by (destruct b; [rewrite enableSync_no_request|]; reflexivity)
      end.
      cbn. rewrite app_nil_r. reflexivity.
    + rewrite (action_rejected this vars s sync rest err Hq Ht Hr).
      cbn [emitted]. rewrite processSync_requests_app, processSync_requests_calls.
      reflexivity.
Qed.

Lemma fan_out_cons (this : SyncEngineService) (sync : Sync) (syncs : list Sync) :
  fan_out this (sync :: syncs)
  = map (fun provider => (provider, sync)) (providers this) ++ fan_out this syncs.
Proof. reflexivity. Qed.

(** The syncs the loop hands to the providers. *)
Lemma rounds_requests (this : SyncEngineService) (vars : Vars.t) (s : Engine)
    (run : Run Vars.t) :
  rounds this vars s run ->
  processSync_requests (emitted run)
  = fan_out this (List.filter not_Cancel (processed this (enabled s) (syncQueue s))).
Proof.
  induction 1 as [vars s Hq|vars s sync rest err s1 calls1 Hq Ha
                 |vars s sync rest vars1 s1 calls1 result s2 calls2 Hq Ha Hrounds IH];
    cbn [emitted] in *.
  - rewrite Hq. reflexivity.
  - pose proof (round_requests this vars s sync rest Hq) as Hreq.
    rewrite Ha in Hreq. cbn [emitted] in Hreq.
    destruct (round_rejected_inv this vars s s1 sync rest err calls1 Hq Ha)
      as (Ht & Hr & _ & _).
    rewrite Hq, (processed_rejected this _ sync rest err Ht Hr), Hreq.
    cbn [List.filter]. destruct (not_Cancel sync); [|reflexivity].
    rewrite fan_out_cons. cbn. rewrite app_nil_r. reflexivity.
  - pose proof (round_requests this vars s sync rest Hq) as Hreq.
    rewrite Ha in Hreq. cbn [emitted] in Hreq.
    pose proof (round_fulfilled_inv this vars vars1 s s1 sync rest calls1 Hq Ha) as Hok.
    destruct (round_completed this vars s sync rest Hq Hok)
      as (vars1' & s1' & calls1' & Ha' & _ & _ & _ & _ & _ & Hproc).
    rewrite Ha in Ha'. injection Ha' as <- <- <-.
    rewrite Hq, Hproc, processSync_requests_app, Hreq, IH.
    cbn [List.filter]. destruct (not_Cancel sync); [|reflexivity].
    rewrite fan_out_cons. reflexivity.
Qed.

(** The syncs a drain processes are the first syncs of the queue. *)
Lemma processed_prefix (this : SyncEngineService) (queue : list Sync) :
  forall isEnabled : bool,
    exists dropped, queue = processed this isEnabled queue ++ dropped.
Proof.
  induction queue as [|sync queue IH]; intros isEnabled; [exists []; reflexivity|].
  cbn [processed]. destruct (SyncType_eqb (type sync) Cancel).
  - destruct isEnabled.
    + exists queue. reflexivity.
    + destruct (IH false) as [dropped H]. exists dropped. cbn. f_equal. exact H.
  - destruct (processSync_all this sync).
    + destruct (IH (isEnabled || negb (is_RestoreBookmarks (command sync))))
        as [dropped H].
      exists dropped. cbn. f_equal. exact H.
    + exists queue. reflexivity.
Qed.

Section DrainCommitCalls.

Variable P : Event -> Prop.
Hypothesis P_recovery : forall ev, recovery_call ev = true -> P ev.
Hypothesis P_commit : forall encrypted, P (UpdateBookmarks encrypted).
Hypothesis P_failed : forall p err lastResult sync,
  P (ProviderHandleUpdateRemoteFailed p err lastResult sync).

(** The calls a drain makes after its loop, up to the [finally]. *)
Lemma drain_commit_emits (this : SyncEngineService) (loop : Run Vars.t) :
  Forall P (emitted (drain_commit this loop)).
Proof using P_recovery P_commit P_failed.
  assert (Hcaught : forall err s, Forall P (emitted (drain_caught this err s))).
  { intros err s. rewrite (proj1 (drain_caught_calls this err s)).
    eapply Forall_impl; [apply recovery_handleFailedSync|]. exact P_recovery. }
  unfold drain_commit. destruct (outcome loop) as [vars|err]; [|apply Hcaught].
  destruct (Vars.updateRemote vars); cbn [negb]; [|constructor].
  destruct (Vars.processedBookmarksData vars) as [d|]; [|apply Hcaught].
  cbv zeta.
  destruct (apiSvc_updateBookmarks_response this (encryptedBookmarks d))
    as [response|err]; cbn [emitted].
  - constructor; [apply P_commit|]. constructor; [|constructor].
    apply P_recovery. reflexivity.
  - constructor; [apply P_commit|]. apply Forall_app. split; [|apply Hcaught].
    unfold handleUpdateRemoteFailed_calls. apply Forall_map. apply Forall_forall.
    intros p _. apply P_failed.
Qed.

End DrainCommitCalls.

(** X14.  A drain that starts hands syncs to the providers in the order
    of the queue.  The syncs it processes are the first syncs of the queue
    (what is left was dropped or stays queued), and the [processSync]
    calls it makes are, for each processed sync that is no Cancel and in
    that order, one call on every registered provider with that sync, in
    the order in which the providers are registered: no sync is handed over
    twice, none out of turn, and a Cancel is handed to no provider. *)
Theorem drain_hands_syncs_over_in_queue_order (this : SyncEngineService) (s : Engine) :
  currentSync s = None ->
  syncQueue s <> [] ->
  let r := processSyncQueue this s in
  let done := processed this (enabled s) (syncQueue s) in
  processSync_requests (emitted r) = fan_out this (List.filter not_Cancel done)
  /\ exists remaining, syncQueue s = done ++ remaining.
Proof.
  intros Hc Hq. cbv zeta. split; [|apply processed_prefix].
  rewrite (drain_run this s Hc Hq). cbn [emitted].
  rewrite !processSync_requests_app.
  rewrite (rounds_requests this _ s _ (drain_rounds_are_rounds this s)).
  assert (Hstop : processSync_requests (polling_stopped s) = []).
  { unfold polling_stopped. destruct (enabled s); reflexivity. }
  assert (Hstart : forall s', processSync_requests (polling_restarted s') = []).
  { intros s'. unfold polling_restarted. destruct (enabled s'); reflexivity. }
  rewrite Hstop, Hstart.
  rewrite (processSync_requests_none (emitted (drain_commit this (drain_rounds this s)))).
  - rewrite !app_nil_r. reflexivity.
  - apply drain_commit_emits; try reflexivity.
    intros ev Hev. destruct ev; try reflexivity. discriminate Hev.
Qed.

Lemma drain_hands_syncs_over_in_queue_order_witness :
  let this := example_service process_update commit_ok in
  processSync_requests (emitted (processSyncQueue this remote_then_local))
  = [(BookmarkSyncProviderSvc, remote_sync); (BookmarkSyncProviderSvc, local_sync)].
Proof.
  intros this.
  apply (proj1 (drain_hands_syncs_over_in_queue_order this remote_then_local
                  eq_refl ltac:(discriminate))).
Defined.

(** ** The remote commit *)

Lemma extract_data_fold_acc (ps : list SyncProvider) :
  forall (results : list SyncProcessResult)
         (acc acc' : option SyncProcessBookmarksData),
    length results = length ps ->
    existsb is_BookmarkSyncProviderService ps = true ->
    fold_left
      (fun acc pr =>
         if is_BookmarkSyncProviderService (fst pr) then Some (data (snd pr)) else acc)
      (combine ps results) acc
    = fold_left
        (fun acc pr =>
           if is_BookmarkSyncProviderService (fst pr) then Some (data (snd pr)) else acc)
        (combine ps results) acc'.
Proof.
  induction ps as [|p ps IH]; intros results acc acc' Hlen Hb; [discriminate|].
  destruct results as [|r results]; [discriminate|]. simpl in *.
  destruct (is_BookmarkSyncProviderService p); simpl in *.
  - reflexivity.
  - apply IH; [lia|exact Hb].
Qed.

(** With a bookmark sync provider registered, the data kept after a
    round does not depend on the data kept before it. *)
Lemma extract_data_latest (this : SyncEngineService) (sync : Sync)
    (results : list SyncProcessResult) (acc : option SyncProcessBookmarksData) :
  has_bookmark_provider this = true ->
  processSync_all this sync = Fulfilled results ->
  extract_data this results acc = extract_data this results None.
Proof.
  intros Hb Hr. unfold extract_data. apply extract_data_fold_acc.
  - apply all_settled_length in Hr. rewrite Hr. apply length_map.
  - exact Hb.
Qed.

Lemma processed_nonempty (this : SyncEngineService) (isEnabled : bool)
    (sync : Sync) (rest : list Sync) :
  processed this isEnabled (sync :: rest) <> [].
Proof.
  cbn [processed]. destruct (SyncType_eqb (type sync) Cancel).
  - destruct isEnabled; discriminate.
  - destruct (processSync_all this sync); discriminate.
Qed.

(** The data the loop ends with is the data of its last round. *)
Lemma rounds_data (this : SyncEngineService) (vars : Vars.t) (s : Engine)
    (run : Run Vars.t) :
  has_bookmark_provider this = true ->
  rounds this vars s run ->
  forall (vars' : Vars.t) (sync : Sync) (results : list SyncProcessResult),
    outcome run = Fulfilled vars' ->
    last (processed this (enabled s) (syncQueue s)) = Some sync ->
    type sync <> Cancel ->
    processSync_all this sync = Fulfilled results ->
    Vars.processedBookmarksData vars' = extract_data this results None.
Proof.
  intros Hb.
  induction 1 as [vars s Hq|vars s sync0 rest err s1 calls1 Hq Ha
                 |vars s sync0 rest vars1 s1 calls1 result s2 calls2 Hq Ha Hrounds IH];
    intros vars' sync results Ho Hlast Ht Hr; cbn [outcome] in *.
  - rewrite Hq in Hlast. discriminate.
  - discriminate.
  - pose proof (round_fulfilled_inv this vars vars1 s s1 sync0 rest calls1 Hq Ha) as Hok.
    destruct (round_completed this vars s sync0 rest Hq Hok)
      as (vars1' & s1' & calls1' & Ha' & _ & _ & _ & _ & _ & Hproc).
    rewrite Ha in Ha'. injection Ha' as <- <- <-.
    rewrite Hq, Hproc in Hlast.
    destruct (syncQueue s1) as [|sync' rest'] eqn:Hq1.
    + assert (Hv : result = Fulfilled vars1) by (inversion Hrounds; subst; congruence).
      rewrite Hv in Ho. injection Ho as <-.
      cbn [processed] in Hlast. injection Hlast as <-.
      rewrite (action_fulfilled this vars s sync0 rest results Hq Ht Hr) in Ha.
      injection Ha as <- _ _. cbn [Vars.processedBookmarksData].
      apply (extract_data_latest this sync0 results _ Hb Hr).
    + apply (IH vars' sync results Ho); [|exact Ht|exact Hr].
      destruct (processed this (enabled s1) (sync' :: rest')) as [|x l] eqn:Hp;
        [exfalso; exact (processed_nonempty this _ sync' rest' Hp)|].
      exact Hlast.
Qed.

Lemma no_commit_among (calls : list Event) (encrypted : string) :
  remote_commits calls = [] -> ~ In (UpdateBookmarks encrypted) calls.
Proof.
  intros H Hin. unfold remote_commits in H.
  assert (Hf : In (UpdateBookmarks encrypted) (List.filter is_remote_commit calls)).
  { apply List.filter_In. split; [exact Hin|reflexivity]. }
  rewrite H in Hf. exact Hf.
Qed.

Lemma syncChange_true (this : SyncEngineService) (sync : Sync) :
  syncChange this sync = true ->
  type sync <> Cancel
  /\ exists results,
       processSync_all this sync = Fulfilled results
       /\ combine_results results = true.
Proof.
  unfold syncChange. destruct (SyncType_eqb (type sync) Cancel) eqn:Ht; [discriminate|].
  apply SyncType_eqb_neq in Ht.
  destruct (processSync_all this sync) as [results|err]; [|discriminate].
  intros H. split; [exact Ht|]. exists results. auto.
Qed.

(** A drain that issues a remote commit: the loop was fulfilled, and the
    payload is the data the bookmark sync provider returned for the last
    sync processed. *)
Lemma commit_issued (this : SyncEngineService) (s : Engine) (encrypted : string) :
  currentSync s = None ->
  syncQueue s <> [] ->
  has_bookmark_provider this = true ->
  In (UpdateBookmarks encrypted) (emitted (processSyncQueue this s)) ->
  exists vars' processedBookmarksData sync results,
    outcome (drain_rounds this s) = Fulfilled vars'
    /\ Vars.updateRemote vars' = true
    /\ Vars.processedBookmarksData vars' = Some processedBookmarksData
    /\ encrypted = encryptedBookmarks processedBookmarksData
    /\ last (processed this (enabled s) (syncQueue s)) = Some sync
    /\ currentSync (after (drain_rounds this s)) = Some sync
    /\ type sync <> Cancel
    /\ processSync_all this sync = Fulfilled results
    /\ combine_results results = true
    /\ extract_data this results None = Some processedBookmarksData.
Proof.
  intros Hc Hq Hb Hin. rewrite (drain_run this s Hc Hq) in Hin. cbn [emitted] in Hin.
  pose proof (drain_loop this Hb (length (syncQueue s)) (Vars.mk None false) s
                (le_n _) ltac:(discriminate)) as Hloop.
  cbv zeta in Hloop. fold (drain_rounds this s) in Hloop.
  cbn [Vars.updateRemote] in Hloop. destruct Hloop as (Hlc & _ & Hlo).
  pose proof (drain_rounds_are_rounds this s) as Hrounds.
  destruct (rounds_current this _ s _ Hrounds Hq) as [Hcur Hsome].
  assert (Hbody : In (UpdateBookmarks encrypted)
                    (emitted (drain_commit this (drain_rounds this s)))).
  { apply in_app_or in Hin. destruct Hin as [Hin|Hin].
    { unfold polling_stopped in Hin. destruct (enabled s); simpl in Hin;
        [destruct Hin as [Hin|[]]; discriminate Hin|destruct Hin]. }
    apply in_app_or in Hin. destruct Hin as [Hin|Hin].
    { exfalso. exact (no_commit_among _ encrypted Hlc Hin). }
    apply in_app_or in Hin. destruct Hin as [Hin|Hin]; [exact Hin|].
    unfold polling_restarted in Hin. destruct (enabled _); simpl in Hin;
      [destruct Hin as [Hin|[]]; discriminate Hin|destruct Hin]. }
  clear Hin.
  assert (Hcaught : forall err s', ~ In (UpdateBookmarks encrypted)
                                     (emitted (drain_caught this err s'))).
  { intros err s'. apply no_commit_among.
    rewrite (proj1 (drain_caught_calls this err s')).
    apply (background_quiet _ (emits_handleFailedSync this _ err s')). }
  unfold drain_commit in Hbody.
  destruct (outcome (drain_rounds this s)) as [vars'|err] eqn:Ho;
    [|exfalso; exact (Hcaught _ _ Hbody)].
  destruct Hlo as [Hflag Hdata].
  destruct (Vars.updateRemote vars') eqn:Hu; cbn [negb] in Hbody; [|destruct Hbody].
  destruct (Vars.processedBookmarksData vars') as [d|] eqn:Hd;
    [|exfalso; exact (Hcaught _ _ Hbody)].
  assert (Henc : encrypted = encryptedBookmarks d).
  { cbv zeta in Hbody.
    destruct (apiSvc_updateBookmarks_response this (encryptedBookmarks d))
      as [response|err]; cbn [emitted app] in Hbody.
    - destruct Hbody as [H|[H|[]]]; [congruence|discriminate H].
    - destruct Hbody as [H|H]; [congruence|]. exfalso.
      apply in_app_or in H. destruct H as [H|H]; [|exact (Hcaught _ _ H)].
      unfold handleUpdateRemoteFailed_calls in H. apply in_map_iff in H.
      destruct H as (p & H & _). discriminate H. }
  destruct (last (processed this (enabled s) (syncQueue s))) as [sync|] eqn:Hlast;
    [|congruence].
  pose proof (last_syncChange this _ false sync (eq_sym Hflag) Hlast) as Hchange.
  destruct (syncChange_true this sync Hchange) as (Ht & results & Hr & Hcomb).
  exists vars', d, sync, results.
  repeat (split; [first [reflexivity|assumption]|]).
  rewrite <- (rounds_data this _ s _ Hb Hrounds vars' sync results Ho Hlast Ht Hr).
  exact Hd.
Qed.

(** X15.  When a drain issues the remote commit and the commit is
    fulfilled, the drain is fulfilled, the [lastUpdated] of the response is
    what [LastUpdated] holds afterwards, the write of it follows the commit
    at once, the queue is empty and no sync is in flight.  The payload
    committed is the data the bookmark sync provider returned for the last
    sync the drain processed, which need not be the sync that decided the
    commit. *)
Theorem fulfilled_commit_persists_LastUpdated (this : SyncEngineService) (s : Engine)
    (encrypted response : string) :
  currentSync s = None ->
  syncQueue s <> [] ->
  has_bookmark_provider this = true ->
  In (UpdateBookmarks encrypted) (emitted (processSyncQueue this s)) ->
  apiSvc_updateBookmarks_response this encrypted = Fulfilled response ->
  let r := processSyncQueue this s in
  let done := processed this (enabled s) (syncQueue s) in
  outcome r = Fulfilled tt
  /\ Store_get LastUpdated (store (after r)) = Some (VString response)
  /\ syncQueue (after r) = []
  /\ currentSync (after r) = None
  /\ (exists before,
        emitted r
        = before ++ [UpdateBookmarks encrypted; StoreSet LastUpdated (VString response)]
          ++ polling_restarted (after r))
  /\ (exists sync results processedBookmarksData,
        last done = Some sync
        /\ processSync_all this sync = Fulfilled results
        /\ extract_data this results None = Some processedBookmarksData
        /\ encrypted = encryptedBookmarks processedBookmarksData).
Proof.
  intros Hc Hq Hb Hin Hresp. cbv zeta.
  destruct (commit_issued this s encrypted Hc Hq Hb Hin)
    as (vars' & d & sync & results & Ho & Hu & Hd & Henc & Hlast & _ & _ & Hr & _ & Hx).
  pose proof (rounds_fulfilled_queue this _ s _ (drain_rounds_are_rounds this s)
                vars' Ho) as Hempty.
  rewrite (drain_run this s Hc Hq). unfold drain_commit.
  rewrite Ho, Hu, Hd. cbv zeta. rewrite <- Henc, Hresp.
  cbn [negb outcome after emitted].
  split; [reflexivity|]. split; [reflexivity|]. split; [exact Hempty|].
  split; [reflexivity|]. split.
  - exists (polling_stopped s ++ emitted (drain_rounds this s)).
    rewrite <- !app_assoc. reflexivity.
  - exists sync, results, d. auto.
Qed.

Lemma fulfilled_commit_persists_LastUpdated_witness :
  let this := example_service process_update commit_ok in
  let r := processSyncQueue this remote_queued in
  outcome r = Fulfilled tt
  /\ Store_get LastUpdated (store (after r))
     = Some (VString "2020-01-01T00:00:01.000Z").
Proof.
  intros this r.
  destruct (fulfilled_commit_persists_LastUpdated this remote_queued
              "encrypted" "2020-01-01T00:00:01.000Z")
    as (Ho & Hl & _);
    [reflexivity|discriminate|reflexivity
    |cbv; repeat (first [left; reflexivity|right])|reflexivity|].
  split; [exact Ho|exact Hl].
Defined.

(** X16.  When a drain issues the remote commit and the commit is
    rejected, [handleUpdateRemoteFailed] is called on every registered
    provider, in the order of registration, right after the commit: with
    the error of the commit, with the committed data for a bookmark sync
    provider and no data for another one, and with the last sync the drain
    processed.  Only then is that sync handed to [handleFailedSync] with
    the same error; the drain is rejected with the error
    [handleFailedSync] is resolved with, and it ends with no sync in
    flight. *)
Theorem rejected_commit_is_reported_to_providers (this : SyncEngineService)
    (s : Engine) (encrypted : string) (err : Error) :
  currentSync s = None ->
  syncQueue s <> [] ->
  has_bookmark_provider this = true ->
  In (UpdateBookmarks encrypted) (emitted (processSyncQueue this s)) ->
  apiSvc_updateBookmarks_response this encrypted = Rejected err ->
  let r := processSyncQueue this s in
  let done := processed this (enabled s) (syncQueue s) in
  exists (before : list Event) (processedBookmarksData : SyncProcessBookmarksData)
         (sync : Sync) (final : Error),
    last done = Some sync
    /\ encrypted = encryptedBookmarks processedBookmarksData
    /\ emitted r
       = before ++ [UpdateBookmarks encrypted]
         ++ handleUpdateRemoteFailed_calls this err processedBookmarksData (Some sync)
         ++ emitted (handleFailedSync this (Some sync) err (after (drain_rounds this s)))
         ++ polling_restarted (after r)
    /\ outcome (handleFailedSync this (Some sync) err (after (drain_rounds this s)))
       = Fulfilled final
    /\ outcome r = Rejected final
    /\ currentSync (after r) = None.
Proof.
  intros Hc Hq Hb Hin Hresp. cbv zeta.
  destruct (commit_issued this s encrypted Hc Hq Hb Hin)
    as (vars' & d & sync & results & Ho & Hu & Hd & Henc & Hlast & Hcur & _).
  destruct (handleFailedSync_settles this sync err (after (drain_rounds this s)))
    as (final & _ & Hfinal & _).
  exists (polling_stopped s ++ emitted (drain_rounds this s)), d, sync, final.
  rewrite (drain_run this s Hc Hq). unfold drain_commit, drain_caught.
  rewrite Ho, Hu, Hd. cbv zeta. rewrite <- Henc, Hresp, Hcur.
  destruct (handleFailedSync this (Some sync) err (after (drain_rounds this s)))
    as [o s2 calls2]. cbn [outcome] in Hfinal. subst o.
  cbn [negb outcome after emitted].
  split; [exact Hlast|]. split; [reflexivity|]. split.
  - rewrite <- !app_assoc. reflexivity.
  - repeat split.
Qed.

Lemma rejected_commit_is_reported_to_providers_witness :
  let this := example_service process_update commit_offline in
  let r := processSyncQueue this remote_queued in
  exists before rest,
    emitted r
    = before
      ++ [UpdateBookmarks "encrypted";
          ProviderHandleUpdateRemoteFailed BookmarkSyncProviderSvc offline
            (Some example_data) (Some remote_sync)]
      ++ rest.
Proof.
  intros this r.
  destruct (rejected_commit_is_reported_to_providers this remote_queued
              "encrypted" offline)
    as (before & d & sync & final & Hlast & Henc & He & _);
    [reflexivity|discriminate|reflexivity
    |cbv; repeat (first [left; reflexivity|right])|reflexivity|].
  injection Hlast as <-. destruct d as [enc]. cbn in Henc. subst enc.
  exists before. eexists. exact He.
Defined.

(** ** The completion signals of the syncs of a drain *)

Lemma removelast_incl {A} (l : list A) (x : A) : In x (removelast l) -> In x l.
Proof.
  induction l as [|a l IH]; [intros []|]. destruct l as [|b l]; [intros []|].
  intros [H|H]; [left; exact H|right; apply IH; exact H].
Qed.

Lemma NoDup_map_injective {A B} (f : A -> B) (l : list A) (a b : A) :
  List.NoDup (map f l) -> In a l -> In b l -> f a = f b -> a = b.
Proof.
  induction l as [|x l IH]; intros Hnd Ha Hb Heq; [destruct Ha|].
  simpl in Hnd. inversion Hnd as [|? ? Hnotin Hnd']; subst.
  destruct Ha as [->|Ha], Hb as [->|Hb].
  - reflexivity.
  - exfalso. apply Hnotin. rewrite Heq. apply in_map. exact Hb.
  - exfalso. apply Hnotin. rewrite <- Heq. apply in_map. exact Ha.
  - apply IH; assumption.
Qed.

(** The rounds of the loop that were completed: all of them when the
    loop is fulfilled, all but the last when it is rejected.  The deferred
    of the sync of a completed round is resolved, by a single call; no
    other deferred is touched. *)
Lemma rounds_signals (this : SyncEngineService) (vars : Vars.t) (s : Engine)
    (run : Run Vars.t) :
  rounds this vars s run ->
  List.NoDup (map deferred (syncQueue s)) ->
  Forall (fun sync => deferreds s !! deferred sync = Some Pending) (syncQueue s) ->
  forall d : nat,
    (In d (map deferred
             (match outcome run with
              | Fulfilled _ => processed this (enabled s) (syncQueue s)
              | Rejected _ => removelast (processed this (enabled s) (syncQueue s))
              end)) ->
     deferreds (after run) !! d = Some Resolved
     /\ settlements d (emitted run) = [DeferredResolve d])
    /\ (~ In d (map deferred
                  (match outcome run with
                   | Fulfilled _ => processed this (enabled s) (syncQueue s)
                   | Rejected _ => removelast (processed this (enabled s) (syncQueue s))
                   end)) ->
        deferreds (after run) !! d = deferreds s !! d
        /\ settlements d (emitted run) = []).
Proof.
  induction 1 as [vars s Hq|vars s sync rest err s1 calls1 Hq Ha
                 |vars s sync rest vars1 s1 calls1 result s2 calls2 Hq Ha Hrounds IH];
    intros Hnd Hpend d; cbn [outcome after emitted] in *.
  - rewrite Hq. cbn. split; [intros []|]. intros _. split; reflexivity.
  - destruct (round_rejected_inv this vars s s1 sync rest err calls1 Hq Ha)
      as (Ht & Hr & -> & ->).
    rewrite Hq, (processed_rejected this _ sync rest err Ht Hr). cbn [removelast map].
    split; [intros []|]. intros _. split; [reflexivity|].
    apply settlements_none. constructor; [reflexivity|].
    apply no_settlement_map. reflexivity.
  - pose proof (round_fulfilled_inv this vars vars1 s s1 sync rest calls1 Hq Ha) as Hok.
    destruct (round_completed this vars s sync rest Hq Hok)
      as (vars1' & s1' & calls1' & Ha' & Hd1 & _ & Hs1 & Hs2 & Hq1 & Hproc).
    rewrite Ha in Ha'. injection Ha' as <- <- <-.
    rewrite Hq in Hnd, Hpend. cbn [map] in Hnd.
    inversion Hnd as [|? ? Hnotin Hnd']; subst.
    inversion Hpend as [|? ? Hp Hpend']; subst.
    assert (Hsub : forall x, In x (syncQueue s1) -> In x rest).
    { intros x Hx. destruct Hq1 as [Hq1|Hq1]; rewrite Hq1 in Hx; [exact Hx|destruct Hx]. }
    assert (Hnd1 : List.NoDup (map deferred (syncQueue s1))).
    { destruct Hq1 as [-> | ->]; [exact Hnd'|constructor]. }
    assert (Hpend1 : Forall (fun x => deferreds s1 !! deferred x = Some Pending)
                       (syncQueue s1)).
    { rewrite List.Forall_forall in Hpend' |- *. intros x Hx.
      rewrite Hd1, settle_other; [apply Hpend', Hsub; exact Hx|].
      intros Heq. apply Hnotin. rewrite Heq. apply in_map, Hsub. exact Hx. }
    specialize (IH Hnd1 Hpend1 d).
    set (completed1 := match result with
                       | Fulfilled _ => processed this (enabled s1) (syncQueue s1)
                       | Rejected _ =>
                           removelast (processed this (enabled s1) (syncQueue s1))
                       end) in *.
    assert (Hcompleted :
              match result with
              | Fulfilled _ => processed this (enabled s) (syncQueue s)
              | Rejected _ => removelast (processed this (enabled s) (syncQueue s))
              end = sync :: completed1).
    { rewrite Hq, Hproc. subst completed1. destruct result as [v|e]; [reflexivity|].
      destruct (syncQueue s1) as [|sync' rest'] eqn:E.
      - inversion Hrounds; subst; congruence.
      - destruct (processed this (enabled s1) (sync' :: rest')) as [|x l] eqn:Hne;
          [exfalso; exact (processed_nonempty this _ sync' rest' Hne)|reflexivity]. }
    rewrite Hcompleted. cbn [map].
    assert (Hin1 : In d (map deferred completed1) -> In d (map deferred rest)).
    { intros H. apply in_map_iff in H. destruct H as (x & <- & Hx).
      apply in_map, Hsub. subst completed1.
      destruct result; [|apply removelast_incl in Hx];
        exact (processed_incl this _ _ _ Hx). }
    rewrite settlements_app.
    destruct (Nat.eq_dec d (deferred sync)) as [->|Hne].
    + assert (Hout : ~ In (deferred sync) (map deferred completed1))
        by (intros H; apply Hnotin, Hin1, H).
      destruct IH as [_ IH]. destruct (IH Hout) as [Hds Hset].
      split; [|intros H; exfalso; apply H; left; reflexivity].
      intros _. rewrite Hds, Hd1, Hs1, Hset.
      split; [apply settle_pending; exact Hp|reflexivity].
    + rewrite (Hs2 d Hne). cbn [app]. split.
      * intros [H|H]; [congruence|]. apply (proj1 IH H).
      * intros H.
        assert (Hout : ~ In d (map deferred completed1))
          by (intros H'; apply H; right; exact H').
        destruct (proj2 IH Hout) as [Hds Hset].
        split; [|exact Hset]. rewrite Hds, Hd1. apply settle_other. congruence.
Qed.

(** What follows the loop of a fulfilled drain touches no deferred. *)
Lemma drain_commit_fulfilled (this : SyncEngineService) (loop : Run Vars.t) :
  outcome (drain_commit this loop) = Fulfilled tt ->
  (exists vars, outcome loop = Fulfilled vars)
  /\ deferreds (after (drain_commit this loop)) = deferreds (after loop)
  /\ syncQueue (after (drain_commit this loop)) = syncQueue (after loop)
  /\ Forall (fun ev => is_settlement ev = false) (emitted (drain_commit this loop)).
Proof.
  assert (Hcaught : forall err s, outcome (drain_caught this err s) <> Fulfilled tt).
  { intros err s. unfold drain_caught.
    destruct (handleFailedSync this (currentSync s) err s) as [[e|e] s1 calls];
      discriminate. }
  unfold drain_commit. destruct (outcome loop) as [vars|err];
    [|intros H; exfalso; exact (Hcaught _ _ H)].
  destruct (Vars.updateRemote vars); cbn [negb].
  - destruct (Vars.processedBookmarksData vars) as [d|];
      [|intros H; exfalso; exact (Hcaught _ _ H)].
    cbv zeta.
    destruct (apiSvc_updateBookmarks_response this (encryptedBookmarks d))
      as [response|err]; cbn [outcome after emitted].
    + intros _. split; [eauto|]. repeat split. repeat constructor.
    + intros H. exfalso. exact (Hcaught _ _ H).
  - intros _. split; [eauto|]. repeat split. constructor.
Qed.

(** X17.  A drain that starts on a queue of syncs with distinct, pending
    deferreds and is fulfilled leaves the queue empty, and it has settled
    the deferreds of exactly the syncs it processed: each of them is
    resolved, by one call.  A sync of the queue that was not processed, one
    dropped behind a Cancel, keeps a pending deferred: no call of the drain
    settles it, although the sync is gone from the queue. *)
Theorem fulfilled_drain_resolves_processed_syncs (this : SyncEngineService)
    (s : Engine) :
  currentSync s = None ->
  syncQueue s <> [] ->
  List.NoDup (map deferred (syncQueue s)) ->
  Forall (fun sync => deferreds s !! deferred sync = Some Pending) (syncQueue s) ->
  outcome (processSyncQueue this s) = Fulfilled tt ->
  let r := processSyncQueue this s in
  let done := processed this (enabled s) (syncQueue s) in
  syncQueue (after r) = []
  /\ forall sync,
       In sync (syncQueue s) ->
       (In sync done ->
        deferreds (after r) !! deferred sync = Some Resolved
        /\ settlements (deferred sync) (emitted r) = [DeferredResolve (deferred sync)])
       /\ (~ In sync done ->
           deferreds (after r) !! deferred sync = Some Pending
           /\ settlements (deferred sync) (emitted r) = []).
Proof.
  intros Hc Hq Hnd Hpend Ho. cbv zeta. revert Ho.
  rewrite (drain_run this s Hc Hq). cbn [outcome after emitted]. intros Ho.
  destruct (drain_commit_fulfilled this _ Ho) as ((vars' & Hloop) & Hds & Hqs & Hev).
  pose proof (drain_rounds_are_rounds this s) as Hrounds.
  split.
  { cbn [syncQueue with_currentSync]. rewrite Hqs.
    exact (rounds_fulfilled_queue this _ s _ Hrounds vars' Hloop). }
  intros sync Hin.
  pose proof (rounds_signals this _ s _ Hrounds Hnd Hpend (deferred sync)) as Hsig.
  rewrite Hloop in Hsig.
  assert (Hstop : settlements (deferred sync) (polling_stopped s) = []).
  { unfold polling_stopped. destruct (enabled s); reflexivity. }
  assert (Hstart : forall s', settlements (deferred sync) (polling_restarted s') = []).
  { intros s'. unfold polling_restarted. destruct (enabled s'); reflexivity. }
  rewrite !settlements_app, Hstop, Hstart, (settlements_none _ _ Hev), !app_nil_r.
  cbn [app deferreds with_currentSync]. rewrite Hds.
  assert (Hiff : In (deferred sync)
                   (map deferred (processed this (enabled s) (syncQueue s)))
                 <-> In sync (processed this (enabled s) (syncQueue s))).
  { split; [|apply in_map]. intros H. apply in_map_iff in H.
    destruct H as (x & Heq & Hx).
    rewrite <- (NoDup_map_injective deferred (syncQueue s) x sync Hnd
                  (processed_incl this _ _ _ Hx) Hin Heq).
    exact Hx. }
  split.
  - intros Hdone. apply (proj1 Hsig). apply Hiff. exact Hdone.
  - intros Hnot. destruct (proj2 Hsig) as [H1 H2]; [rewrite Hiff; exact Hnot|].
    split; [|exact H2]. rewrite H1.
    rewrite List.Forall_forall in Hpend. apply Hpend. exact Hin.
Qed.

Lemma fulfilled_drain_resolves_processed_syncs_witness :
  let this := example_service process_update commit_ok in
  let r := processSyncQueue this cancel_then_remote in
  syncQueue (after r) = []
  /\ deferreds (after r) !! 2 = Some Resolved
  /\ deferreds (after r) !! 0 = Some Pending.
Proof.
  intros this r.
  destruct (fulfilled_drain_resolves_processed_syncs this cancel_then_remote)
    as [Hq Hsig].
  - reflexivity.
  - discriminate.
  - repeat constructor; simpl; intuition discriminate.
  - repeat constructor.
  - reflexivity.
  - split; [exact Hq|]. split.
    + apply (proj1 (Hsig cancel_sync ltac:(left; reflexivity))). left. reflexivity.
    + apply (proj2 (Hsig remote_sync ltac:(right; left; reflexivity))).
      intros [H|[]]. discriminate H.
Defined.

(** X18.  A Cancel taken off the queue while sync is enabled drops every
    sync queued behind it: the drain processes the Cancel alone, hands no
    sync to any provider, and ends fulfilled with the queue empty and sync
    disabled.  The deferreds of the dropped syncs are left as they were:
    no call of the drain settles them, although the syncs are gone from
    the queue. *)
Theorem Cancel_drops_the_syncs_behind_it (this : SyncEngineService) (s : Engine)
    (cancel : Sync) (rest : list Sync) :
  currentSync s = None ->
  syncQueue s = cancel :: rest ->
  type cancel = Cancel ->
  enabled s = true ->
  let r := processSyncQueue this s in
  processed this (enabled s) (syncQueue s) = [cancel]
  /\ outcome r = Fulfilled tt
  /\ syncQueue (after r) = []
  /\ enabled (after r) = false
  /\ processSync_requests (emitted r) = []
  /\ forall sync,
       In sync rest ->
       deferred sync <> deferred cancel ->
       deferreds (after r) !! deferred sync = deferreds s !! deferred sync
       /\ settlements (deferred sync) (emitted r) = [].
Proof.
  intros Hc Hq Ht He. cbv zeta.
  destruct (drain_Cancel this s cancel rest Hc Hq Ht (or_introl He))
    as (Ho & Hev & Ha & Hqa & _ & Hen).
  set (s1 := with_currentSync (Some cancel) (with_syncQueue rest s)) in *.
  destruct (aside_disableSync this s1) as (_ & Hds & Hquiet).
  split.
  { rewrite Hq, He. cbn [processed]. apply SyncType_eqb_eq in Ht. rewrite Ht.
    reflexivity. }
  split; [exact Ho|]. split; [exact Hqa|]. split; [exact Hen|]. split.
  - rewrite Hev, He, !processSync_requests_app, disableSync_no_request. reflexivity.
  - intros sync _ Hne. split.
    + rewrite Ha. cbn [deferreds with_currentSync with_deferreds].
      apply settle_other. congruence.
    + rewrite Hev, He, !settlements_app, (settlements_none _ _ Hquiet).
      rewrite !settlements_cons. cbn [settles].
      replace (deferred sync =? deferred cancel) with false
        by (symmetry; apply Nat.eqb_neq; exact Hne).
      reflexivity.
Qed.

Lemma Cancel_drops_the_syncs_behind_it_witness :
  let this := example_service process_update commit_ok in
  let r := processSyncQueue this cancel_then_remote in
  processSync_requests (emitted r) = []
  /\ deferreds (after r) !! 0 = Some Pending.
Proof.
  intros this r.
  destruct (Cancel_drops_the_syncs_behind_it this cancel_then_remote
              cancel_sync [remote_sync])
    as (_ & _ & _ & _ & Hreq & Hd);
    [reflexivity|reflexivity|reflexivity|reflexivity|].
  split; [exact Hreq|].
  destruct (Hd remote_sync) as [H _]; [left; reflexivity|discriminate|].
  exact H.
Defined.

(** * Enqueuing and disabling *)

Lemma queueSync_queued_run (this : SyncEngineService) (syncToQueue : Sync)
    (s : Engine) :
  queueSync this (Some syncToQueue) false s
  = mkRun (Fulfilled Pending)
      (mkEngine (store s)
         ((if enabled s && negb (SyncType_eqb (type syncToQueue) Cancel)
           then syncQueue s else [])
          ++ [queued_sync this syncToQueue (nextDeferred s)])
         (currentSync s) (<[nextDeferred s := Pending]> (deferreds s))
         (S (nextDeferred s)))
      [].
Proof.
  unfold queueSync, then_, storeSvc_get, get, q_defer, modify, enabled.
  destruct (truthy (Store_get SyncEnabled (store s)));
    destruct (SyncType_eqb (type syncToQueue) Cancel);
    cbn [negb andb resolve outcome after emitted syncQueue with_syncQueue store
         currentSync deferreds nextDeferred app];
    rewrite lookup_insert_eq; reflexivity.
Qed.

(** X19.  [queueSync] without a drain.  The sync is queued last, with a
    new, pending deferred, and the promise returned is pending; no call is
    made and the store and the current sync are untouched.  The syncs
    queued before are kept when sync is enabled and the new sync is no
    Cancel; they are all dropped, their deferreds unsettled, when sync is
    disabled or the new sync is a Cancel.  The queued sync keeps a
    non-empty [uniqueId] of its own and is given a generated one
    otherwise.  Right after, [getCurrentSync] returns the sync just queued
    and [getSyncQueueLength] counts it. *)
Theorem queueSync_enqueues (this : SyncEngineService) (syncToQueue : Sync)
    (s : Engine) :
  let r := queueSync this (Some syncToQueue) false s in
  let queued := queued_sync this syncToQueue (nextDeferred s) in
  let kept :=
    if enabled s && negb (SyncType_eqb (type syncToQueue) Cancel)
    then syncQueue s else [] in
  outcome r = Fulfilled Pending
  /\ emitted r = []
  /\ syncQueue (after r) = kept ++ [queued]
  /\ store (after r) = store s
  /\ currentSync (after r) = currentSync s
  /\ deferreds (after r) = <[nextDeferred s := Pending]> (deferreds s)
  /\ nextDeferred (after r) = S (nextDeferred s)
  /\ type queued = type syncToQueue
  /\ (forall u, uniqueId syncToQueue = Some u -> u <> ""%string ->
        uniqueId queued = Some u)
  /\ (uniqueId syncToQueue = None \/ uniqueId syncToQueue = Some ""%string ->
      uniqueId queued = Some (getUniqueishId this))
  /\ getCurrentSync (after r) = Some queued
  /\ getSyncQueueLength (after r) = S (length kept).
Proof.
  cbv zeta. rewrite queueSync_queued_run. cbn [outcome after emitted].
  set (kept := if enabled s && negb (SyncType_eqb (type syncToQueue) Cancel)
               then syncQueue s else []).
  set (queued := queued_sync this syncToQueue (nextDeferred s)).
  do 8 (split; [reflexivity|]).
  split.
  { intros u Hu Hne. subst queued. unfold queued_sync. rewrite Hu. cbn [uniqueId].
    apply String.eqb_neq in Hne. rewrite Hne. reflexivity. }
  split.
  { intros [Hu|Hu]; subst queued; unfold queued_sync; rewrite Hu; reflexivity. }
  split.
  - unfold getCurrentSync. cbn [syncQueue].
    destruct (kept ++ [queued]) as [|x l] eqn:E; [destruct kept; discriminate E|].
    rewrite <- E. apply last_snoc.
  - unfold getSyncQueueLength. cbn [syncQueue]. rewrite length_app. cbn. lia.
Qed.

Lemma queued_syncs_types (this : SyncEngineService) (syncs : list Sync) :
  forall d, map type (queued_syncs this d syncs) = map type syncs.
Proof.
  induction syncs as [|sync syncs IH]; intros d; [reflexivity|].
  cbn. f_equal. apply IH.
Qed.

(** Syncs that are no Cancel, queued one after the other while sync is
    enabled, are appended to the queue in the order of the calls. *)
Lemma queueSync_sequence (this : SyncEngineService) (syncs : list Sync) :
  forall s : Engine,
    enabled s = true ->
    Forall (fun sync => type sync <> Cancel) syncs ->
    let s' := fold_left (perform this)
                (map (fun sync => QueueSync (Some sync) false) syncs) s in
    syncQueue s' = syncQueue s ++ queued_syncs this (nextDeferred s) syncs
    /\ enabled s' = true
    /\ currentSync s' = currentSync s.
Proof.
  induction syncs as [|sync syncs IH]; intros s He Hall; cbv zeta.
  - cbn. rewrite app_nil_r. auto.
  - inversion Hall as [|? ? Ht Hall']; subst.
    cbn [map fold_left perform]. rewrite queueSync_queued_run. cbn [after].
    apply SyncType_eqb_neq in Ht. rewrite He, Ht. cbn [negb andb].
    match goal with |- context [fold_left _ _ ?s1] =>
      destruct (IH s1 He Hall') as (Hq & He' & Hc) end.
    cbn [syncQueue nextDeferred currentSync] in Hq, Hc.
    rewrite Hq, <- app_assoc. auto.
Qed.

Lemma filter_not_Cancel (syncs : list Sync) :
  Forall (fun sync => type sync <> Cancel) syncs ->
  List.filter not_Cancel syncs = syncs.
Proof.
  induction 1 as [|sync syncs Ht _ IH]; [reflexivity|].
  cbn. unfold not_Cancel at 1. apply SyncType_eqb_neq in Ht. rewrite Ht. cbn.
  f_equal. exact IH.
Qed.

(** X20.  Processing order is enqueue order.  While sync is enabled,
    with no sync in flight and an empty queue, syncs that are no Cancel
    are queued one after the other (without a drain), and then the queue
    is drained: the queue holds the syncs in the order of the [queueSync]
    calls, the drain processes the first of them, up to and including the
    first one a provider rejects, and it hands exactly those to every
    provider, in that order. *)
Theorem processing_order_is_enqueue_order (this : SyncEngineService)
    (syncs : list Sync) (s : Engine) :
  enabled s = true ->
  currentSync s = None ->
  syncQueue s = [] ->
  syncs <> [] ->
  Forall (fun sync => type sync <> Cancel) syncs ->
  let queued := queued_syncs this (nextDeferred s) syncs in
  let s' := fold_left (perform this)
              (map (fun sync => QueueSync (Some sync) false) syncs) s in
  let done := processed this true queued in
  syncQueue s' = queued
  /\ map type queued = map type syncs
  /\ (exists remaining, queued = done ++ remaining)
  /\ processSync_requests (emitted (processSyncQueue this s')) = fan_out this done.
Proof.
  intros He Hc Hq Hne Hall. cbv zeta.
  destruct (queueSync_sequence this syncs s He Hall) as (Hq' & He' & Hc').
  rewrite Hq in Hq'. cbn [app] in Hq'. rewrite Hc in Hc'.
  split; [exact Hq'|]. split; [apply queued_syncs_types|].
  split; [apply processed_prefix|].
  match goal with |- context [processSyncQueue this ?x] => set (s' := x) in * end.
  assert (Hne' : syncQueue s' <> []).
  { rewrite Hq'. destruct syncs; [congruence|discriminate]. }
  rewrite (drain_run this s' Hc' Hne'). cbn [emitted].
  rewrite !processSync_requests_app.
  rewrite (rounds_requests this _ s' _ (drain_rounds_are_rounds this s')).
  rewrite He', Hq'.
  assert (Hstop : processSync_requests (polling_stopped s') = []).
  { unfold polling_stopped. destruct (enabled s'); reflexivity. }
  assert (Hstart : forall x, processSync_requests (polling_restarted x) = []).
  { intros x. unfold polling_restarted. destruct (enabled x); reflexivity. }
  rewrite Hstop, Hstart.
  rewrite (processSync_requests_none (emitted (drain_commit this (drain_rounds this s')))).
  - rewrite !app_nil_r. cbn [app]. f_equal. apply filter_not_Cancel.
    apply List.Forall_forall. intros x Hx.
    apply (processed_incl this) in Hx.
    assert (Hty : In (type x) (map type (queued_syncs this (nextDeferred s) syncs)))
      by (apply in_map; exact Hx).
    rewrite queued_syncs_types in Hty. apply in_map_iff in Hty.
    destruct Hty as (y & Hy & Hin). rewrite <- Hy.
    rewrite List.Forall_forall in Hall. apply Hall. exact Hin.
  - apply drain_commit_emits; try reflexivity.
    intros ev Hev. destruct ev; try reflexivity. discriminate Hev.
Qed.

Lemma processing_order_is_enqueue_order_witness :
  let this := example_service process_update commit_ok in
  let s' := fold_left (perform this)
              [QueueSync (Some remote_sync) false; QueueSync (Some local_sync) false]
              idle_enabled in
  map (fun request => type (snd request))
      (processSync_requests (emitted (processSyncQueue this s')))
  = [Remote; Local].
Proof.
  intros this s'.
  destruct (processing_order_is_enqueue_order this [remote_sync; local_sync]
              idle_enabled)
    as (_ & _ & _ & Hreq);
    [reflexivity|reflexivity|reflexivity|discriminate
    |repeat constructor; discriminate|].
  subst s'. cbn [map] in Hreq. rewrite Hreq. reflexivity.
Defined.

(** X21.  [disableSync] while sync is enabled empties the queue without
    telling anyone: the deferreds of the syncs that were queued are left
    as they were and no call settles them.  It does not clear the current
    sync either, and it keeps [LastUpdated], while [Password] and
    [SyncVersion] are removed and [SyncEnabled] is set to [false]. *)
Theorem disableSync_drops_the_queue_silently (this : SyncEngineService) (s : Engine) :
  enabled s = true ->
  let r := disableSync this s in
  outcome r = Fulfilled tt
  /\ syncQueue (after r) = []
  /\ currentSync (after r) = currentSync s
  /\ deferreds (after r) = deferreds s
  /\ Forall (fun ev => is_settlement ev = false) (emitted r)
  /\ Store_get LastUpdated (store (after r)) = Store_get LastUpdated (store s)
  /\ Store_get Password (store (after r)) = None
  /\ Store_get SyncVersion (store (after r)) = None
  /\ Store_get SyncEnabled (store (after r)) = Some (VBool false).
Proof.
  intros He. cbv zeta.
  destruct (aside_disableSync this s) as (_ & _ & Hquiet).
  revert Hquiet. rewrite (disableSync_when_enabled this s He).
  cbn [outcome after emitted]. intros Hquiet. repeat split. exact Hquiet.
Qed.

Lemma disableSync_drops_the_queue_silently_witness :
  let r := disableSync (example_service process_update commit_ok) remote_then_local in
  syncQueue (after r) = []
  /\ deferreds (after r) = deferreds remote_then_local.
Proof.
  intros r.
  destruct (disableSync_drops_the_queue_silently
              (example_service process_update commit_ok) remote_then_local eq_refl)
    as (_ & Hq & _ & Hd & _).
  split; [exact Hq|exact Hd].
Defined.

(** X22.  A round of the drain loop in which every provider is fulfilled
    calls [enableSync] only when sync is disabled and the sync's command
    is not [RestoreBookmarks].  While sync is enabled, or for a
    [RestoreBookmarks] sync, the round makes no other calls than the
    announcement of the sync, [processSync] on every provider, the
    resolution of the sync's deferred and the status refresh, and it
    leaves the store as it was: a sync that restores bookmarks while sync
    is disabled leaves sync disabled. *)
Theorem round_without_enableSync (this : SyncEngineService) (vars : Vars.t)
    (s : Engine) (sync : Sync) (rest : list Sync) (results : list SyncProcessResult) :
  syncQueue s = sync :: rest ->
  type sync <> Cancel ->
  processSync_all this sync = Fulfilled results ->
  enabled s = true \/ command sync = Some RestoreBookmarks ->
  let r := action this vars s in
  emitted r
  = [InterfaceRefresh None (Some (type sync))]
    ++ processSync_calls this sync
    ++ [DeferredResolve (deferred sync);
        InterfaceRefresh (Store_get SyncEnabled (store s)) None]
  /\ store (after r) = store s
  /\ enabled (after r) = enabled s
  /\ syncQueue (after r) = rest
  /\ currentSync (after r) = Some sync.
Proof.
  intros Hq Ht Hr Hcase. cbv zeta.
  rewrite (action_fulfilled this vars s sync rest results Hq Ht Hr).
  assert (Hno : negb (enabled s) && negb (is_RestoreBookmarks (command sync)) = false).
  { destruct Hcase as [-> | ->]; [reflexivity|]. cbn. apply andb_false_r. }
  rewrite Hno. cbn [outcome after emitted app].
  repeat split; destruct s; reflexivity.
Qed.

Lemma round_without_enableSync_witness :
  let this := example_service process_update commit_ok in
  let restore := mkSync None Remote (Some RestoreBookmarks) 0 in
  let s := mkEngine store_disabled [restore] None {[ 0 := Pending ]} 1 in
  enabled (after (action this (Vars.mk None false) s)) = false.
Proof.
  intros this restore s.
  destruct (round_without_enableSync this (Vars.mk None false) s restore []
              [mkResult example_data (Some true)])
    as (_ & _ & He & _);
    [reflexivity|discriminate|reflexivity|right; reflexivity|].
  exact He.
Defined.

(** ** queueSync with a drain *)

Lemma queueSync_drain_run (this : SyncEngineService) (syncToQueue : Sync)
    (s : Engine) :
  queueSync this (Some syncToQueue) true s
  = match processSyncQueue this (after (queueSync this (Some syncToQueue) false s)) with
    | mkRun result s1 calls =>
        mkRun (Fulfilled
                 (match deferreds s1 !! nextDeferred s, result with
                  | Some (RejectedWith err), _ => RejectedWith err
                  | _, Rejected err => RejectedWith err
                  | Some Resolved, _ => Resolved
                  | _, _ => Pending
                  end))
          s1 calls
    end.
Proof.
  unfold queueSync, then_, storeSvc_get, get, q_defer, modify.
  destruct (truthy (Store_get SyncEnabled (store s)));
    destruct (SyncType_eqb (type syncToQueue) Cancel);
    cbn [negb resolve outcome after emitted syncQueue with_syncQueue store
         currentSync deferreds nextDeferred app];
    match goal with |- context [processSyncQueue this ?x] =>
      destruct (processSyncQueue this x) as [[[]|err] s1 calls] end;
    cbn [outcome after emitted app]; rewrite ?app_nil_r;
    destruct (deferreds s1 !! nextDeferred s) as [[| |e]|]; reflexivity.
Qed.

(** A loop that is fulfilled, on a queue in which a Cancel can only be
    the last sync, has processed the whole queue. *)
Lemma rounds_fulfilled_all (this : SyncEngineService) (vars : Vars.t) (s : Engine)
    (run : Run Vars.t) :
  rounds this vars s run ->
  forall vars',
    outcome run = Fulfilled vars' ->
    Forall (fun sync => type sync <> Cancel) (removelast (syncQueue s)) ->
    processed this (enabled s) (syncQueue s) = syncQueue s.
Proof.
  induction 1 as [vars s Hq|vars s sync rest err s1 calls1 Hq Ha
                 |vars s sync rest vars1 s1 calls1 result s2 calls2 Hq Ha Hrounds IH];
    intros vars' Ho Hall; cbn [outcome] in *.
  - rewrite Hq. reflexivity.
  - discriminate.
  - pose proof (round_fulfilled_inv this vars vars1 s s1 sync rest calls1 Hq Ha) as Hok.
    destruct (round_completed this vars s sync rest Hq Hok)
      as (vars1' & s1' & calls1' & Ha' & _ & _ & _ & _ & Hq1 & Hproc).
    rewrite Ha in Ha'. injection Ha' as <- <- <-.
    rewrite Hq in Hall |- *. rewrite Hproc.
    destruct rest as [|x rest'].
    + destruct Hq1 as [-> | ->]; reflexivity.
    + cbn [removelast] in Hall.
      pose proof (List.Forall_inv Hall) as Ht.
      pose proof (List.Forall_inv_tail Hall) as Hall'.
      assert (Hrest : syncQueue s1 = x :: rest').
      { destruct Hq1 as [Hq1|Hq1]; [exact Hq1|]. exfalso.
        destruct Hok as [Hc|[results Hr]]; [congruence|].
        rewrite (action_fulfilled this vars s sync (x :: rest') results Hq Ht Hr) in Ha.
        injection Ha as _ Hs1 _. rewrite <- Hs1 in Hq1. cbn in Hq1.
        destruct (_ && _) in Hq1; [rewrite enableSync_run in Hq1|];
          destruct s; discriminate Hq1. }
      f_equal. rewrite <- Hrest. apply (IH vars' Ho). rewrite Hrest. exact Hall'.
Qed.

(** X23.  [queueSync] with a drain, called while no sync is in flight,
    on a queue of syncs with distinct, pending deferreds created earlier
    and with no Cancel waiting: the promise it returns is settled when the
    drain is over.  It is fulfilled exactly when the drain is fulfilled,
    and then the queued sync was processed and its deferred is resolved;
    when the drain is rejected the promise is rejected, also when the sync
    that failed is another one than the sync just queued. *)
Theorem queueSync_answers_its_caller (this : SyncEngineService) (syncToQueue : Sync)
    (s : Engine) :
  currentSync s = None ->
  Forall (fun sync => type sync <> Cancel) (syncQueue s) ->
  List.NoDup (map deferred (syncQueue s)) ->
  Forall (fun sync => deferreds s !! deferred sync = Some Pending
                      /\ deferred sync < nextDeferred s) (syncQueue s) ->
  let queued := after (queueSync this (Some syncToQueue) false s) in
  let drain := processSyncQueue this queued in
  let r := queueSync this (Some syncToQueue) true s in
  after r = after drain
  /\ emitted r = emitted drain
  /\ exists state,
       outcome r = Fulfilled state
       /\ state <> Pending
       /\ (state = Resolved <-> outcome drain = Fulfilled tt)
       /\ (outcome drain = Fulfilled tt ->
           deferreds (after r) !! nextDeferred s = Some Resolved).
Proof.
  intros Hc Hall Hnd Hpend. cbv zeta. rewrite queueSync_drain_run.
  rewrite queueSync_queued_run. cbn [after].
  set (kept := if enabled s && negb (SyncType_eqb (type syncToQueue) Cancel)
               then syncQueue s else []).
  set (sync := queued_sync this syncToQueue (nextDeferred s)).
  set (s' := mkEngine _ _ _ _ _).
  assert (Hkept : forall x, In x kept -> In x (syncQueue s)).
  { subst kept. destruct (_ && _); [auto|intros x []]. }
  assert (Hc' : currentSync s' = None) by exact Hc.
  assert (Hq' : syncQueue s' = kept ++ [sync]) by reflexivity.
  assert (Hne' : syncQueue s' <> []) by (rewrite Hq'; destruct kept; discriminate).
  assert (Hnd' : List.NoDup (map deferred (syncQueue s'))).
  { rewrite Hq', map_app. cbn [map]. apply List.NoDup_app; repeat split.
    - subst kept. destruct (_ && _); [exact Hnd|constructor].
    - repeat constructor. intros [].
    - intros d Hd [Hin|[]]. apply in_map_iff in Hd.
      destruct Hd as (x & Hx & Hin'). apply Hkept in Hin'.
      rewrite List.Forall_forall in Hpend. destruct (Hpend x Hin') as [_ Hlt].
      change (deferred sync) with (nextDeferred s) in Hin. lia. }
  assert (Hpend' : Forall (fun x => deferreds s' !! deferred x = Some Pending)
                     (syncQueue s')).
  { rewrite Hq'. apply Forall_app. split.
    - apply List.Forall_forall. intros x Hx. apply Hkept in Hx.
      rewrite List.Forall_forall in Hpend. destruct (Hpend x Hx) as [Hp Hlt].
      subst s'. cbn [deferreds]. rewrite lookup_insert_ne by lia. exact Hp.
    - constructor; [|constructor]. apply lookup_insert_eq. }
  assert (Hlast : Forall (fun x => type x <> Cancel) (removelast (syncQueue s'))).
  { rewrite Hq', removelast_last. apply List.Forall_forall. intros x Hx.
    rewrite List.Forall_forall in Hall. apply Hall, Hkept, Hx. }
  pose proof (drain_rounds_are_rounds this s') as Hrounds.
  pose proof (rounds_signals this _ s' _ Hrounds Hnd' Hpend' (nextDeferred s)) as Hsig.
  destruct (processSyncQueue this s') as [result s1 calls] eqn:Hdrain.
  cbn [outcome after emitted]. split; [reflexivity|]. split; [reflexivity|].
  destruct result as [[]|err].
  - (* the drain is fulfilled *)
    assert (Ho : outcome (processSyncQueue this s') = Fulfilled tt)
      by (rewrite Hdrain; reflexivity).
    rewrite (drain_run this s' Hc' Hne') in Ho, Hdrain. cbn [outcome] in Ho.
    destruct (drain_commit_fulfilled this _ Ho) as ((vars' & Hloop) & Hds & _ & _).
    rewrite Hloop in Hsig.
    rewrite (rounds_fulfilled_all this _ s' _ Hrounds vars' Hloop Hlast) in Hsig.
    destruct (proj1 Hsig) as [Hres _].
    { rewrite Hq', map_app. apply in_or_app. right. left. reflexivity. }
    injection Hdrain as _ Hs1 _.
    assert (Hd1 : deferreds s1 !! nextDeferred s = Some Resolved).
    { rewrite <- Hs1. cbn [deferreds with_currentSync]. rewrite Hds. exact Hres. }
    rewrite Hd1. exists Resolved. split; [reflexivity|]. split; [discriminate|].
    split; [split; reflexivity|]. intros _. reflexivity.
  - (* the drain is rejected *)
    destruct (deferreds s1 !! nextDeferred s) as [[| |e]|];
      eexists; (split; [reflexivity|]); (split; [discriminate|]);
      (split; [split; discriminate|]); discriminate.
Qed.

Lemma queueSync_answers_its_caller_witness :
  let this := example_service process_update commit_ok in
  outcome (queueSync this (Some local_sync) true remote_queued) = Fulfilled Resolved.
Proof.
  intros this.
  destruct (queueSync_answers_its_caller this local_sync remote_queued)
    as (_ & _ & state & Ho & _ & Hiff & _).
  - reflexivity.
  - repeat constructor. discriminate.
  - repeat constructor. intros [].
  - repeat constructor.
  - rewrite Ho. f_equal. apply Hiff. reflexivity.
Defined.

(** * A rejected sync and the syncs behind it *)

Lemma handleFailedSync_offline_run (this : SyncEngineService) (failedSync : Sync)
    (err : Error) (s : Engine) :
  offline_branch failedSync err = true ->
  handleFailedSync this (Some failedSync) err s
  = mkRun (Fulfilled (Exception SyncUncommittedException (Some err)))
      (with_deferreds (settle (deferred failedSync) (RejectedWith err) (deferreds s)) s)
      [InterfaceRefresh None None; DeferredReject (deferred failedSync) err].
Proof.
  intros Hoff. unfold handleFailedSync. fold (offline_branch failedSync err).
  rewrite Hoff. unfold then_. simpl. destruct s; reflexivity.
Qed.

(** X24.  A drain, started while sync is enabled, whose first sync is
    rejected by a provider: the drain is rejected, only that sync was
    handed to the providers, and no sync is in flight afterwards.  What
    becomes of the syncs queued behind it depends on the failed sync.  In
    the offline branch they stay queued, sync stays enabled and the drain
    is rejected with a [SyncUncommittedException].  After a failed sync of
    type [Local], with an error that does not disable sync, they stay
    queued too, for a later drain.  After a failed sync of another type,
    outside the offline branch, they are all dropped. *)
Theorem rejected_sync_and_the_syncs_behind_it (this : SyncEngineService) (s : Engine)
    (sync : Sync) (rest : list Sync) (err : Error) :
  currentSync s = None ->
  syncQueue s = sync :: rest ->
  type sync <> Cancel ->
  processSync_all this sync = Rejected err ->
  enabled s = true ->
  let r := processSyncQueue this s in
  (exists final, outcome r = Rejected final)
  /\ currentSync (after r) = None
  /\ processSync_requests (emitted r)
     = map (fun provider => (provider, sync)) (providers this)
  /\ (offline_branch sync err = true ->
      outcome r = Rejected (Exception SyncUncommittedException (Some err))
      /\ syncQueue (after r) = rest
      /\ enabled (after r) = true)
  /\ (type sync = Local ->
      checkIfDisableSyncOnError (with_default_exception err) = false ->
      outcome r = Rejected (with_default_exception err)
      /\ syncQueue (after r) = rest
      /\ enabled (after r) = true)
  /\ (type sync <> Local ->
      offline_branch sync err = false ->
      syncQueue (after r) = []).
Proof.
  intros Hc Hq Ht Hr He. cbv zeta.
  rewrite (drain_first_rejected this s sync rest err Hc Hq Ht Hr).
  set (s1 := with_currentSync (Some sync) (with_syncQueue rest s)).
  assert (He1 : enabled s1 = true) by (rewrite <- He; destruct s; reflexivity).
  destruct (handleFailedSync_settles this sync err s1) as (final & _ & Ho & _).
  pose proof (recovery_handleFailedSync this (Some sync) err s1) as Hrec.
  pose proof (handleFailedSync_offline_run this sync err s1) as Hoffline.
  pose proof (handleFailedSync_Local_run this sync err s1 He1) as Hlocal.
  pose proof (handleFailedSync_enabled_not_Local this sync err s1 He1) as Hchange.
  cbv zeta in Hchange.
  set (h := handleFailedSync this (Some sync) err s1) in *.
  cbn [outcome after emitted]. rewrite Ho.
  split; [eauto|]. split; [reflexivity|]. split.
  { rewrite !processSync_requests_app, processSync_requests_calls.
    rewrite (processSync_requests_none (emitted h))
      by (apply recovery_call_no_request; exact Hrec).
    assert (Hstop : processSync_requests (if enabled s then [AutomaticUpdatesStop] else [])
                    = []) by (destruct (enabled s); reflexivity).
    assert (Hstart : processSync_requests
                       (if enabled (after h) then [AutomaticUpdatesStart] else [])
                     = []) by (destruct (enabled (after h)); reflexivity).
    rewrite Hstop, Hstart. cbn. rewrite !app_nil_r. reflexivity. }
  split; [|split].
  - intros Hoff. specialize (Hoffline Hoff). rewrite Hoffline in Ho |- *.
    cbn [outcome after] in *. injection Ho as <-. repeat split. exact He1.
  - intros Hl Hd. specialize (Hlocal Hl Hd). rewrite Hlocal in Ho |- *.
    cbn [outcome after] in *. injection Ho as <-. repeat split. exact He1.
  - intros Hl Hoff. destruct (Hchange Hl Hoff) as [Hempty _]. exact Hempty.
Qed.

Lemma rejected_sync_and_the_syncs_behind_it_witness :
  let this := failing_service (Exception DataOutOfSyncException None)
                (Exception TooManyRequestsException None) in
  let s := mkEngine store_enabled [local_sync; remote_sync] None
             (<[ 0 := Pending ]> {[ 1 := Pending ]}) 2 in
  syncQueue (after (processSyncQueue this s)) = [remote_sync].
Proof.
  intros this s.
  destruct (rejected_sync_and_the_syncs_behind_it this s local_sync [remote_sync]
              (Exception DataOutOfSyncException None))
    as (_ & _ & _ & _ & Hlocal & _);
    [reflexivity|reflexivity|discriminate|reflexivity|reflexivity|].
  destruct (Hlocal eq_refl eq_refl) as (_ & Hq & _). exact Hq.
Defined.

(** * getCurrentSync after a drain *)

(** X25.  After a drain that was started with no sync in flight,
    [getCurrentSync] reports no sync in flight any more: it returns the
    sync queued last among those still waiting, and nothing when none is
    waiting.  After a fulfilled drain none is waiting, and
    [getSyncQueueLength] is 0. *)
Theorem getCurrentSync_after_a_drain (this : SyncEngineService) (s : Engine) :
  currentSync s = None ->
  syncQueue s <> [] ->
  let r := processSyncQueue this s in
  getCurrentSync (after r) = last (syncQueue (after r))
  /\ (outcome r = Fulfilled tt ->
      getCurrentSync (after r) = None /\ getSyncQueueLength (after r) = 0).
Proof.
  intros Hc Hq. cbv zeta.
  pose proof (drain_clears_currentSync this s Hc) as Hnone.
  assert (Hget : getCurrentSync (after (processSyncQueue this s))
                 = last (syncQueue (after (processSyncQueue this s)))).
  { unfold getCurrentSync. rewrite Hnone.
    destruct (syncQueue (after (processSyncQueue this s))); reflexivity. }
  split; [exact Hget|]. intros Ho.
  assert (Hempty : syncQueue (after (processSyncQueue this s)) = []).
  { revert Ho. rewrite (drain_run this s Hc Hq). cbn [outcome after]. intros Ho.
    destruct (drain_commit_fulfilled this _ Ho) as ((vars' & Hloop) & _ & Hqs & _).
    cbn [syncQueue with_currentSync]. rewrite Hqs.
    exact (rounds_fulfilled_queue this _ s _ (drain_rounds_are_rounds this s)
             vars' Hloop). }
  rewrite Hget. unfold getSyncQueueLength. rewrite Hempty. split; reflexivity.
Qed.

Lemma getCurrentSync_after_a_drain_witness :
  let this := example_service process_update commit_ok in
  getCurrentSync (after (processSyncQueue this remote_then_local)) = None.
Proof.
  intros this.
  destruct (getCurrentSync_after_a_drain this remote_then_local) as [_ H];
    [reflexivity|discriminate|].
  destruct (H eq_refl) as [Hnone _]. exact Hnone.
Defined.

(** * What is reported to the exception handler *)

Lemma reported_app (a b : list Event) : reported (a ++ b) = reported a ++ reported b.
Proof. apply omap_app. Qed.

Lemma reported_none (calls : list Event) :
  Forall (fun ev => reported_error ev = None) calls -> reported calls = [].
Proof.
  induction 1 as [|ev calls Hev _ IH]; [reflexivity|].
  unfold reported in *. simpl. rewrite Hev. exact IH.
Qed.

Lemma unreported_disableSync (this : SyncEngineService) :
  emits (fun ev => reported_error ev = None) (disableSync this).
Proof.
  intros s. destruct (enabled s) eqn:E.
  - rewrite (disableSync_when_enabled this s E). simpl.
    unfold disableSync_calls. repeat (constructor; [reflexivity|]).
    apply Forall_app. split.
    + apply Forall_map. apply Forall_forall. intros p _. reflexivity.
    + repeat (constructor; [reflexivity|]). constructor.
  - rewrite (disableSync_when_disabled this s E). constructor.
Qed.

Lemma unreported_setIsSyncing_None :
  emits (fun ev => reported_error ev = None) (setIsSyncing None).
Proof.
  unfold setIsSyncing. apply emits_then; [apply emits_get|].
  intros v. apply emits_call. reflexivity.
Qed.

(** X26.  Outside the offline branch [handleFailedSync] reports the
    failure to [$exceptionHandler] exactly once, and what it reports is
    the error after the default-exception step: the error as it was
    raised, or the [SyncFailedException] that wraps it, also when the
    failed sync's deferred is then rejected with another error (a
    [SyncRemovedException], or the error of a failed rebuild).  In the
    offline branch nothing is reported. *)
Theorem handleFailedSync_reports_once (this : SyncEngineService) (failedSync : Sync)
    (err : Error) (s : Engine) :
  reported (emitted (handleFailedSync this (Some failedSync) err s))
  = if offline_branch failedSync err then []
    else [with_default_exception err].
Proof.
  destruct (offline_branch failedSync err) eqn:Hoff.
  { rewrite (handleFailedSync_offline_run this failedSync err s Hoff). reflexivity. }
  unfold handleFailedSync. fold (offline_branch failedSync err). rewrite Hoff.
  fold (with_default_exception err).
  unfold then_ at 1 2 3, platformSvc_interface_Refresh, exceptionHandler, call.
  match goal with |- context [match ?rest s with mkRun _ _ _ => _ end] =>
    assert (Hrest : emits (fun ev => reported_error ev = None) rest)
  end.
  { repeat first
      [ apply unreported_disableSync
      | apply unreported_setIsSyncing_None
      | apply emits_then; [|intros ?]
      | apply emits_catch; [|intros ?]
      | apply emits_if
      | apply emits_resolve
      | apply emits_modify
      | apply emits_get
      | intros ?; simpl; repeat constructor ]. }
  specialize (Hrest s). apply reported_none in Hrest.
  match goal with |- context [match ?rest s with mkRun _ _ _ => _ end] =>
    destruct (rest s) as [[settled|e] s1 calls1] end;
    cbn [emitted] in Hrest; unfold then_, deferred_reject; cbn [resolve emitted];
    rewrite <- ?app_assoc, ?reported_app, Hrest; reflexivity.
Qed.


(** * Drains that overlap *)

(** ** A drain followed on its own *)

(** [processSyncQueue] is its guard and, when the guard is passed, the
    chain of l.334-378 with the [catch] and the [finally] at its end. *)
Lemma processSyncQueue_chain (this : SyncEngineService) (s : Engine) :
  processSyncQueue this s
  = match invoke s with
    | Finished result => mkRun result s []
    | _ =>
        settle_drain this
          (let* cachedSyncEnabled := storeSvc_get SyncEnabled in
           (if truthy cachedSyncEnabled then platformSvc_automaticUpdates_Stop
            else resolve tt);;
           let* vars :=
             (fun s' => promiseWhile (length (syncQueue s')) doActionUntil (action this)
                          (Vars.mk None false) s') in
           after_loop this vars)
          s
    end.
Proof.
  unfold processSyncQueue, invoke.
  destruct (bool_decide (is_Some (currentSync s)) || Nat.eqb (length (syncQueue s)) 0);
    reflexivity.
Qed.

Lemma settle_drain_preceded (this : SyncEngineService) (chain chain' : Promise unit)
    (s s' : Engine) (calls : list Event) :
  chain s = preceded calls (chain' s') ->
  settle_drain this chain s = preceded calls (settle_drain this chain' s').
Proof.
  intros H. unfold settle_drain, finally_, catch_, preceded in *. rewrite H.
  destruct (chain' s') as [[[]|err] s1 calls1]; cbn [outcome after emitted].
  - rewrite !drain_finally. cbn [outcome after emitted].
    rewrite <- !app_assoc. reflexivity.
  - destruct (then_ _ _ s1) as [result s2 calls2].
    rewrite !drain_finally. cbn [outcome after emitted].
    rewrite <- !app_assoc. reflexivity.
Qed.

Lemma alone_preceded (this : SyncEngineService) (calls calls' : list Event)
    (step : Run (option Drain)) :
  alone this calls (preceded calls' step) = alone this (calls ++ calls') step.
Proof.
  unfold alone, preceded, ended. destruct step as [[[d|]|err] s calls0];
    cbn [outcome after emitted].
  - rewrite app_assoc. reflexivity.
  - destruct (settle_drain this (resolve tt) s) as [result s' calls1].
    rewrite !app_assoc. reflexivity.
  - destruct (settle_drain this (throw err) s) as [result s' calls1].
    rewrite !app_assoc. reflexivity.
Qed.

(** The step in which the chain of a drain settles ends the drain as
    [catch] and [finally] end [processSyncQueue]. *)
Lemma alone_settled (this : SyncEngineService) (calls : list Event)
    (chain : Promise unit) (s : Engine) :
  alone this calls ((chain;; resolve None) s)
  = mkOverlap (after (settle_drain this chain s))
      [Finished (outcome (settle_drain this chain s))]
      (calls ++ emitted (settle_drain this chain s)).
Proof.
  unfold alone, ended, then_, resolve, throw, settle_drain, finally_, catch_.
  destruct (chain s) as [[[]|err] s1 calls1]; cbn [outcome after emitted].
  - rewrite !drain_finally. cbn [outcome after emitted].
    rewrite !app_nil_r. reflexivity.
  - destruct (then_ _ _ s1) as [result s2 calls2].
    rewrite !drain_finally. cbn [outcome after emitted].
    rewrite ?app_nil_r, <- ?app_assoc. reflexivity.
Qed.

Lemma turn_alone (this : SyncEngineService) (s : Engine) (d : Drain)
    (calls : list Event) :
  turn this (mkOverlap s [d] calls) (Resume 0) = alone this calls (resume this d s).
Proof.
  unfold turn, alone, advance. cbn [running shared made].
  change ([d] !! 0) with (Some d).
  cbv beta iota.
  destruct (ended this (resume this d s)) as [[d' s'] calls']. reflexivity.
Qed.

Ltac same_state :=
  cbv beta;
  cbn [outcome after emitted fst snd app negb
       with_currentSync with_syncQueue with_deferreds
       currentSync store syncQueue deferreds nextDeferred];
  repeat match goal with
         | Hb : ?b = _ |- context [?b] => rewrite Hb
         end.

(** A round is its beginning (l.267-275), the hand-over to the providers
    or the handling of a Cancel (l.276-302), and its end (l.303-331). *)
Lemma action_parts (this : SyncEngineService) (vars : Vars.t) (s : Engine)
    (sync : Sync) (rest : list Sync) :
  syncQueue s = sync :: rest ->
  let s1 := with_currentSync (Some sync) (with_syncQueue rest s) in
  action this vars s
  = preceded [InterfaceRefresh None (Some (type sync))]
      (if SyncType_eqb (type sync) Cancel then
         (sync_handleCancel this;;
          round_end this vars (Vars.processedBookmarksData vars) false) s1
       else
         preceded (processSync_calls this sync)
           (match processSync_all this sync with
            | Rejected err => throw err s1
            | Fulfilled processSyncResults =>
                round_end this vars
                  (extract_data this processSyncResults
                     (Vars.processedBookmarksData vars))
                  (combine_results processSyncResults) s1
            end)).
Proof.
  intros Hq s1. destruct s as [st q c ds nd]. simpl in Hq. subst q.
  unfold action, round_end, preceded.
  unfold setIsSyncing.
  unfold then_, modify, this_currentSync, resolve, throw,
    platformSvc_interface_Refresh, call, storeSvc_get, get, deferred_resolve.
  cbn [with_currentSync with_syncQueue head tail
    syncQueue currentSync store deferreds nextDeferred app outcome after emitted].
  subst s1.
  cbn [outcome after emitted fst snd app negb].
  destruct (SyncType_eqb (type sync) Cancel) eqn:Ht; cbv beta;
    rewrite ?q_all_processSync;
    fold (processSync_all this sync); fold (processSync_calls this sync);
    repeat (same_state;
            match goal with
            | |- context [if ?b then _ else _] => destruct b eqn:?
            | |- context [match processSync_all ?a ?b with _ => _ end] =>
                destruct (processSync_all a b) eqn:?
            | |- context [match currentSync ?s with _ => _ end] =>
                destruct (currentSync s) eqn:?
            | |- context [match sync_handleCancel ?t ?s with _ => _ end] =>
                destruct (sync_handleCancel t s) as [[[]|?] ? ?] eqn:?
            | |- context [match enableSync ?t ?s with _ => _ end] =>
                destruct (enableSync t s) as [[[]|?] ? ?] eqn:?
            end);
    repeat (same_state; cbn [outcome after emitted]);
    rewrite ?app_nil_r, <- ?app_assoc; reflexivity.
Qed.

Lemma next_round_begins (this : SyncEngineService) (vars : Vars.t) (s : Engine)
    (sync : Sync) (rest : list Sync) :
  syncQueue s = sync :: rest ->
  next_round this vars s
  = mkRun (Fulfilled (Some (Announcing vars)))
      (with_currentSync (Some sync) (with_syncQueue rest s))
      [InterfaceRefresh None (Some (type sync))].
Proof.
  intros Hq. destruct s as [st q c ds nd]. simpl in Hq. subst q. reflexivity.
Qed.

Lemma next_round_over (this : SyncEngineService) (vars : Vars.t) (s : Engine) :
  syncQueue s = [] ->
  next_round this vars s = (after_loop this vars;; resolve None) s.
Proof.
  intros Hq. unfold next_round, then_ at 1, doActionUntil, get. rewrite Hq.
  cbn [length Nat.eqb]. destruct ((after_loop this vars;; resolve None) s).
  reflexivity.
Qed.

Lemma turns_app (this : SyncEngineService) (o : Overlap) (ts ts' : list Turn) :
  turns this o (ts ++ ts') = turns this (turns this o ts) ts'.
Proof. apply fold_left_app. Qed.

Lemma then_assoc {A B C} (p : Promise A) (k : A -> Promise B) (h : B -> Promise C)
    (s : Engine) :
  then_ p (fun a => then_ (k a) h) s = then_ (then_ p k) h s.
Proof.
  unfold then_. destruct (p s) as [[a|err] s1 calls1]; [|reflexivity].
  destruct (k a s1) as [[b|err] s2 calls2]; [|reflexivity].
  destruct (h b s2) as [result s3 calls3]. rewrite app_assoc. reflexivity.
Qed.

Lemma then_preceded {A B} (p : Promise A) (k : A -> Promise B) (s : Engine) :
  then_ p k s
  = match outcome (p s) with
    | Fulfilled a => preceded (emitted (p s)) (k a (after (p s)))
    | Rejected err => mkRun (Rejected err) (after (p s)) (emitted (p s))
    end.
Proof.
  unfold then_, preceded. destruct (p s) as [[a|err] s1 calls1];
    cbn [outcome after emitted]; [|reflexivity].
  destruct (k a s1). reflexivity.
Qed.

(** A round of a drain followed on its own: after one or two steps the
    drain is where [action] leaves it. *)
Lemma round_alone (this : SyncEngineService) (vars : Vars.t) (s : Engine)
    (sync : Sync) (rest : list Sync) (calls : list Event) :
  syncQueue s = sync :: rest ->
  exists n,
    turns this (alone this calls (next_round this vars s)) (repeat (Resume 0) n)
    = match outcome (action this vars s) with
      | Fulfilled vars' =>
          alone this (calls ++ emitted (action this vars s))
            (next_round this vars' (after (action this vars s)))
      | Rejected err =>
          alone this (calls ++ emitted (action this vars s))
            (throw err (after (action this vars s)))
      end.
Proof.
  intros Hq. rewrite (action_parts this vars s sync rest Hq).
  rewrite (next_round_begins this vars s sync rest Hq).
  set (s1 := with_currentSync (Some sync) (with_syncQueue rest s)).
  unfold alone at 1. cbn [ended].
  destruct (SyncType_eqb (type sync) Cancel) eqn:Ht.
  - exists 1. cbn [repeat turns fold_left]. rewrite turn_alone.
    unfold resume. unfold then_ at 1.
    change (this_currentSync s1) with (mkRun (Fulfilled sync) s1 []).
    cbv beta iota. rewrite Ht.
    rewrite (then_assoc (sync_handleCancel this)).
    rewrite then_preceded.
    destruct (then_ (sync_handleCancel this) _ s1) as [[vars'|err] s2 calls2];
      cbn [outcome after emitted preceded app].
    + fold (preceded calls2 (next_round this vars' s2)).
      rewrite alone_preceded, <- app_assoc. reflexivity.
    + replace (mkRun (Rejected err) s2 calls2)
        with (preceded calls2 (@throw (option Drain) err s2))
        by (unfold preceded, throw; cbn [outcome after emitted];
            rewrite app_nil_r; reflexivity).
      rewrite alone_preceded, <- app_assoc. reflexivity.
  - exists 2. cbn [repeat turns fold_left]. rewrite turn_alone.
    unfold resume at 1. unfold then_ at 1.
    change (this_currentSync s1) with (mkRun (Fulfilled sync) s1 []).
    cbv beta iota. rewrite Ht.
    unfold then_ at 1. cbn [resolve app]. rewrite app_nil_r.
    unfold alone at 1. cbn [ended]. rewrite turn_alone.
    unfold resume.
    destruct (processSync_all this sync) as [results|err];
      cbn [outcome after emitted preceded throw app].
    + rewrite then_preceded.
      destruct (round_end this vars _ _ s1) as [[vars'|err] s2 calls2];
        cbn [outcome after emitted preceded app].
      * fold (preceded calls2 (next_round this vars' s2)).
        rewrite alone_preceded, <- !app_assoc. reflexivity.
      * replace (mkRun (Rejected err) s2 calls2)
          with (preceded calls2 (@throw (option Drain) err s2))
          by (unfold preceded, throw; cbn [outcome after emitted];
              rewrite app_nil_r; reflexivity).
        rewrite alone_preceded, <- !app_assoc. reflexivity.
    + rewrite app_nil_r, <- !app_assoc. reflexivity.
Qed.

Lemma preceded_nil {A} (r : Run A) : preceded [] r = r.
Proof. destruct r. reflexivity. Qed.

Lemma loop_alone_over (this : SyncEngineService) (fuel : nat) (vars : Vars.t)
    (s : Engine) (calls : list Event) :
  syncQueue s = [] ->
  alone this calls (next_round this vars s)
  = let r := settle_drain this
               (then_ (promiseWhile fuel doActionUntil (action this) vars)
                  (after_loop this)) s in
    mkOverlap (after r) [Finished (outcome r)] (calls ++ emitted r).
Proof.
  intros Hq. rewrite (next_round_over this vars s Hq), alone_settled.
  rewrite (settle_drain_preceded this
             (then_ (promiseWhile fuel doActionUntil (action this) vars)
                (after_loop this))
             (after_loop this vars) s s [])
    by (rewrite then_preceded, (promiseWhile_done this _ vars s Hq);
        reflexivity).
  rewrite preceded_nil. reflexivity.
Qed.

(** The loop of a drain followed on its own, and what follows the loop. *)
Lemma loop_alone (this : SyncEngineService) (fuel : nat) :
  forall (vars : Vars.t) (s : Engine) (calls : list Event),
    length (syncQueue s) <= fuel ->
    exists n,
      turns this (alone this calls (next_round this vars s)) (repeat (Resume 0) n)
      = let r := settle_drain this
                   (then_ (promiseWhile fuel doActionUntil (action this) vars)
                      (after_loop this)) s in
        mkOverlap (after r) [Finished (outcome r)] (calls ++ emitted r).
Proof.
  induction fuel as [|fuel IH]; intros vars s calls Hlen;
    destruct (syncQueue s) as [|sync rest] eqn:Hq; try (simpl in Hlen; lia).
  1, 2: exists 0; apply loop_alone_over; exact Hq.
  destruct (round_alone this vars s sync rest calls Hq) as (n1 & Hround).
  pose proof (action_queue this vars s sync rest Hq) as Ha.
  assert (Hchain :
            then_ (promiseWhile (S fuel) doActionUntil (action this) vars)
              (after_loop this) s
            = match outcome (action this vars s) with
              | Fulfilled vars' =>
                  preceded (emitted (action this vars s))
                    (then_ (promiseWhile fuel doActionUntil (action this) vars')
                       (after_loop this) (after (action this vars s)))
              | Rejected err =>
                  preceded (emitted (action this vars s))
                    (@throw unit err (after (action this vars s)))
              end).
  { rewrite then_preceded, (promiseWhile_round this fuel vars s sync rest Hq).
    rewrite (then_preceded (action this vars)).
    destruct (action this vars s) as [[vars'|err] s1 calls1];
      cbn [outcome after emitted preceded throw].
    - rewrite then_preceded.
      destruct (promiseWhile fuel doActionUntil (action this) vars' s1)
        as [[vars''|err] s2 calls2]; cbn [outcome after emitted preceded].
      + unfold preceded. cbn [outcome after emitted].
        rewrite app_assoc. reflexivity.
      + reflexivity.
    - unfold preceded, throw. cbn [outcome after emitted].
      rewrite app_nil_r. reflexivity. }
  destruct (action this vars s) as [[vars'|err] s1 calls1];
    cbn [outcome after emitted] in *.
  - assert (Hlen1 : length (syncQueue s1) <= fuel).
    { simpl in Hlen. destruct Ha as [-> | ->]; simpl; lia. }
    destruct (IH vars' s1 (calls ++ calls1) Hlen1) as (n2 & Hloop).
    exists (n1 + n2). rewrite repeat_app, turns_app, Hround, Hloop.
    rewrite (settle_drain_preceded this _ _ s s1 calls1 Hchain).
    cbv zeta. cbn [preceded outcome after emitted].
    rewrite app_assoc. reflexivity.
  - exists n1. rewrite Hround.
    rewrite (settle_drain_preceded this _ _ s s1 calls1 Hchain).
    unfold alone, ended. cbn [throw].
    destruct (settle_drain this (throw err) s1) as [result s2 calls2].
    cbv zeta. cbn [preceded outcome after emitted].
    rewrite app_nil_l, app_assoc. reflexivity.
Qed.

(** A drain followed on its own, step by step, is [processSyncQueue]: it
    ends in the same engine state, with the same settlement and after the
    same calls. *)
Theorem drain_followed_alone (this : SyncEngineService) (s : Engine) :
  exists n,
    turns this (idle s) (Invoke :: repeat (Resume 0) n)
    = mkOverlap (after (processSyncQueue this s))
        [Finished (outcome (processSyncQueue this s))]
        (emitted (processSyncQueue this s)).
Proof.
  rewrite processSyncQueue_chain.
  destruct (invoke s) as [| | | |result] eqn:Hi;
    try (unfold invoke in Hi; destruct (_ || _); discriminate).
  - destruct (loop_alone this (length (syncQueue s)) (Vars.mk None false) s
                (polling_stopped s) (le_n _)) as (n & Hloop).
    exists (2 + n).
    match goal with
    | |- context [settle_drain this ?chain s] =>
        rewrite (settle_drain_preceded this chain
                   (then_ (promiseWhile (length (syncQueue s)) doActionUntil
                             (action this) (Vars.mk None false))
                      (after_loop this))
                   s s (polling_stopped s))
    end.
    + cbn [turns fold_left repeat Nat.add].
      change (turn this (idle s) Invoke) with (mkOverlap s [invoke s] []).
      rewrite Hi. rewrite turn_alone.
      assert (Hread : alone this [] (resume this Reading s)
                      = mkOverlap s [Stopping] (polling_stopped s)).
      { unfold alone, ended, resume, then_ at 1 2, storeSvc_get, get.
        rewrite drain_opening. fold (polling_stopped s).
        cbn [resolve app]. rewrite app_nil_r. reflexivity. }
      rewrite Hread, turn_alone. cbn [resume].
      change (fold_left (turn this) (repeat (Resume 0) n) ?o)
        with (turns this o (repeat (Resume 0) n)).
      rewrite Hloop. reflexivity.
    + unfold then_ at 1 2, storeSvc_get, get. rewrite drain_opening.
      fold (polling_stopped s). unfold then_, preceded.
      destruct (promiseWhile _ _ _ _ s) as [[vars|err] s1 calls1];
        cbn [outcome after emitted]; [|reflexivity].
      destruct (after_loop this vars s1). reflexivity.
  - exists 0. cbn [turns fold_left turn idle shared running made app repeat].
    rewrite Hi. reflexivity.
Qed.

(** ** Two drains at once *)

Lemma advance_Reading (this : SyncEngineService) (s : Engine) :
  advance this Reading s = (Stopping, s, polling_stopped s).
Proof.
  unfold advance, ended, resume, then_ at 1 2, storeSvc_get, get.
  rewrite drain_opening. fold (polling_stopped s).
  cbn [resolve app]. rewrite app_nil_r. reflexivity.
Qed.

Lemma advance_Stopping (this : SyncEngineService) (s : Engine) (sync : Sync)
    (rest : list Sync) :
  syncQueue s = sync :: rest ->
  advance this Stopping s
  = (Announcing (Vars.mk None false),
     with_currentSync (Some sync) (with_syncQueue rest s),
     [InterfaceRefresh None (Some (type sync))]).
Proof.
  intros Hq. unfold advance. cbn [resume].
  rewrite (next_round_begins this _ s sync rest Hq). reflexivity.
Qed.

Lemma advance_Announcing (this : SyncEngineService) (vars : Vars.t) (s : Engine)
    (sync : Sync) :
  currentSync s = Some sync ->
  type sync <> Cancel ->
  advance this (Announcing vars) s
  = (Processing vars sync, s, processSync_calls this sync).
Proof.
  intros Hc Ht. apply SyncType_eqb_neq in Ht.
  unfold advance, resume, then_ at 1, this_currentSync. rewrite Hc.
  cbn [resolve]. rewrite Ht. unfold then_. cbn [resolve ended app].
  rewrite app_nil_r. reflexivity.
Qed.

(** A drain that settles leaves no sync marked as in flight. *)
Lemma settle_drain_clears_currentSync (this : SyncEngineService)
    (chain : Promise unit) (s : Engine) :
  currentSync (after (settle_drain this chain s)) = None.
Proof.
  unfold settle_drain, finally_.
  destruct (catch_ chain _ s) as [result s1 calls1].
  rewrite drain_finally. reflexivity.
Qed.

Lemma then_fulfilled {A B} (p : Promise A) (k : A -> Promise B) (s : Engine)
    (b : B) :
  outcome (then_ p k s) = Fulfilled b ->
  exists a, outcome (p s) = Fulfilled a /\ outcome (k a (after (p s))) = Fulfilled b.
Proof.
  rewrite then_preceded. destruct (p s) as [[a|err] s1 calls1];
    cbn [outcome after emitted preceded]; [|discriminate].
  intros H. exists a. split; [reflexivity|exact H].
Qed.

(** The loop waits at the beginning of a round or is over. *)
Lemma next_round_waits (this : SyncEngineService) (vars : Vars.t) (s : Engine)
    (d : Drain) :
  outcome (next_round this vars s) = Fulfilled (Some d) -> d = Announcing vars.
Proof.
  unfold next_round. intros H.
  apply then_fulfilled in H. destruct H as ([|] & _ & H).
  - apply then_fulfilled in H. destruct H as (? & _ & H). discriminate H.
  - apply then_fulfilled in H. destruct H as (? & _ & H).
    apply then_fulfilled in H. destruct H as (? & _ & H).
    apply then_fulfilled in H. destruct H as (? & _ & H).
    injection H as <-. reflexivity.
Qed.

(** A drain that is under way is not finished before its chain has
    settled. *)
Lemma resume_waits (this : SyncEngineService) (d d' : Drain) (s : Engine) :
  outcome (resume this d s) = Fulfilled (Some d') ->
  (forall result, d <> Finished result) ->
  forall result, d' <> Finished result.
Proof.
  intros H Hd result ->. destruct d as [| |vars|vars sync|result0];
    cbn [resume] in H.
  - apply then_fulfilled in H. destruct H as (? & _ & H).
    apply then_fulfilled in H. destruct H as (? & _ & H). discriminate H.
  - apply next_round_waits in H. discriminate H.
  - apply then_fulfilled in H. destruct H as (sync & _ & H).
    destruct (SyncType_eqb (type sync) Cancel).
    + apply then_fulfilled in H. destruct H as (? & _ & H).
      apply then_fulfilled in H. destruct H as (? & _ & H).
      apply next_round_waits in H. discriminate H.
    + apply then_fulfilled in H. destruct H as (? & _ & H). discriminate H.
  - destruct (processSync_all this sync); [|discriminate H].
    apply then_fulfilled in H. destruct H as (? & _ & H).
    apply next_round_waits in H. discriminate H.
  - exact (Hd result0 eq_refl).
Qed.

(** The step in which a drain finishes clears the mark. *)
Lemma advance_finishes (this : SyncEngineService) (d : Drain) (s : Engine)
    (result : Settled unit) :
  (forall result', d <> Finished result') ->
  fst (fst (advance this d s)) = Finished result ->
  currentSync (snd (fst (advance this d s))) = None.
Proof.
  intros Hd Hf. unfold advance, ended in *.
  destruct (resume this d s) as [[[d'|]|err] s1 calls1] eqn:E.
  - cbn [fst snd] in *. subst d'. exfalso.
    apply (resume_waits this d (Finished result) s) with (result := result);
      [rewrite E; reflexivity|exact Hd|reflexivity].
  - pose proof (settle_drain_clears_currentSync this (resolve tt) s1) as Hc.
    destruct (settle_drain this (resolve tt) s1). exact Hc.
  - pose proof (settle_drain_clears_currentSync this (throw err) s1) as Hc.
    destruct (settle_drain this (throw err) s1). exact Hc.
Qed.

(** The end of a round with a current sync: it is fulfilled, resolves the
    deferred of the current sync and leaves the queue and the current sync
    as they are. *)
Lemma round_end_run (this : SyncEngineService) (vars : Vars.t)
    (processedBookmarksData : option SyncProcessBookmarksData) (syncChange : bool)
    (s : Engine) (sync : Sync) :
  currentSync s = Some sync ->
  exists (vars' : Vars.t) (s' : Engine) (calls : list Event),
    round_end this vars processedBookmarksData syncChange s
    = mkRun (Fulfilled vars') s' calls
    /\ syncQueue s' = syncQueue s
    /\ currentSync s' = Some sync
    /\ deferreds s' = settle (deferred sync) Resolved (deferreds s).
Proof.
  intros Hc. destruct s as [st q c ds nd]. simpl in Hc. subst c.
  unfold round_end, setIsSyncing.
  unfold then_, this_currentSync, resolve, platformSvc_interface_Refresh, call,
    storeSvc_get, get, deferred_resolve.
  cbn [currentSync store]. cbv beta iota.
  destruct (negb (truthy (Store_get SyncEnabled st)) && _ && _).
  - rewrite enableSync_run. cbn. do 3 eexists. repeat split.
  - cbn. do 3 eexists. repeat split.
Qed.

(** With the queue empty, the step in which the providers answer is the
    last step of the drain. *)
Lemma advance_last_round (this : SyncEngineService) (vars : Vars.t) (sync : Sync)
    (s : Engine) (current : Sync) :
  syncQueue s = [] ->
  currentSync s = Some current ->
  exists result, fst (fst (advance this (Processing vars sync) s)) = Finished result.
Proof.
  intros Hq Hc. unfold advance, resume.
  destruct (processSync_all this sync) as [results|err].
  - destruct (round_end_run this vars
                (extract_data this results (Vars.processedBookmarksData vars))
                (combine_results results) s current Hc)
      as (vars' & s' & calls & Hrun & Hq' & _ & _).
    rewrite then_preceded, Hrun. cbn [outcome after emitted].
    rewrite next_round_over by congruence.
    unfold preceded, ended, then_.
    destruct (after_loop this vars' s') as [[[]|err] s2 calls2];
      try change (resolve None s2) with (mkRun (Fulfilled (@None Drain)) s2 []);
      cbn [outcome after emitted].
    + destruct (settle_drain this (resolve tt) s2). eexists. reflexivity.
    + destruct (settle_drain this (throw err) s2). eexists. reflexivity.
  - unfold ended, throw. destruct (settle_drain this _ s). eexists. reflexivity.
Qed.

Lemma turn_first (this : SyncEngineService) (s : Engine) (d0 d1 : Drain)
    (calls : list Event) :
  turn this (mkOverlap s [d0; d1] calls) (Resume 0)
  = match advance this d0 s with
    | (d', s', calls') => mkOverlap s' [d'; d1] (calls ++ calls')
    end.
Proof. reflexivity. Qed.

Lemma turn_second (this : SyncEngineService) (s : Engine) (d0 d1 : Drain)
    (calls : list Event) :
  turn this (mkOverlap s [d0; d1] calls) (Resume 1)
  = match advance this d1 s with
    | (d', s', calls') => mkOverlap s' [d0; d'] (calls ++ calls')
    end.
Proof. reflexivity. Qed.

(** C5, as the code has it.  What the claim says of a single call holds:
    a call of [processSyncQueue] made while a sync is marked as in flight
    or the queue is empty does nothing, and the step in which a drain
    finishes clears the mark.  But the guard reads [currentSync], and a
    drain sets [currentSync] only when its loop takes the first sync off
    the queue (l.267), after its store read (l.335) and the stop of the
    polling (l.339) have been answered.  A second call made before that
    passes the guard too, and the two drains run at once.  With two syncs
    [a] and [b] queued, neither of them a Cancel: when the first drain
    goes on to its [processSync] calls before the second drain goes on,
    [a] and [b] are with the providers at the same time, while
    [currentSync] marks [b] alone; when the two drains go on in turns,
    each takes a sync off the queue before either reaches its
    [processSync] calls, both hand [b] to the providers and [a] is handed
    to none.  And when [b] was the last sync queued, the first drain to
    be answered finishes and clears the mark while [b] is still with the
    providers. *)
Theorem drains_overlap (this : SyncEngineService) (s : Engine) (a b : Sync)
    (rest : list Sync) :
  currentSync s = None ->
  syncQueue s = a :: b :: rest ->
  type a <> Cancel ->
  type b <> Cancel ->
  let vars := Vars.mk None false in
  let called_twice := turns this (idle s) [Invoke; Invoke] in
  let one_by_one :=
    turns this called_twice
      [Resume 0; Resume 0; Resume 0; Resume 1; Resume 1; Resume 1] in
  let in_turns :=
    turns this called_twice
      [Resume 0; Resume 1; Resume 0; Resume 1; Resume 0; Resume 1] in
  let first_settled := turn this one_by_one (Resume 0) in
  (forall s' : Engine,
      currentSync s' <> None \/ syncQueue s' = [] ->
      invoke s' = Finished (Fulfilled tt)
      /\ processSyncQueue this s' = mkRun (Fulfilled tt) s' [])
  /\ (forall (d : Drain) (s' : Engine) (result : Settled unit),
        (forall result', d <> Finished result') ->
        fst (fst (advance this d s')) = Finished result ->
        currentSync (snd (fst (advance this d s'))) = None)
  /\ called_twice = mkOverlap s [Reading; Reading] []
  /\ one_by_one
     = mkOverlap (with_currentSync (Some b) (with_syncQueue rest s))
         [Processing vars a; Processing vars b]
         (polling_stopped s
          ++ [InterfaceRefresh None (Some (type a))] ++ processSync_calls this a
          ++ polling_stopped s
          ++ [InterfaceRefresh None (Some (type b))] ++ processSync_calls this b)
  /\ processing one_by_one = [a; b]
  /\ in_turns
     = mkOverlap (with_currentSync (Some b) (with_syncQueue rest s))
         [Processing vars b; Processing vars b]
         (polling_stopped s ++ polling_stopped s
          ++ [InterfaceRefresh None (Some (type a))]
          ++ [InterfaceRefresh None (Some (type b))]
          ++ processSync_calls this b ++ processSync_calls this b)
  /\ processing in_turns = [b; b]
  /\ (rest = [] ->
      (exists result,
          running first_settled = [Finished result; Processing vars b])
      /\ processing first_settled = [b]
      /\ currentSync (shared first_settled) = None).
Proof.
  intros Hc Hq Ha Hb vars called_twice one_by_one in_turns first_settled.
  subst vars. set (vars := Vars.mk None false).
  assert (Hi : invoke s = Reading).
  { unfold invoke. rewrite guard_passes by congruence. reflexivity. }
  assert (Htwice : called_twice = mkOverlap s [Reading; Reading] []).
  { subst called_twice. cbn [turns fold_left turn idle shared running made app].
    rewrite Hi. reflexivity. }
  set (s1 := with_currentSync (Some a) (with_syncQueue (b :: rest) s)).
  set (s2 := with_currentSync (Some b) (with_syncQueue rest s)).
  assert (Hs2 : with_currentSync (Some b) (with_syncQueue rest s1) = s2)
    by reflexivity.
  assert (Hp1 : polling_stopped s1 = polling_stopped s) by reflexivity.
  assert (Hone : one_by_one
                 = mkOverlap s2 [Processing vars a; Processing vars b]
                     (polling_stopped s
                      ++ [InterfaceRefresh None (Some (type a))]
                      ++ processSync_calls this a
                      ++ polling_stopped s
                      ++ [InterfaceRefresh None (Some (type b))]
                      ++ processSync_calls this b)).
  { subst one_by_one. rewrite Htwice. cbn [turns fold_left].
    rewrite turn_first, advance_Reading.
    rewrite turn_first, (advance_Stopping this s a (b :: rest) Hq).
    fold s1 vars.
    rewrite turn_first, (advance_Announcing this vars s1 a eq_refl Ha).
    rewrite turn_second, advance_Reading, Hp1.
    rewrite turn_second, (advance_Stopping this s1 b rest eq_refl), Hs2.
    fold vars.
    rewrite turn_second, (advance_Announcing this vars s2 b eq_refl Hb).
    cbn [app]. rewrite <- !app_assoc. reflexivity. }
  assert (Hturns : in_turns
                   = mkOverlap s2 [Processing vars b; Processing vars b]
                       (polling_stopped s ++ polling_stopped s
                        ++ [InterfaceRefresh None (Some (type a))]
                        ++ [InterfaceRefresh None (Some (type b))]
                        ++ processSync_calls this b
                        ++ processSync_calls this b)).
  { subst in_turns. rewrite Htwice. cbn [turns fold_left].
    rewrite turn_first, advance_Reading.
    rewrite turn_second, advance_Reading.
    rewrite turn_first, (advance_Stopping this s a (b :: rest) Hq).
    fold s1 vars.
    rewrite turn_second, (advance_Stopping this s1 b rest eq_refl), Hs2.
    fold vars.
    rewrite turn_first, (advance_Announcing this vars s2 b eq_refl Hb).
    rewrite turn_second, (advance_Announcing this vars s2 b eq_refl Hb).
    cbn [app]. rewrite <- !app_assoc. reflexivity. }
  split.
  { intros s' Hs'. split; [|apply drain_guard; exact Hs'].
    unfold invoke. destruct (currentSync s') as [current|] eqn:Hc'.
    - reflexivity.
    - destruct Hs' as [Hs'|Hs']; [congruence|]. rewrite Hs'. reflexivity. }
  split; [intros d s' result; apply advance_finishes|].
  split; [exact Htwice|]. split; [exact Hone|].
  split; [rewrite Hone; reflexivity|]. split; [exact Hturns|].
  split; [rewrite Hturns; reflexivity|].
  intros Hrest. subst first_settled. rewrite Hone, turn_first.
  assert (Hq2 : syncQueue s2 = []) by (subst rest; reflexivity).
  destruct (advance_last_round this vars a s2 b Hq2 eq_refl) as (result & Hlast).
  pose proof (advance_finishes this (Processing vars a) s2 result
                ltac:(discriminate) Hlast) as Hclear.
  destruct (advance this (Processing vars a) s2) as [[d' s'] calls'].
  cbn [fst snd] in Hlast, Hclear. subst d'.
  cbn [running shared]. split; [exists result; reflexivity|].
  split; [reflexivity|exact Hclear].
Qed.

Lemma drains_overlap_witness :
  let this := example_service process_update commit_ok in
  let called_twice := turns this (idle two_remote_queued) [Invoke; Invoke] in
  let one_by_one :=
    turns this called_twice
      [Resume 0; Resume 0; Resume 0; Resume 1; Resume 1; Resume 1] in
  let in_turns :=
    turns this called_twice
      [Resume 0; Resume 1; Resume 0; Resume 1; Resume 0; Resume 1] in
  called_twice = mkOverlap two_remote_queued [Reading; Reading] []
  /\ processing one_by_one = [remote_sync; second_remote_sync]
  /\ currentSync (shared one_by_one) = Some second_remote_sync
  /\ processing in_turns = [second_remote_sync; second_remote_sync]
  /\ currentSync (shared (turn this one_by_one (Resume 0))) = None.
Proof.
  intros this called_twice one_by_one in_turns.
  destruct (drains_overlap this two_remote_queued remote_sync second_remote_sync [])
    as (_ & _ & Htwice & Hone & Hp & _ & Hp' & Hlast).
  - reflexivity.
  - reflexivity.
  - discriminate.
  - discriminate.
  - split; [exact Htwice|]. split; [exact Hp|].
    split; [subst one_by_one called_twice; rewrite Hone; reflexivity|].
    split; [exact Hp'|]. apply Hlast. reflexivity.
Defined.

(** Two drains that overlap, followed to their end, for two remote
    changes and a provider that is fulfilled and asks for a remote
    update.  Both syncs are handed to the provider before either is
    answered.  The first drain ends its round by resolving the deferred
    of the current sync, which by then is the second sync; it makes the
    remote commit and finishes, which clears the mark.  The second drain
    then finds no current sync at the end of its round and is rejected
    with a [TypeError].  The deferred of the first sync is settled by no
    call and stays pending. *)
Lemma overlapping_drains_leave_a_sync_unsettled :
  let this := example_service process_update commit_ok in
  let over :=
    turns this (idle two_remote_queued)
      [Invoke; Invoke; Resume 0; Resume 0; Resume 0; Resume 1; Resume 1; Resume 1;
       Resume 0; Resume 1] in
  currentSync two_remote_queued = None
  /\ syncQueue two_remote_queued = [remote_sync; second_remote_sync]
  /\ running over
     = [Finished (Fulfilled tt); Finished (Rejected (NativeError "TypeError"))]
  /\ processSync_requests (made over)
     = fan_out this [remote_sync; second_remote_sync]
  /\ remote_commits (made over) = [UpdateBookmarks "encrypted"]
  /\ settlements 0 (made over) = []
  /\ settlements 1 (made over) = [DeferredResolve 1]
  /\ deferreds (shared over) !! 0 = Some Pending
  /\ deferreds (shared over) !! 1 = Some Resolved.
Proof. repeat split. Qed.
